(** * AniList discussion plugin: markup parser and optimistic comment tree

    A shallow embedding of the two cores of the plugin,
    - the comment parser ([decodeHtmlEntities], [parseComment] and its
      nested [parseInline]) and
    - the optimistic comment-tree transforms of [handleToggleLike],
      [handlePostReply], [handleEditComment] and [handleDeleteComment],
    together with the properties the specification states about them.
    Parts II-b and VI add the other handlers and helpers of the plugin
    (the edit and delete handlers with their rollbacks, [fetchComments],
    the paging of the thread list, [formatTimeAgo], the toolbar) and
    further properties of the parser.

    JavaScript strings are sequences of UTF-16 code units; they are
    modelled as lists of [N].  JavaScript numbers that hold identifiers,
    counters and timestamps are modelled as [Z]; the sums and quotients of
    the model are those of the integers, which are the code's while the
    values are safe integers, and the statements that rest on them are
    made for such values. *)

From Stdlib Require Import List NArith ZArith Bool Lia String Ascii.
From Stdlib Require Import Permutation Sorting.Sorted DecimalString.
Import ListNotations.

Set Warnings "-register-all".

(** ** Strings *)

Definition jsstring := list N.

(** The code units of an ASCII literal. *)
Definition js (s : string) : jsstring :=
  List.map N_of_ascii (list_ascii_of_string s).

(* ===================================================================== *)
(** * Part I. The comment tree (definitions)                              *)
(* ===================================================================== *)

Module Tree.

Record User := mkUser { name : jsstring; avatar_large : jsstring }.

(** [interface ThreadComment]: [childComments] and [isOptimistic] are
    optional properties ([?:]), absent ones are [None]. *)
Inductive ThreadComment := mkThreadComment {
  id : Z;
  comment : jsstring;
  createdAt : Z;
  likeCount : Z;
  isLiked : bool;
  user : User;
  childComments : option (list ThreadComment);
  isOptimistic : option bool
}.

(** The object spread [{ ...c, childComments: k }]. *)
Definition with_childComments (c : ThreadComment) (k : list ThreadComment) :=
  mkThreadComment (id c) (comment c) (createdAt c) (likeCount c) (isLiked c)
                  (user c) (Some k) (isOptimistic c).

(** [x || []] on an optional array (an empty array is truthy). *)
Definition orEmpty (k : option (list ThreadComment)) : list ThreadComment :=
  match k with Some l => l | None => [] end.

(** *** handleToggleLike *)

(** The callback of [commentList.map] in [updateCommentInTree].  The sums
    are those of the integers; they are the sums of the code as long as
    the count is a safe integer ([safeInteger] below). *)
Fixpoint toggleNode (commentId : Z) (c : ThreadComment) : ThreadComment :=
  match c with
  | mkThreadComment i cm t n l u k o =>
    if (i =? commentId)%Z
    then mkThreadComment i cm t (if l then n - 1 else n + 1)%Z (negb l) u k o
    else match k with
         | Some cs =>
           mkThreadComment i cm t n l u (Some (List.map (toggleNode commentId) cs)) o
         | None => c
         end
  end.

Definition updateCommentInTree (commentId : Z) (commentList : list ThreadComment) :=
  List.map (toggleNode commentId) commentList.

(** *** handlePostReply *)

(** The optimistic node; [temporaryId] is [Date.now()], [createdAt] is the
    second reading of the clock divided by 1000. *)
Definition newComment (temporaryId : Z) (text : jsstring) (now : Z) (me : User) :=
  mkThreadComment temporaryId text (now / 1000)%Z 0%Z false me (Some []) (Some true).

Fixpoint addReplyNode (nc : ThreadComment) (pId : Z) (c : ThreadComment) :=
  match c with
  | mkThreadComment i cm t n l u k o =>
    if (i =? pId)%Z
    then mkThreadComment i cm t n l u (Some (orEmpty k ++ [nc])) o
    else match k with
         | Some cs =>
           mkThreadComment i cm t n l u (Some (List.map (addReplyNode nc pId) cs)) o
         | None => c
         end
  end.

Definition addReplyToTree (nc : ThreadComment) (commentList : list ThreadComment)
           (pId : Z) :=
  List.map (addReplyNode nc pId) commentList.

(** [if (parentCommentId)]: an absent argument and the number 0 are falsy. *)
Definition truthy (parentCommentId : option Z) : bool :=
  match parentCommentId with
  | Some p => negb (p =? 0)%Z
  | None => false
  end.

(** The optimistic insertion: the value handed to [comments.set] from the
    value [comments.get()] returned. *)
Definition postReplyOptimistic (comments : option (list ThreadComment))
           (parentCommentId : option Z) (nc : ThreadComment) : list ThreadComment :=
  let currentComments := orEmpty comments in
  match parentCommentId with
  | Some p => if truthy parentCommentId
              then addReplyToTree nc currentComments p
              else nc :: currentComments
  | None => nc :: currentComments
  end.

(** [removeInTree] of the [catch] branch, and [removeCommentFromTree] of
    [handleDeleteComment]: the same text but for the name of the id. *)
Fixpoint removeKids (x : Z) (c : ThreadComment) : ThreadComment :=
  match c with
  | mkThreadComment i cm t n l u k o =>
    match k with
    | Some cs =>
      mkThreadComment i cm t n l u
        (Some ((fix filterMap (cl : list ThreadComment) : list ThreadComment :=
                  match cl with
                  | [] => []
                  | c' :: rest =>
                    if negb (id c' =? x)%Z
                    then removeKids x c' :: filterMap rest
                    else filterMap rest
                  end) cs)) o
    | None => c
    end
  end.

Definition removeInTree (temporaryId : Z) (commentList : list ThreadComment) :=
  List.map (removeKids temporaryId)
           (List.filter (fun c => negb (id c =? temporaryId)%Z) commentList).

Definition postReplyRollback (temporaryId : Z)
           (comments : option (list ThreadComment)) :=
  removeInTree temporaryId (orEmpty comments).

(** [replaceInTree] of the success branch. *)
Fixpoint replaceNode (temporaryId : Z) (realComment : ThreadComment)
         (c : ThreadComment) : ThreadComment :=
  match c with
  | mkThreadComment i cm t n l u k o =>
    if (i =? temporaryId)%Z
    then with_childComments realComment []
    else match k with
         | Some cs =>
           mkThreadComment i cm t n l u
             (Some (List.map (replaceNode temporaryId realComment) cs)) o
         | None => c
         end
  end.

Definition replaceInTree (temporaryId : Z) (realComment : ThreadComment)
           (commentList : list ThreadComment) :=
  List.map (replaceNode temporaryId realComment) commentList.

(** *** handleEditComment *)

Fixpoint editNode (commentId : Z) (newText : jsstring) (c : ThreadComment) :=
  match c with
  | mkThreadComment i cm t n l u k o =>
    if (i =? commentId)%Z
    then mkThreadComment i newText t n l u k o
    else match k with
         | Some cs =>
           mkThreadComment i cm t n l u
             (Some (List.map (editNode commentId newText) cs)) o
         | None => c
         end
  end.

Definition findAndUpdateInTree (commentId : Z) (newText : jsstring)
           (list : list ThreadComment) :=
  List.map (editNode commentId newText) list.

(** *** handleDeleteComment *)

Definition removeCommentFromTree (commentId : Z) (list : list ThreadComment) :=
  removeInTree commentId list.

(** *** Observations on a forest *)

Definition kids (c : ThreadComment) : list ThreadComment :=
  orEmpty (childComments c).

(** The node reached from the top level by a path of sibling indices. *)
Fixpoint nodeAt (path : list nat) (l : list ThreadComment) : option ThreadComment :=
  match path with
  | [] => None
  | i :: rest =>
    match nth_error l i with
    | None => None
    | Some c => match rest with
                | [] => Some c
                | _ => nodeAt rest (kids c)
                end
    end
  end.




(** Some node of the forest carries the id [x]. *)
Fixpoint nodeHasId (x : Z) (c : ThreadComment) : bool :=
  match c with
  | mkThreadComment i _ _ _ _ _ k _ =>
    (i =? x)%Z ||
    match k with
    | Some cs => List.existsb (nodeHasId x) cs
    | None => false
    end
  end.

Definition hasId (x : Z) (l : list ThreadComment) : bool :=
  List.existsb (nodeHasId x) l.

(** Some node with id [x] has no [childComments] property. *)
Fixpoint nodeLacksKids (x : Z) (c : ThreadComment) : bool :=
  match c with
  | mkThreadComment i _ _ _ _ _ k _ =>
    match k with
    | Some cs => List.existsb (nodeLacksKids x) cs
    | None => (i =? x)%Z
    end
  end.

Definition lacksKids (x : Z) (l : list ThreadComment) : bool :=
  List.existsb (nodeLacksKids x) l.

(** Reading an absent [childComments] as the empty list, everywhere. *)
Fixpoint normNode (c : ThreadComment) : ThreadComment :=
  match c with
  | mkThreadComment i cm t n l u k o =>
    mkThreadComment i cm t n l u
      (Some (match k with Some cs => List.map normNode cs | None => [] end)) o
  end.

Definition norm (l : list ThreadComment) := List.map normNode l.


(** The forest in which every node that [addReplyToTree] reaches with id
    [pId] has a [childComments] array, an empty one where it had none. *)
Fixpoint fillNode (pId : Z) (c : ThreadComment) : ThreadComment :=
  match c with
  | mkThreadComment i cm t n l u k o =>
    if (i =? pId)%Z
    then mkThreadComment i cm t n l u (Some (orEmpty k)) o
    else match k with
         | Some cs => mkThreadComment i cm t n l u (Some (List.map (fillNode pId) cs)) o
         | None => c
         end
  end.

Definition fillParent (parentCommentId : option Z) (l : list ThreadComment) :=
  match parentCommentId with
  | Some p => if truthy parentCommentId then List.map (fillNode p) l else l
  | None => l
  end.

Definition parentLacksKids (parentCommentId : option Z) (l : list ThreadComment) :=
  match parentCommentId with
  | Some p => truthy parentCommentId && lacksKids p l
  | None => false
  end.

(** Induction over a comment with its children, whatever their depth. *)
Section Induction.
Variable P : ThreadComment -> Prop.
Hypothesis step :
  forall i cm t n l u k o,
    Forall P (orEmpty k) -> P (mkThreadComment i cm t n l u k o).

Fixpoint comment_ind (c : ThreadComment) : P c :=
  match c with
  | mkThreadComment i cm t n l u k o =>
    step i cm t n l u k o
      (match k return Forall P (orEmpty k) with
       | Some cs =>
         (fix all (l : list ThreadComment) : Forall P l :=
            match l with
            | [] => Forall_nil P
            | x :: r => Forall_cons x (comment_ind x) (all r)
            end) cs
       | None => Forall_nil P
       end)
  end.
End Induction.



(** *** Like counts as JavaScript numbers

    [likeCount] is a JavaScript number that holds an integer.  From -2^53
    to 2^53 every integer is such a number, so [n + 1] and [n - 1] are the
    exact sums as long as [n] lies strictly between the two bounds
    ([Number.isSafeInteger]); beyond them the sums are rounded. *)
Definition maxExact : Z := 9007199254740992.   (* 2^53 *)

Definition inRange (lo hi n : Z) : bool := ((lo <=? n) && (n <=? hi))%Z.

Definition safeInteger (n : Z) : bool := inRange (1 - maxExact) (maxExact - 1) n.

(** Every [likeCount] of the node and below it lies from [lo] to [hi]. *)
Fixpoint likesInNode (lo hi : Z) (c : ThreadComment) : bool :=
  match c with
  | mkThreadComment _ _ _ n _ _ k _ =>
    inRange lo hi n &&
    match k with
    | Some cs => List.forallb (likesInNode lo hi) cs
    | None => true
    end
  end.

(** Every [likeCount] of the forest is a safe integer. *)
Definition safeLikes (l : list ThreadComment) : bool :=
  List.forallb (likesInNode (1 - maxExact) (maxExact - 1)) l.

(** Every [likeCount] of the forest is an integer that a number holds. *)
Definition exactLikes (l : list ThreadComment) : bool :=
  List.forallb (likesInNode (- maxExact) maxExact) l.

(** Sample data. *)
Definition leaf (i : Z) (text : string) (k : option (list ThreadComment)) :=
  mkThreadComment i (js text) 1700000000 0 false
                  (mkUser (js "ann") (js "a.png")) k None.

End Tree.

(* ===================================================================== *)
(** * Part II. The comment parser (definitions)                           *)
(* ===================================================================== *)

(** ** Regular expressions

    The patterns of the source are translated constructor by constructor.
    Every quantifier in them applies to a single character or character
    class, which is what [Many] offers.  Matching is the backtracking,
    leftmost, priority-ordered matching of ECMAScript over code units (no
    pattern has the [u] flag). *)

Module Regex.

Inductive regex :=
| Eps
| Chr (c : N)                       (* a pattern character *)
| Cls (p : N -> bool)               (* a class, [.], [\s], [\d], [\w] *)
| Bol                               (* [^] *)
| Eol                               (* [$] *)
| Seq (a b : regex)
| Alt (a b : regex)                 (* [a|b] *)
| Many (greedy : bool) (lo : nat) (hi : option nat) (p : N -> bool)
| Grp (i : nat) (a : regex).        (* the i-th capturing group *)

Record Regex := mkRegex { re : regex; ignoreCase : bool; multiline : bool }.

Declare Scope regex_scope.
Delimit Scope regex_scope with re.
Bind Scope regex_scope with regex.
Infix ";;" := Seq (at level 60, right associativity) : regex_scope.
Infix "<|>" := Alt (at level 70, right associativity) : regex_scope.

(** A run of pattern characters. *)
Fixpoint chars (l : list N) : regex :=
  match l with
  | [] => Eps
  | [c] => Chr c
  | c :: r => Seq (Chr c) (chars r)
  end.

Definition lit (s : string) : regex := chars (js s).

Definition star (p : N -> bool) := Many true 0 None p.       (* [p*]  *)
Definition plus (p : N -> bool) := Many true 1 None p.       (* [p+]  *)
Definition opt (p : N -> bool) := Many true 0 (Some 1%nat) p. (* [p?]  *)
Definition lazyStar (p : N -> bool) := Many false 0 None p.  (* [p*?] *)
Definition lazyPlus (p : N -> bool) := Many false 1 None p.  (* [p+?] *)

(** *** Classes *)

Definition oneOf (s : string) (x : N) : bool := List.existsb (N.eqb x) (js s).
Definition noneOf (s : string) (x : N) : bool := negb (oneOf s x).
Definition within (lo hi x : N) : bool := ((lo <=? x) && (x <=? hi))%N.

Definition dquote : N := 34.
Definition isDigit (x : N) : bool := within 48 57 x.                  (* [\d] *)
Definition isLower (x : N) : bool := within 97 122 x.
Definition isUpper (x : N) : bool := within 65 90 x.
Definition isWord (x : N) : bool :=                                    (* [\w] *)
  isDigit x || isUpper x || isLower x || (x =? 95)%N.
Definition isLineTerminator (x : N) : bool :=
  ((x =? 10) || (x =? 13) || (x =? 8232) || (x =? 8233))%N.
(** [\s]: WhiteSpace and LineTerminator of ECMAScript. *)
Definition isSpace (x : N) : bool :=
  (within 9 13 x || (x =? 32) || (x =? 160) || (x =? 5760) ||
   within 8192 8202 x || (x =? 8232) || (x =? 8233) || (x =? 8239) ||
   (x =? 8287) || (x =? 12288) || (x =? 65279))%N.
Definition any (x : N) : bool := true.                                 (* [[\s\S]] *)
Definition dot (x : N) : bool := negb (isLineTerminator x).            (* [.] *)

(** The canonical form of a code unit under the [i] flag.  Every pattern
    character of the source is ASCII, and a code unit above 127 never
    canonicalizes to an ASCII one, so only [a-z] matter. *)
Definition canon (x : N) : N := if isLower x then (x - 32)%N else x.

Definition sameChar (ic : bool) (x c : N) : bool :=
  if ic then (canon x =? canon c)%N else (x =? c)%N.

Definition atLineStart (ml : bool) (bef : list N) : bool :=
  match bef with [] => true | x :: _ => ml && isLineTerminator x end.

Definition atLineEnd (ml : bool) (aft : list N) : bool :=
  match aft with [] => true | x :: _ => ml && isLineTerminator x end.

(** *** Matching *)

Definition caps := nat -> option jsstring.

Definition noCaps : caps := fun _ => None.

Definition setCap (i : nat) (w : jsstring) (cs : caps) : caps :=
  fun j => if Nat.eqb j i then Some w else cs j.

Definition canTake (hi : option nat) : bool :=
  match hi with Some O => false | _ => true end.

Section Matcher.
Variable ic ml : bool.
Variable A : Type.

(** [bef] holds the code units before the current position, nearest
    first; [aft] those from the current position on. *)
Fixpoint many (g : bool) (lo : nat) (hi : option nat) (p : N -> bool)
         (k : list N -> list N -> option A) (bef aft : list N) {struct aft}
  : option A :=
  match lo with
  | S _ =>
    match aft with
    | x :: aft' =>
      if p x && canTake hi
      then many g (pred lo) (option_map pred hi) p k (x :: bef) aft'
      else None
    | [] => None
    end
  | O =>
    if g then
      match (match aft with
             | x :: aft' =>
               if p x && canTake hi
               then many g O (option_map pred hi) p k (x :: bef) aft'
               else None
             | [] => None
             end) with
      | Some a => Some a
      | None => k bef aft
      end
    else
      match k bef aft with
      | Some a => Some a
      | None =>
        match aft with
        | x :: aft' =>
          if p x && canTake hi
          then many g O (option_map pred hi) p k (x :: bef) aft'
          else None
        | [] => None
        end
      end
  end.

Fixpoint run (r : regex) (bef aft : list N) (cs : caps)
         (k : list N -> list N -> caps -> option A) {struct r} : option A :=
  match r with
  | Eps => k bef aft cs
  | Chr c =>
    match aft with
    | x :: aft' => if sameChar ic x c then k (x :: bef) aft' cs else None
    | [] => None
    end
  | Cls p =>
    match aft with
    | x :: aft' => if p x then k (x :: bef) aft' cs else None
    | [] => None
    end
  | Bol => if atLineStart ml bef then k bef aft cs else None
  | Eol => if atLineEnd ml aft then k bef aft cs else None
  | Seq a b => run a bef aft cs (fun bef' aft' cs' => run b bef' aft' cs' k)
  | Alt a b =>
    match run a bef aft cs k with
    | Some x => Some x
    | None => run b bef aft cs k
    end
  | Many g lo hi p => many g lo hi p (fun bef' aft' => k bef' aft' cs) bef aft
  | Grp i a =>
    run a bef aft cs
        (fun bef' aft' cs' =>
           k bef' aft'
             (setCap i (List.firstn (List.length aft - List.length aft') aft) cs'))
  end.
End Matcher.
Arguments many {A} g lo hi p k bef aft.
Arguments run ic ml {A} r bef aft cs k.

(** The match array: [index], [m[0]] and [m[i]] ([None] is [undefined]). *)
Record MatchResult := mkMatch {
  index : nat;
  matched : jsstring;
  group : nat -> option jsstring
}.

(** A match that starts exactly at the current position. *)
Definition execAt (R : Regex) (bef aft : list N) : option MatchResult :=
  run (ignoreCase R) (multiline R) (re R) bef aft noCaps
      (fun _ aft' cs =>
         Some (mkMatch (List.length bef)
                       (List.firstn (List.length aft - List.length aft') aft) cs)).

(** The first match at or after the current position. *)
Fixpoint execFrom (R : Regex) (bef aft : list N) : option MatchResult :=
  match execAt R bef aft with
  | Some m => Some m
  | None =>
    match aft with
    | x :: aft' => execFrom R (x :: bef) aft'
    | [] => None
    end
  end.

(** [text.match(R)] and [R.exec(text)] without the [g] flag. *)
Definition exec (R : Regex) (text : jsstring) : option MatchResult :=
  execFrom R [] text.

(** [R.exec(text)] of a [g] pattern whose [lastIndex] is [lastIndex]. *)
Definition execG (R : Regex) (text : jsstring) (lastIndex : nat)
  : option MatchResult :=
  if Nat.ltb (List.length text) lastIndex then None
  else execFrom R (List.rev (List.firstn lastIndex text)) (List.skipn lastIndex text).

(** [text.search(R)]; [None] is -1. *)
Definition search (R : Regex) (text : jsstring) : option nat :=
  option_map index (exec R text).

(** [text.replace(R, ...)] of a [g] pattern cuts the text into the matches
    and the code units between them; [skip] counts the code units of the
    last match still to pass.  After an empty match the scan moves on by
    one code unit. *)
Inductive piece := PChar (c : N) | PMatch (m : MatchResult).

Fixpoint pieces (R : Regex) (skip : nat) (bef aft : list N) : list piece :=
  match skip with
  | S n =>
    match aft with
    | x :: aft' => pieces R n (x :: bef) aft'
    | [] => []
    end
  | O =>
    match execAt R bef aft with
    | Some m =>
      PMatch m ::
      match aft with
      | x :: aft' =>
        match matched m with
        | [] => PChar x :: pieces R O (x :: bef) aft'
        | _ :: w => pieces R (List.length w) (x :: bef) aft'
        end
      | [] => []
      end
    | None =>
      match aft with
      | x :: aft' => PChar x :: pieces R O (x :: bef) aft'
      | [] => []
      end
    end
  end.

Definition replace (R : Regex) (f : MatchResult -> jsstring) (text : jsstring)
  : jsstring :=
  List.flat_map (fun p => match p with PChar c => [c] | PMatch m => f m end)
                (pieces R O [] text).

(** *** What a match is

    [Matches ic ml r bef w aft cs cs']: the pattern can match the word [w]
    with [bef] before it and [aft] after it, turning the captures [cs]
    into [cs'].  The relation forgets the order in which the matcher tries
    the alternatives. *)
Inductive Matches (ic ml : bool)
  : regex -> list N -> list N -> list N -> caps -> caps -> Prop :=
| M_Eps bef aft cs : Matches ic ml Eps bef [] aft cs cs
| M_Chr c x bef aft cs :
    sameChar ic x c = true -> Matches ic ml (Chr c) bef [x] aft cs cs
| M_Cls p x bef aft cs :
    p x = true -> Matches ic ml (Cls p) bef [x] aft cs cs
| M_Bol bef aft cs :
    atLineStart ml bef = true -> Matches ic ml Bol bef [] aft cs cs
| M_Eol bef aft cs :
    atLineEnd ml aft = true -> Matches ic ml Eol bef [] aft cs cs
| M_Seq a b bef w1 w2 aft cs cs1 cs2 :
    Matches ic ml a bef w1 (w2 ++ aft) cs cs1 ->
    Matches ic ml b (List.rev w1 ++ bef) w2 aft cs1 cs2 ->
    Matches ic ml (Seq a b) bef (w1 ++ w2) aft cs cs2
| M_AltL a b bef w aft cs cs' :
    Matches ic ml a bef w aft cs cs' -> Matches ic ml (Alt a b) bef w aft cs cs'
| M_AltR a b bef w aft cs cs' :
    Matches ic ml b bef w aft cs cs' -> Matches ic ml (Alt a b) bef w aft cs cs'
| M_Many g lo hi p bef w aft cs :
    List.Forall (fun x => p x = true) w ->
    lo <= List.length w ->
    (forall h, hi = Some h -> List.length w <= h) ->
    Matches ic ml (Many g lo hi p) bef w aft cs cs
| M_Grp i a bef w aft cs cs' :
    Matches ic ml a bef w aft cs cs' ->
    Matches ic ml (Grp i a) bef w aft cs (setCap i w cs').

(** *** What a pattern cannot do without

    Three bounds read off a pattern: a code unit every match contains, the
    least length of a match, and the least number of code units of a match
    outside a capturing group. *)

Definition isLetter (c : N) : bool := isLower c || isUpper c.

Fixpoint needs (t : N -> bool) (r : regex) : bool :=
  match r with
  | Chr c => t c && negb (isLetter c)
  | Seq a b => needs t a || needs t b
  | Alt a b => needs t a && needs t b
  | Grp _ a => needs t a
  | _ => false
  end.

Fixpoint minLen (r : regex) : nat :=
  match r with
  | Chr _ | Cls _ => 1
  | Seq a b => minLen a + minLen b
  | Alt a b => Nat.min (minLen a) (minLen b)
  | Many _ lo _ _ => lo
  | Grp _ a => minLen a
  | _ => 0
  end.

Definition optMin (a b : option nat) : option nat :=
  match a, b with
  | Some x, Some y => Some (Nat.min x y)
  | Some x, None => Some x
  | None, o => o
  end.

(** [None]: the pattern has no group [i]. *)
Fixpoint slack (i : nat) (r : regex) : option nat :=
  match r with
  | Seq a b =>
    optMin (option_map (fun s => s + minLen b) (slack i a))
           (option_map (fun s => minLen a + s) (slack i b))
  | Alt a b => optMin (slack i a) (slack i b)
  | Grp j a => if Nat.eqb i j then Some 0 else slack i a
  | _ => None
  end.

(** *** Vocabulary of the properties *)

(** [m] is the result of a match of [R] on the word [w]. *)
Definition MatchOf (R : Regex) (bef w aft : list N) (m : MatchResult) : Prop :=
  Matches (ignoreCase R) (multiline R) (re R) bef w aft noCaps (group m) /\
  matched m = w.

(** The code units of the text that a list of pieces stands for. *)
Definition weight (ps : list piece) : nat :=
  List.fold_right (fun p n => match p with
                              | PChar _ => 1
                              | PMatch m => List.length (matched m)
                              end + n) 0 ps.

Definition FromMatches (R : Regex) (ps : list piece) : Prop :=
  forall m, List.In (PMatch m) ps ->
            minLen (re R) <= List.length (matched m) /\
            forall i u s, group m i = Some u -> slack i (re R) = Some s ->
                          List.length u + s <= List.length (matched m).

End Regex.

(** ** The parser *)

Module Parser.
Import Regex.
Local Open Scope regex_scope.

(** *** Outcomes of a call *)

Inductive exn := RangeError.

(** [OutOfFuel] belongs to the model only: it marks a run cut short by the
    recursion bound, and is shown below never to happen. *)
Inductive outcome (A : Type) :=
| Ok (a : A)
| Throw (e : exn)
| OutOfFuel.
Arguments Ok {A} a.
Arguments Throw {A} e.
Arguments OutOfFuel {A}.

Definition bind {A B : Type} (x : outcome A) (f : A -> outcome B) : outcome B :=
  match x with
  | Ok a => f a
  | Throw e => Throw e
  | OutOfFuel => OutOfFuel
  end.

Notation "x <- e ; f" := (bind e (fun x => f))
  (at level 100, e at next level, right associativity).

Definition ofOption {A : Type} (o : option A) : outcome A :=
  match o with Some a => Ok a | None => OutOfFuel end.

(** *** Segments *)

Inductive SegType :=
| Ttext | Tspoiler | Timage | Tlink | Tbold | Titalic | Tstrike | Theading
| Thr | Tblockquote | Tinline_code | Tcode_block | Tbr | Tcenter
| Tyoutube | Tvideo | Tuser_link.


(** [content: string | CommentSegment[]]. *)
Inductive Content (S : Type) :=
| Str (s : jsstring)
| Segs (l : list S).
Arguments Str {S} s.
Arguments Segs {S} l.

Inductive CommentSegment := mkSegment {
  type : SegType;
  content : Content CommentSegment;
  url : option jsstring;
  level : option nat;
  username : option jsstring
}.

(** *** String methods *)

Definition newline : N := 10.

(** [s.split('\n')]. *)
Fixpoint split (s : jsstring) : list jsstring :=
  match s with
  | [] => [[]]
  | c :: r =>
    if (c =? newline)%N then [] :: split r
    else match split r with
         | l :: ls => (c :: l) :: ls
         | [] => [[c]]
         end
  end.

Fixpoint dropSpace (s : jsstring) : jsstring :=
  match s with
  | c :: r => if isSpace c then dropSpace r else s
  | [] => []
  end.

(** [s.trim()]. *)
Definition trim (s : jsstring) : jsstring :=
  List.rev (dropSpace (List.rev (dropSpace s))).

(** [s.substring(a, b)] for [a <= b]. *)
Definition substring (a b : nat) (s : jsstring) : jsstring :=
  List.firstn (b - a) (List.skipn a s).

(** [m[i]] where the group takes part in every match. *)
Definition grp (m : MatchResult) (i : nat) : jsstring :=
  match group m i with Some s => s | None => [] end.

(** [m[1] || m[2]]: [undefined] and the empty string are falsy. *)
Definition grpOr (m : MatchResult) (i j : nat) : jsstring :=
  match group m i with
  | Some (c :: s) => c :: s
  | _ => grp m j
  end.

(** *** decodeHtmlEntities *)

(** [parseInt(dec, 10)] on a run of decimal digits.  The source gets a
    double; it is exact up to 2^53 and grows with the digits, which is all
    [String.fromCodePoint] looks at. *)
Definition parseInt (dec : jsstring) : N :=
  List.fold_left (fun acc d => (10 * acc + (d - 48))%N) dec 0%N.

(** [String.fromCodePoint(cp)]: a [RangeError] above 0x10FFFF, a surrogate
    pair above 0xFFFF. *)
Definition fromCodePoint (cp : N) : outcome jsstring :=
  if (1114111 <? cp)%N then Throw RangeError
  else if (cp <? 65536)%N then Ok [cp]
  else Ok [55296 + (cp - 65536) / 1024; 56320 + (cp - 65536) mod 1024]%N.

Definition entityRegex := mkRegex (lit "&#" ;; Grp 1 (plus isDigit) ;; lit ";") false false.
Definition ampRegex := mkRegex (lit "&") false false.
Definition ltRegex := mkRegex (lit "<") false false.
Definition gtRegex := mkRegex (lit ">") false false.

(** The replacer callbacks run in the order of the matches; the first one
    that throws ends the call. *)
Fixpoint replaceEntities (ps : list piece) : outcome jsstring :=
  match ps with
  | [] => Ok []
  | PChar c :: r => s <- replaceEntities r ; Ok (c :: s)
  | PMatch m :: r =>
    d <- fromCodePoint (parseInt (grp m 1)) ;
    s <- replaceEntities r ;
    Ok (d ++ s)
  end.

Definition decodeHtmlEntities (text : jsstring) : outcome jsstring :=
  match text with
  | [] => Ok []
  | _ =>
    s <- replaceEntities (pieces entityRegex O [] text) ;
    Ok (replace gtRegex (fun _ => js ">")
          (replace ltRegex (fun _ => js "<")
             (replace ampRegex (fun _ => js "&") s)))
  end.

(** *** The rule tables of parseComment *)

Record Processed := mkProcessed {
  p_type : option SegType;          (* a [type] key of its own *)
  p_content : Content CommentSegment;
  p_url : option jsstring;
  p_level : option nat;
  p_username : option jsstring
}.

Definition contentOnly (c : Content CommentSegment) :=
  mkProcessed None c None None None.

(** [process] gives [None] only when the nested [parseInline] it calls ran
    out of fuel. *)
Record Rule := mkRule {
  r_type : SegType;
  r_regex : Regex;
  r_process : MatchResult -> option Processed
}.

(** [{ type: rule.type, ...processed }] *)
Definition build (rule : Rule) (p : Processed) : CommentSegment :=
  mkSegment (match p_type p with Some t => t | None => r_type rule end)
            (p_content p) (p_url p) (p_level p) (p_username p).

Definition brRegex := mkRegex (lit "<br>") false false.

Definition multilineRegex :=
  mkRegex (Grp 1 (Bol ;; lit "```" ;; Grp 2 (lazyStar any) ;; lit "```") <|>
           Grp 3 (Bol ;; lit "~~~" ;; Grp 4 (lazyStar any) ;; lit "~~~") <|>
           Grp 5 (Bol ;; lit "~!" ;; Grp 6 (lazyStar any) ;; lit "!~"))
          false true.

Definition notQuote (x : N) : bool := negb (x =? dquote)%N.
Definition wordOrDash (x : N) : bool := isWord x || oneOf "-" x.
Definition urlChar (x : N) : bool :=
  negb (isSpace x || oneOf "<>'{}|\^`[]" x || (x =? dquote)%N).

Definition recurse (parseInline : jsstring -> option (list CommentSegment))
           (line : jsstring) (wrap : Content CommentSegment -> Processed)
  : option Processed :=
  option_map (fun segs => wrap (Segs segs)) (parseInline line).

Definition inlineRules (parseInline : jsstring -> option (list CommentSegment))
  : list Rule :=
  [ mkRule Tuser_link
      (mkRegex (Bol ;; lit "@" ;; Grp 1 (plus wordOrDash)) false false)
      (fun m => Some (mkProcessed None (Str (matched m)) None None (Some (grp m 1))));
    mkRule Timage
      (mkRegex (Bol ;; lit "<a" ;; plus isSpace ;; lit "href=" ;; Chr dquote ;;
                Grp 1 (plus notQuote) ;; Chr dquote ;; star (noneOf ">") ;;
                lit ">" ;; star isSpace ;; lit "<img" ;; plus isSpace ;;
                lit "src=" ;; Chr dquote ;; Grp 2 (plus notQuote) ;;
                Chr dquote ;; star (noneOf ">") ;; lit ">" ;; star isSpace ;;
                lit "</a>") true false)
      (fun m => Some (mkProcessed None (Str (grp m 2)) (Some (grp m 1)) None None));
    mkRule Timage
      (mkRegex (Bol ;; lit "<img" ;; plus isSpace ;; lit "src=" ;; Chr dquote ;;
                Grp 1 (plus notQuote) ;; Chr dquote ;; star (noneOf ">") ;;
                lit ">") true false)
      (fun m => Some (contentOnly (Str (grp m 1))));
    mkRule Tbold
      (mkRegex (Bol ;; lit "<b>" ;; Grp 1 (lazyStar any) ;; lit "</b>") true false)
      (fun m => recurse parseInline (grp m 1) contentOnly);
    mkRule Tlink
      (mkRegex (Bol ;; lit "<a" ;; plus isSpace ;; lit "href=" ;; Chr dquote ;;
                Grp 1 (plus notQuote) ;; Chr dquote ;; star (noneOf ">") ;;
                lit ">" ;; Grp 2 (lazyStar any) ;; lit "</a>") true false)
      (fun m => recurse parseInline (grp m 2)
                        (fun c => mkProcessed None c (Some (grp m 1)) None None));
    mkRule Timage
      (mkRegex (Bol ;; lit "img" ;; Grp 1 (star isDigit) ;; lit "(" ;;
                Grp 2 (lazyStar dot) ;; lit ")") false false)
      (fun m => Some (contentOnly (Str (grp m 2))));
    mkRule Tyoutube
      (mkRegex (Bol ;; lit "youtube(" ;; Grp 1 (plus (noneOf ")")) ;; lit ")")
               false false)
      (fun m => Some (mkProcessed (Some Tlink)
                        (Str (js "youtube.com/watch?v=" ++ grp m 1))
                        (Some (js "https://www.youtube.com/watch?v=" ++ grp m 1))
                        None None));
    mkRule Tvideo
      (mkRegex (Bol ;; lit "video(" ;; Grp 1 (plus (noneOf ")")) ;; lit ")")
               false false)
      (fun m => Some (mkProcessed (Some Tlink) (Str (grp m 1)) (Some (grp m 1))
                                  None None));
    mkRule Tlink
      (mkRegex (Bol ;; lit "[" ;; Grp 1 (plus (noneOf "]")) ;; lit "](" ;;
                Grp 2 (plus (noneOf ")")) ;; lit ")") false false)
      (fun m => Some (mkProcessed None (Str (grp m 1)) (Some (grp m 2)) None None));
    mkRule Tbold
      (mkRegex ((Bol ;; lit "**" ;; Grp 1 (lazyPlus any) ;; lit "**") <|>
                (Bol ;; lit "__" ;; Grp 2 (lazyPlus any) ;; lit "__")) false false)
      (fun m => recurse parseInline (grpOr m 1 2) contentOnly);
    mkRule Titalic
      (mkRegex ((Bol ;; lit "*" ;; Grp 1 (lazyPlus any) ;; lit "*") <|>
                (Bol ;; lit "_" ;; Grp 2 (lazyPlus any) ;; lit "_")) false false)
      (fun m => recurse parseInline (grpOr m 1 2) contentOnly);
    mkRule Tstrike
      (mkRegex (Bol ;; lit "~~" ;; Grp 1 (lazyPlus any) ;; lit "~~") false false)
      (fun m => recurse parseInline (grp m 1) contentOnly);
    mkRule Tspoiler
      (mkRegex (Bol ;; lit "!~" ;; Grp 1 (lazyPlus any) ;; lit "!~") false false)
      (fun m => recurse parseInline (grp m 1) contentOnly);
    mkRule Tspoiler
      (mkRegex (Bol ;; lit "~!" ;; Grp 1 (lazyPlus any) ;; lit "!~") false false)
      (fun m => recurse parseInline (grp m 1) contentOnly);
    mkRule Tinline_code
      (mkRegex (Bol ;; lit "`" ;; Grp 1 (lazyPlus (noneOf "`")) ;; lit "`")
               false false)
      (fun m => Some (contentOnly (Str (grp m 1))));
    mkRule Tlink
      (mkRegex (Bol ;; Grp 1 (lit "http" ;; opt (oneOf "s") ;; lit "://" ;;
                              plus urlChar)) false false)
      (fun m => Some (mkProcessed None (Str (grp m 1)) (Some (grp m 1)) None None))
  ].

Definition lineStartRules
           (parseInline : jsstring -> option (list CommentSegment)) : list Rule :=
  [ mkRule Tcenter
      (mkRegex (Bol ;; lit "#<center>" ;; Grp 1 (star dot)) false false)
      (fun m => recurse parseInline (grp m 1) contentOnly);
    mkRule Theading
      (mkRegex (Bol ;; Grp 1 (Many true 1 (Some 5%nat) (oneOf "#")) ;;
                plus isSpace ;; Grp 2 (star dot)) false false)
      (fun m => recurse parseInline (grp m 2)
                        (fun c => mkProcessed None c None
                                              (Some (List.length (grp m 1))) None));
    mkRule Tblockquote
      (mkRegex (Bol ;; lit ">" ;; opt isSpace ;; Grp 1 (star dot)) false false)
      (fun m => recurse parseInline (grp m 1) contentOnly);
    mkRule Thr
      (mkRegex (Bol ;; lit "---" ;; star isSpace ;; Eol) false false)
      (fun _ => Some (contentOnly (Str [])))
  ].

(** The rules of [loneFormatterRules] give the parsed inside itself. *)
Record LoneRule := mkLoneRule {
  l_type : SegType;
  l_regex : Regex;
  l_process : MatchResult -> option (list CommentSegment)
}.

Definition loneFormatterRules
           (parseInline : jsstring -> option (list CommentSegment)) : list LoneRule :=
  [ mkLoneRule Tbold
      (mkRegex (Bol ;; lit "**" ;; Grp 1 (lazyPlus any) ;; lit "**" ;; Eol) false false)
      (fun m => parseInline (grp m 1));
    mkLoneRule Tbold
      (mkRegex (Bol ;; lit "__" ;; Grp 1 (lazyPlus any) ;; lit "__" ;; Eol) false false)
      (fun m => parseInline (grp m 1));
    mkLoneRule Titalic
      (mkRegex (Bol ;; lit "*" ;; Grp 1 (lazyPlus any) ;; lit "*" ;; Eol) false false)
      (fun m => parseInline (grp m 1));
    mkLoneRule Titalic
      (mkRegex (Bol ;; lit "_" ;; Grp 1 (lazyPlus any) ;; lit "_" ;; Eol) false false)
      (fun m => parseInline (grp m 1));
    mkLoneRule Tstrike
      (mkRegex (Bol ;; lit "~~" ;; Grp 1 (lazyPlus any) ;; lit "~~" ;; Eol) false false)
      (fun m => parseInline (grp m 1))
  ].

(** The pattern of [text.search] in the no-match branch. *)
Definition nextTokenRegex :=
  mkRegex (Grp 1 ((lit "@" ;; plus wordOrDash) <|> lit "[" <|> lit "!~" <|>
                  lit "~!" <|> (lit "http" ;; opt (oneOf "s") ;; lit "://") <|>
                  lit "`" <|> lit "**" <|> lit "*" <|> lit "__" <|> lit "_" <|>
                  lit "~~" <|> lit "img(" <|> lit "youtube(" <|> lit "video(" <|>
                  (lit "<" ;; Cls (oneOf "a|imgb"))))
          false false.

(** *** parseInline *)

(** [for (const rule of rules) { const match = text.match(rule.regex); if
    (match) { ...; break; } }] *)
Fixpoint firstMatch (rules : list Rule) (text : jsstring)
  : option (Rule * MatchResult) :=
  match rules with
  | [] => None
  | rule :: rest =>
    match exec (r_regex rule) text with
    | Some m => Some (rule, m)
    | None => firstMatch rest text
    end
  end.

Definition textSegment (s : jsstring) : CommentSegment :=
  mkSegment Ttext (Str s) None None None.

(** The no-match branch: the plain text joins a last segment of type
    ['text'] or becomes a new one.  Only this branch makes ['text']
    segments, and their content is a string. *)
Fixpoint pushText (segments : list CommentSegment) (plainText : jsstring)
  : list CommentSegment :=
  match segments with
  | [] => [textSegment plainText]
  | [lastSegment] =>
    match type lastSegment, content lastSegment with
    | Ttext, Str s =>
      [mkSegment Ttext (Str (s ++ plainText)) (url lastSegment)
                 (level lastSegment) (username lastSegment)]
    | _, _ => [lastSegment; textSegment plainText]
    end
  | s :: rest => s :: pushText rest plainText
  end.

(** One turn of the [while (text.length > 0)] loop on a non-empty [text]:
    the text and the segments it leaves.  [None] only when a nested
    [parseInline] ran out of fuel. *)
Definition inlineStep (parseInline : jsstring -> option (list CommentSegment))
           (text : jsstring) (segments : list CommentSegment)
  : option (jsstring * list CommentSegment) :=
  match firstMatch (inlineRules parseInline) text with
  | Some (rule, m) =>
    match r_process rule m with
    | None => None
    | Some processed =>
      Some (List.skipn (List.length (matched m)) text,
            segments ++ [build rule processed])
    end
  | None =>
    let nextTokenIndex := search nextTokenRegex text in
    let plainTextEnd :=
        match nextTokenIndex with
        | None => List.length text
        | Some i => i
        end in
    let plainText :=
        List.firstn (if Nat.ltb 0 plainTextEnd then plainTextEnd else 1) text in
    Some (List.skipn (List.length plainText) text, pushText segments plainText)
  end.

(** The loop; the nested calls of [parseInline] made by the rules take the
    fuel that is left. *)
Fixpoint inlineLoop (fuel : nat) (text : jsstring) (segments : list CommentSegment)
  : option (list CommentSegment) :=
  match fuel with
  | O => None
  | S fuel' =>
    match text with
    | [] => Some segments
    | _ :: _ =>
      match inlineStep (fun line => match line with
                                    | [] => Some []
                                    | _ :: _ => inlineLoop fuel' line []
                                    end) text segments with
      | None => None
      | Some (text', segments') => inlineLoop fuel' text' segments'
      end
    end
  end.

Definition parseInline_fuel (fuel : nat) (line : jsstring)
  : option (list CommentSegment) :=
  match line with
  | [] => Some []
  | _ :: _ => inlineLoop fuel line []
  end.

Definition parseInline (line : jsstring) : option (list CommentSegment) :=
  parseInline_fuel (S (List.length line)) line.

(** *** parseComment *)

Inductive Block :=
| Plain (s : jsstring)
| CodeBlock (content : jsstring)
| CenterBlock (content : jsstring)
| SpoilerBlock (content : list CommentSegment).

(** The [while ((match = multilineRegex.exec(remainingText)) !== null)]
    loop.  [reLastIndex] is [multilineRegex.lastIndex]. *)
Fixpoint splitLoop (parseComment : jsstring -> outcome (list CommentSegment))
         (fuel : nat) (remainingText : jsstring) (reLastIndex lastIndex : nat)
         (blocks : list Block) : outcome (list Block * nat) :=
  match fuel with
  | O => OutOfFuel
  | S fuel' =>
    match execG multilineRegex remainingText reLastIndex with
    | None => Ok (blocks, lastIndex)
    | Some m =>
      let blocks1 :=
          if Nat.ltb lastIndex (index m)
          then blocks ++ [Plain (substring lastIndex (index m) remainingText)]
          else blocks in
      blocks2 <-
        match group m 2, group m 4, group m 6 with
        | Some c, _, _ => Ok (blocks1 ++ [CodeBlock c])
        | None, Some c, _ => Ok (blocks1 ++ [CenterBlock c])
        | None, None, Some c =>
          segs <- parseComment c ; Ok (blocks1 ++ [SpoilerBlock segs])
        | None, None, None => Ok blocks1
        end ;
      let after := index m + List.length (matched m) in
      splitLoop parseComment fuel' remainingText after after blocks2
    end
  end.

Definition brSegment : CommentSegment := mkSegment Tbr (Str []) None None None.

Fixpoint firstLone (rules : list LoneRule) (line : jsstring)
  : option (LoneRule * MatchResult) :=
  match rules with
  | [] => None
  | rule :: rest =>
    match exec (l_regex rule) line with
    | Some m => Some (rule, m)
    | None => firstLone rest line
    end
  end.

(** The body of [for (let i = 0; i < lines.length; i++)] for one line;
    [more] is [i < lines.length - 1]. *)
Definition parseLine (line : jsstring) (more : bool) : option (list CommentSegment) :=
  let br := if more then [brSegment] else [] in
  match line, more with
  | [], true => Some [brSegment]
  | _, _ =>
    match firstLone (loneFormatterRules parseInline) (trim line) with
    | Some (rule, m) =>
      match l_process rule m with
      | None => None
      | Some segs => Some (mkSegment Tcenter (Segs segs) None None None :: br)
      end
    | None =>
      match firstMatch (lineStartRules parseInline) line with
      | Some (rule, m) =>
        match r_process rule m with
        | None => None
        | Some processed => Some (build rule processed :: br)
        end
      | None =>
        match line with
        | [] => Some br
        | _ :: _ =>
          match parseInline line with
          | None => None
          | Some segs => Some (segs ++ br)
          end
        end
      end
    end
  end.

Fixpoint parseLines (lines : list jsstring) : option (list CommentSegment) :=
  match lines with
  | [] => Some []
  | line :: rest =>
    match parseLine line (match rest with [] => false | _ :: _ => true end) with
    | None => None
    | Some here =>
      match parseLines rest with
      | None => None
      | Some there => Some (here ++ there)
      end
    end
  end.

(** The body of [for (const block of blocks)]. *)
Definition renderBlock (parseComment : jsstring -> outcome (list CommentSegment))
           (block : Block) : outcome (list CommentSegment) :=
  match block with
  | CenterBlock c =>
    segs <- parseComment c ; Ok [mkSegment Tcenter (Segs segs) None None None]
  | SpoilerBlock segs => Ok [mkSegment Tspoiler (Segs segs) None None None]
  | CodeBlock c => Ok [mkSegment Tcode_block (Str c) None None None]
  | Plain s => ofOption (parseLines (split s))
  end.

Fixpoint renderBlocks (parseComment : jsstring -> outcome (list CommentSegment))
         (blocks : list Block) : outcome (list CommentSegment) :=
  match blocks with
  | [] => Ok []
  | block :: rest =>
    here <- renderBlock parseComment block ;
    there <- renderBlocks parseComment rest ;
    Ok (here ++ there)
  end.

(** [decodeHtmlEntities(text.replace(/<br>/g, '\n'))] *)
Definition cleaned (text : jsstring) : outcome jsstring :=
  decodeHtmlEntities (replace brRegex (fun _ => [newline]) text).

(** The blocks of the cleaned text: the loop and the tail after it. *)
Definition splitBlocks (parseComment : jsstring -> outcome (list CommentSegment))
           (cleanedText : jsstring) : outcome (list Block) :=
  r <- splitLoop parseComment (S (List.length cleanedText)) cleanedText 0 0 [] ;
  let '(blocks, lastIndex) := r in
  Ok (if Nat.ltb lastIndex (List.length cleanedText)
      then blocks ++ [Plain (List.skipn lastIndex cleanedText)]
      else blocks).

Fixpoint parseComment_fuel (fuel : nat) (text : jsstring)
  : outcome (list CommentSegment) :=
  match fuel with
  | O => OutOfFuel
  | S fuel' =>
    cleanedText <- cleaned text ;
    blocks <- splitBlocks (parseComment_fuel fuel') cleanedText ;
    renderBlocks (parseComment_fuel fuel') blocks
  end.

Definition parseComment (text : jsstring) : outcome (list CommentSegment) :=
  parseComment_fuel (S (List.length text)) text.

(** *** Vocabulary of the properties *)

(** The characters without which no pattern of the parser matches: one of
    them occurs in every match of every pattern, and the newline splits
    lines. *)
Definition isTrigger (x : N) : bool :=
  oneOf "@[<(:*_~`#>-&" x || (x =? newline)%N.

Definition plainText (s : jsstring) : bool :=
  List.forallb (fun x => negb (isTrigger x)) s.



(** What one turn of the loop does: a rule matched and at least one code
    unit of the text went into its segment, or no rule matched and at
    least one code unit went into a ['text'] segment. *)
Definition turn (pi : jsstring -> option (list CommentSegment))
           (text : jsstring) (segments : list CommentSegment)
           (text' : jsstring) (segments' : list CommentSegment) : Prop :=
  (exists rule m processed,
      firstMatch (inlineRules pi) text = Some (rule, m) /\
      r_process rule m = Some processed /\
      1 <= List.length (matched m) /\
      text' = List.skipn (List.length (matched m)) text /\
      segments' = segments ++ [build rule processed]) \/
  (exists plain,
      firstMatch (inlineRules pi) text = None /\
      1 <= List.length plain /\
      text = plain ++ text' /\
      segments' = pushText segments plain).

(** A centered block still to be parsed holds less than the text. *)
Definition shortBlock (text : jsstring) (b : Block) : Prop :=
  match b with
  | CenterBlock c => List.length c < List.length text
  | _ => True
  end.




End Parser.

(* ===================================================================== *)
(** * Part II-b. Further handlers and helpers (definitions)               *)
(* ===================================================================== *)

Module TreeMore.
Import Tree.

(** *** handleEditComment with its [originalText]

    The callback of [list.map] in [findAndUpdateInTree] also assigns the
    variable [originalText] of the handler; the state is threaded through
    the traversal in the order [map] visits the nodes. *)
Fixpoint mapSt {A B S : Type} (f : A -> S -> B * S) (l : list A) (s : S)
  : list B * S :=
  match l with
  | [] => ([], s)
  | x :: r =>
    let (x', s1) := f x s in
    let (r', s2) := mapSt f r s1 in
    (x' :: r', s2)
  end.

Fixpoint editNodeSt (commentId : Z) (newText : jsstring) (c : ThreadComment)
         (originalText : jsstring) : ThreadComment * jsstring :=
  match c with
  | mkThreadComment i cm t n l u k o =>
    if (i =? commentId)%Z
    then (mkThreadComment i newText t n l u k o, cm)
    else match k with
         | Some cs =>
           let (cs', originalText') :=
               mapSt (editNodeSt commentId newText) cs originalText in
           (mkThreadComment i cm t n l u (Some cs') o, originalText')
         | None => (c, originalText)
         end
  end.

(** The optimistic step: [originalText] starts empty, then the tree handed to
    [comments.set] together with the [originalText] left behind. *)
Definition editOptimistic (comments : option (list ThreadComment))
           (commentId : Z) (newText : jsstring) : list ThreadComment * jsstring :=
  mapSt (editNodeSt commentId newText) (orEmpty comments) [].

(** [rollbackInTree] of the [catch] branch: the text of [findAndUpdateInTree]
    with [originalText] for [newText] and no assignment. *)
Definition rollbackInTree (commentId : Z) (originalText : jsstring)
           (list : list ThreadComment) :=
  List.map (editNode commentId originalText) list.

Definition editRollback (comments : option (list ThreadComment))
           (commentId : Z) (originalText : jsstring) :=
  rollbackInTree commentId originalText (orEmpty comments).

(** The number of nodes with id [x] that the traversal reaches: it does
    not look below a node it has matched. *)
Fixpoint reachedNode (x : Z) (c : ThreadComment) : nat :=
  match c with
  | mkThreadComment i _ _ _ _ _ k _ =>
    if (i =? x)%Z then 1
    else match k with
         | Some cs => List.list_sum (List.map (reachedNode x) cs)
         | None => 0
         end
  end.

Definition reached (x : Z) (l : list ThreadComment) : nat :=
  List.list_sum (List.map (reachedNode x) l).

(** The number of nodes of a forest. *)
Fixpoint sizeNode (c : ThreadComment) : nat :=
  match c with
  | mkThreadComment _ _ _ _ _ _ k _ =>
    S (match k with
       | Some cs => List.list_sum (List.map sizeNode cs)
       | None => 0
       end)
  end.

Definition size (l : list ThreadComment) : nat :=
  List.list_sum (List.map sizeNode l).

(** A forest with every comment text blanked. *)
Fixpoint blankNode (c : ThreadComment) : ThreadComment :=
  match c with
  | mkThreadComment i _ t n l u k o =>
    mkThreadComment i [] t n l u
      (match k with Some cs => Some (List.map blankNode cs) | None => None end) o
  end.

Definition blank (l : list ThreadComment) := List.map blankNode l.

(** What the traversal does to a forest that holds the id at most once:
    an untouched forest leaves [originalText] as it found it; otherwise
    [originalText] is the old text, and writing it back restores the forest. *)
Definition undoable (x : Z) (newText : jsstring) (l : list ThreadComment) : Prop :=
  (reached x l = 0 ->
   forall o, mapSt (editNodeSt x newText) l o = (l, o)) /\
  (reached x l = 1 ->
   exists l' o', (forall o, mapSt (editNodeSt x newText) l o = (l', o')) /\
                 List.map (editNode x o') l' = l).

(** *** fetchComments *)

(** [Array.prototype.sort] with a comparator: a stable sort, here by
    insertion from the right. *)
Fixpoint insertBy {A : Type} (cmp : A -> A -> Z) (x : A) (l : list A) : list A :=
  match l with
  | [] => [x]
  | y :: r => if (cmp x y <=? 0)%Z then x :: y :: r else y :: insertBy cmp x r
  end.

Definition sortBy {A : Type} (cmp : A -> A -> Z) (l : list A) : list A :=
  List.fold_right (insertBy cmp) [] l.

(** [a] may stand before [b] in an array sorted with [cmp]. *)
Definition before {A : Type} (cmp : A -> A -> Z) (a b : A) : Prop :=
  (cmp a b <= 0)%Z.

Inductive SortOrder := ID | ID_DESC.

(** [anilistApi.fetchComments]: every comment of the page gets
    [childComments: c.childComments || []]. *)
Definition parsePage (threadComments : option (list ThreadComment))
  : list ThreadComment :=
  List.map (fun c => with_childComments c (orEmpty (childComments c)))
           (orEmpty threadComments).

(** The value [fetchComments] hands to [comments.set] when the request
    succeeds; [comments] is what [comments.get()] returns then (it is read
    for a page above 1 only). *)
Definition fetchedComments (comments : option (list ThreadComment)) (page : Z)
           (sortOrder : SortOrder) (threadComments : option (list ThreadComment))
  : list ThreadComment :=
  let newComments := parsePage threadComments in
  let combinedComments :=
      if (1 <? page)%Z then orEmpty comments ++ newComments else newComments in
  match sortOrder with
  | ID_DESC => sortBy (fun a b => id b - id a)%Z combinedComments
  | ID => sortBy (fun a b => id a - id b)%Z combinedComments
  end.

End TreeMore.

(** ** The list of threads *)

Module Threads.
Import Tree.

(** [interface Thread]; [replyUser] carries a name only, [categories] is
    optional. *)
Record Thread := mkThread {
  t_id : Z;
  title : jsstring;
  body : jsstring;
  t_createdAt : Z;
  replyCount : Z;
  siteUrl : jsstring;
  isEpisode : bool;
  episodeNumber : N;
  t_user : User;
  replyUser : option jsstring;
  repliedAt : Z;
  viewCount : Z;
  categories : option (list jsstring)
}.

Definition GENERAL_DISCUSSIONS_PER_PAGE : nat := 20.

(** The five states that [fetchAndSeparateAllThreads] and the
    ['load-more-general-threads'] handler write. *)
Record ThreadLists := mkThreadLists {
  episodeDiscussions : list Thread;
  generalDiscussions : list Thread;
  displayedGeneralDiscussions : list Thread;
  generalDiscussionsPage : nat;
  generalDiscussionsHasNextPage : bool
}.

(** [a.slice(from, to)] for [from <= to]. *)
Definition slice {A : Type} (from to : nat) (a : list A) : list A :=
  List.firstn (to - from) (List.skipn from a).

(** The states after [fetchAndSeparateAllThreads] has read all pages into
    [allThreads] without an error. *)
Definition separate (allThreads : list Thread) : ThreadLists :=
  let epDiscussions := List.filter (fun t => isEpisode t) allThreads in
  let genDiscussions := List.filter (fun t => negb (isEpisode t)) allThreads in
  mkThreadLists epDiscussions genDiscussions
                (slice 0 GENERAL_DISCUSSIONS_PER_PAGE genDiscussions)
                1
                (Nat.ltb GENERAL_DISCUSSIONS_PER_PAGE (List.length genDiscussions)).

(** The ['load-more-general-threads'] handler. *)
Definition loadMore (s : ThreadLists) : ThreadLists :=
  let currentPage := generalDiscussionsPage s in
  let allGeneral := generalDiscussions s in
  let nextStartIndex := currentPage * GENERAL_DISCUSSIONS_PER_PAGE in
  let nextEndIndex := nextStartIndex + GENERAL_DISCUSSIONS_PER_PAGE in
  let newThreads := slice nextStartIndex nextEndIndex allGeneral in
  mkThreadLists (episodeDiscussions s) allGeneral
                (displayedGeneralDiscussions s ++ newThreads)
                (generalDiscussionsPage s + 1)
                (Nat.ltb nextEndIndex (List.length allGeneral)).

End Threads.

(** ** formatTimeAgo *)

Module TimeAgo.

(** A non-negative integer as JavaScript prints it. *)
Definition showZ (n : Z) : jsstring :=
  js (NilZero.string_of_uint (N.to_uint (Z.to_N n))).

(** [timestamp] is in seconds, [now] is [Date.now()], in milliseconds.
    The code computes with JavaScript numbers.  When [now],
    [timestamp * 1000] and their difference are safe integers
    ([Tree.safeInteger]), the product and the difference are exact, the
    rounding of a quotient [a / k] of integers never reaches the next
    integer, so [Math.floor(a / k)] is the integer quotient, and
    [seconds / k > 1] holds exactly when [seconds] is above [k]; the
    function below is the code on these inputs, and the statements about
    it are made for them. *)
Definition formatTimeAgo (timestamp now : Z) : jsstring :=
  if (timestamp =? 0)%Z then []
  else
    let seconds := ((now - timestamp * 1000) / 1000)%Z in
    if (seconds <? 30)%Z then js "just now"
    else if (31536000 <? seconds)%Z then showZ (seconds / 31536000) ++ js "y ago"
    else if (2592000 <? seconds)%Z then showZ (seconds / 2592000) ++ js "mo ago"
    else if (86400 <? seconds)%Z then showZ (seconds / 86400) ++ js "d ago"
    else if (3600 <? seconds)%Z then showZ (seconds / 3600) ++ js "h ago"
    else if (60 <? seconds)%Z then showZ (seconds / 60) ++ js "m ago"
    else showZ seconds ++ js "s ago".

(** The units of the answers, their lengths in seconds, their suffixes
    and the counts they are shown with. *)
Inductive unit_ := Seconds | Minutes | Hours | Days | Months | Years.

Definition unitSeconds (u : unit_) : Z :=
  match u with
  | Seconds => 1 | Minutes => 60 | Hours => 3600 | Days => 86400
  | Months => 2592000 | Years => 31536000
  end.

Definition suffix (u : unit_) : string :=
  match u with
  | Seconds => "s ago" | Minutes => "m ago" | Hours => "h ago"
  | Days => "d ago" | Months => "mo ago" | Years => "y ago"
  end.

Definition countRange (u : unit_) (n : Z) : Prop :=
  match u with
  | Seconds => (30 <= n <= 60)%Z
  | Minutes => (1 <= n <= 60)%Z
  | Hours => (1 <= n <= 24)%Z
  | Days => (1 <= n <= 30)%Z
  | Months => (1 <= n <= 12)%Z
  | Years => (1 <= n)%Z
  end.

End TimeAgo.

(** ** The formatting toolbar *)

Module Toolbar.

(** [selectionState]: the cursor positions and the selected text that the
    ['inputSelectionChange'] event reported. *)
Record Selection := mkSelection {
  start : nat;
  end_ : nat;
  text : jsstring
}.

(** [s.substring(a, b)]: the arguments are swapped when [a > b] and cut
    off at the length. *)
Definition substringOf (a b : nat) (s : jsstring) : jsstring :=
  List.firstn (Nat.max a b - Nat.min a b) (List.skipn (Nat.min a b) s).

Definition isNewline (o : option N) : bool :=
  match o with Some c => (c =? Parser.newline)%N | None => false end.

(** [applyFormatting]: the value handed to [fieldRef.setValue], or [None]
    when the handler returns after the toast.  [current] is
    [fieldRef.current]. *)
Definition applyFormatting (selection : option Selection) (current : option jsstring)
           (prefix suffix : jsstring) (isBlock : bool) : option jsstring :=
  let fullText := match current with Some s => s | None => [] end in
  match selection with
  | None => None
  | Some sel =>
    let prefix :=
        if isBlock && Nat.ltb 0 (start sel)
           && negb (isNewline (List.nth_error fullText (start sel - 1)))
        then Parser.newline :: prefix else prefix in
    let before := substringOf 0 (start sel) fullText in
    let selected := substringOf (start sel) (end_ sel) fullText in
    let after := List.skipn (end_ sel) fullText in
    Some (match selected with
          | _ :: _ => before ++ prefix ++ selected ++ suffix ++ after
          | [] => before ++ prefix ++ suffix ++ after
          end)
  end.

(** The text ends a line: it is empty or its last code unit is a newline. *)
Definition endsLine (s : jsstring) : Prop :=
  s = [] \/ exists s', s = s' ++ [Parser.newline].

End Toolbar.

(** ** What the renderer expects of a segment *)

Module Render.
Import Regex Parser.

(** [P] holds of a segment and of every segment below it. *)
Inductive Deep (P : CommentSegment -> Prop) : CommentSegment -> Prop :=
| deep s :
    P s ->
    (forall l, content s = Segs l -> List.Forall (Deep P) l) ->
    Deep P s.

(** The shape that the rules of the parser give the segments they make;
    [Deep] of it is the invariant of the parser. *)
Definition shaped (s : CommentSegment) : Prop :=
  match type s with
  | Ttext | Tinline_code => exists c r, content s = Str (c :: r)
  | Tcode_block | Timage | Thr | Tbr => exists x, content s = Str x
  | Tuser_link =>
    exists u, username s = Some u /\ content s = Str (64%N :: u) /\
              u <> [] /\ List.Forall (fun x => wordOrDash x = true) u
  | Tbold | Titalic | Tstrike | Tblockquote | Tcenter | Tspoiler =>
    exists l, content s = Segs l
  | Theading =>
    (exists l, content s = Segs l) /\
    exists n, level s = Some n /\ 1 <= n <= 5
  | Tlink => exists u, url s = Some u
  | Tyoutube | Tvideo => False
  end.

(** What [renderSegment] takes for granted in each case of its [switch]:
    a string where it writes [segment.content as string], an array where
    it writes [segment.content as CommentSegment[]], a url where it writes
    [segment.url!], a username where it builds the profile address.  The
    ['link'] case renders an array that is not empty
    ([Array.isArray(linkContent) && linkContent.length > 0]) and casts
    every other content to a string.  The cases ['hr'] and ['br'] do not
    read the segment, and a type without a case gets the [default]. *)
Definition castable (s : CommentSegment) : Prop :=
  match type s with
  | Ttext | Tinline_code | Tcode_block | Timage => exists x, content s = Str x
  | Tbold | Titalic | Tstrike | Theading | Tblockquote | Tcenter | Tspoiler =>
    exists l, content s = Segs l
  | Tlink =>
    (exists u, url s = Some u) /\
    ((exists x, content s = Str x) \/ (exists c r, content s = Segs (c :: r)))
  | Tuser_link => (exists x, content s = Str x) /\ (exists u, username s = Some u)
  | Thr | Tbr | Tyoutube | Tvideo => True
  end.

(** A ['link'] with a url whose content is the empty array: the one
    segment of the parser that [renderSegment] casts to what it is not. *)
Definition emptyLink (s : CommentSegment) : Prop :=
  type s = Tlink /\ content s = Segs [] /\ exists u, url s = Some u.

(** A segment as the parser shapes it that [renderSegment] casts
    rightly, or that is a link around nothing. *)
Definition renderable (s : CommentSegment) : Prop :=
  shaped s /\ (castable s \/ emptyLink s).

(** [<a href="u"></a>], an anchor around nothing. *)
Definition emptyAnchor : jsstring :=
  js "<a href=" ++ [dquote] ++ js "u" ++ [dquote] ++ js "></a>".

(** The blocks of a split whose spoilers are parsed well. *)
Definition goodBlock (b : Block) : Prop :=
  match b with
  | SpoilerBlock segs => List.Forall (Deep shaped) segs
  | _ => True
  end.

End Render.

(** ** Numeric character references *)

Module Decode.
Import Regex Parser.

(** [&#] and [;] as code units. *)
Definition amp : N := 38.
Definition hash : N := 35.
Definition semicolon : N := 59.

(** The text [&#d;]. *)
Definition reference (d : jsstring) : jsstring := js "&#" ++ d ++ [semicolon].

Definition has (c : N) (s : jsstring) : bool := List.existsb (N.eqb c) s.

(** A pattern without [^] does not look behind the current position. *)
Fixpoint noBol (r : regex) : bool :=
  match r with
  | Bol => false
  | Seq a b | Alt a b => noBol a && noBol b
  | Grp _ a => noBol a
  | _ => true
  end.

(** What a replacer callback sees of a match: not its index. *)
Definition seen (m : MatchResult) : jsstring * (nat -> option jsstring) :=
  (matched m, group m).

Definition forget (p : piece) : piece :=
  match p with
  | PChar c => PChar c
  | PMatch m => PMatch (mkMatch 0 (matched m) (group m))
  end.

End Decode.

(** ** Lone formatters *)

Module Lone.
Import Regex Parser.

(** The marks of [loneFormatterRules]. *)
Definition loneMarks : list jsstring :=
  [js "**"; js "__"; js "*"; js "_"; js "~~"].

Definition centered (segs : list CommentSegment) : CommentSegment :=
  mkSegment Tcenter (Segs segs) None None None.

End Lone.

(** ** Texts without references *)

Module Quiet.
Import Regex Parser Decode.

(** A block that is parsed again holds no [#]. *)
Definition quietBlock (b : Block) : Prop :=
  match b with
  | CenterBlock c => has hash c = false
  | _ => True
  end.

(** No capture holds a character of the class [t]. *)
Definition capsFree (t : N -> bool) (cs : caps) : Prop :=
  forall i u, cs i = Some u -> List.existsb t u = false.

End Quiet.

(** ** Lines *)

Module Lines.
Import Regex Parser.

(** [lines.join('\n')]. *)
Fixpoint joinLines (lines : list jsstring) : jsstring :=
  match lines with
  | [] => []
  | [line] => line
  | line :: rest => line ++ newline :: joinLines rest
  end.

(** The segments of a line of plain text, and of lines of plain text with
    a ['br'] segment for every newline between them. *)
Definition textOf (line : jsstring) : list CommentSegment :=
  match line with
  | [] => []
  | _ :: _ => [textSegment line]
  end.

Fixpoint plainLines (lines : list jsstring) : list CommentSegment :=
  match lines with
  | [] => []
  | [line] => textOf line
  | line :: rest => textOf line ++ brSegment :: plainLines rest
  end.

End Lines.

(** ** Formatters inside a line *)

Module Inline.
Import Regex Parser.

(** *** What a pattern cannot match before a mark

    Four more bounds read off a pattern.  [lacks k]: no match holds the
    code unit [k].  [empty]: only the empty word matches.  [opens]: every
    match starts with a trigger character.  [reaches k]: every match holds
    a trigger character other than [k] with no [k] before it. *)
Fixpoint lacks (k : N) (r : regex) : bool :=
  match r with
  | Chr c => negb (canon c =? k)%N && negb (c =? k)%N
  | Cls p => negb (p k)
  | Many _ _ _ p => negb (p k)
  | Seq a b | Alt a b => lacks k a && lacks k b
  | Grp _ a => lacks k a
  | Eps | Bol | Eol => true
  end.

Fixpoint empty (r : regex) : bool :=
  match r with
  | Eps | Bol | Eol => true
  | Seq a b | Alt a b => empty a && empty b
  | Grp _ a => empty a
  | _ => false
  end.

Fixpoint opens (r : regex) : bool :=
  match r with
  | Chr c => isTrigger c && negb (isLetter c)
  | Seq a b => opens a || (empty a && opens b)
  | Alt a b => opens a && opens b
  | Grp _ a => opens a
  | _ => false
  end.

Fixpoint reaches (k : N) (r : regex) : bool :=
  match r with
  | Chr c => isTrigger c && negb (isLetter c) && negb (c =? k)%N
  | Seq a b => reaches k a || (lacks k a && reaches k b)
  | Alt a b => reaches k a && reaches k b
  | Grp _ a => reaches k a
  | _ => false
  end.

(** Every alternative opens with a trigger or reaches one before [k]: the
    pattern has no match that starts in plain text and runs into a [k]
    that ends the plain text. *)
Fixpoint blocked (k : N) (r : regex) : bool :=
  match r with
  | Alt a b => blocked k a && blocked k b
  | Grp _ a => blocked k a
  | _ => opens r || reaches k r
  end.

(** Every alternative starts with [^]. *)
Fixpoint anchored (r : regex) : bool :=
  match r with
  | Seq Bol _ => true
  | Alt a b => anchored a && anchored b
  | Grp _ a => anchored a
  | _ => false
  end.

(** What makes a rule miss the plain text in front of a mark. *)
Definition misses (k : N) (R : Regex) : bool :=
  anchored (re R) && negb (multiline R) && blocked k (re R).

(** The shapes of a match of a blocked pattern. *)
Definition opensWith (w : list N) : Prop :=
  exists c v, w = c :: v /\ isTrigger c = true.

Definition reachesPast (k : N) (w : list N) : Prop :=
  exists u c v, w = u ++ c :: v /\
                List.existsb (fun x => (x =? k)%N) u = false /\
                isTrigger c = true /\ c <> k.

(** *** The inline formatters *)

(** The marks of the bold and italic rules of [inlineRules] with the type
    of their segment. *)
Definition inlineMarks : list (jsstring * SegType) :=
  [(js "**", Tbold); (js "__", Tbold); (js "*", Titalic); (js "_", Titalic)].

(** A formatter segment around one ['text'] segment. *)
Definition wrapped (ty : SegType) (s : jsstring) : CommentSegment :=
  mkSegment ty (Segs [textSegment s]) None None None.

End Inline.

(** ** Lines that start a block *)

Module LineStart.
Import Regex Parser.

(** [n] times [#]. *)
Definition hashes (n : nat) : jsstring := List.repeat 35%N n.

(** White space inside a line. *)
Definition spaces (ws : jsstring) : bool :=
  List.forallb (fun x => isSpace x && negb (x =? newline)%N) ws.

(** The text of a heading or a quote: the rest of the line, which [.]
    matches to its end, without white space in front. *)
Definition restOfLine (s : jsstring) : bool :=
  plainText s && List.forallb dot s &&
  match s with c :: _ => negb (isSpace c) | [] => true end.

End LineStart.

(** ** Blocks that are parsed again *)

Module Blocks.
Import Regex Parser.

Definition spoiler (segs : list CommentSegment) : CommentSegment :=
  mkSegment Tspoiler (Segs segs) None None None.

End Blocks.

(** ** The episode number of a thread *)

Module Episode.
Import Regex Parser.
Local Open Scope regex_scope.

(** [/(?:Episode|Ep\.?)\s*(\d+)/i] of [fetchThreadsPage] and
    [handleSaveThread]. *)
Definition episodeRegex : Regex :=
  mkRegex ((lit "Episode" <|> (lit "Ep" ;; opt (oneOf "."))) ;;
           star isSpace ;; Grp 1 (plus isDigit)) true false.

(** [match ? parseInt(match[1], 10) : 0]; the number is exact as long as
    a JavaScript number holds it exactly. *)
Definition episodeNumber (title : jsstring) : N :=
  match exec episodeRegex title with
  | Some m => parseInt (grp m 1)
  | None => 0%N
  end.

(** [!!episodeMatch], the [isEpisode] of a thread just saved. *)
Definition savedIsEpisode (title : jsstring) : bool :=
  match exec episodeRegex title with
  | Some _ => true
  | None => false
  end.

(** [w] is [word] up to the case of its letters. *)
Definition spells (w : jsstring) (word : string) : Prop :=
  List.Forall2 (fun x c => sameChar true x c = true) w (js word).

(** A title in which no [e] or [E] stands before the word. *)
Definition noE (pre : jsstring) : bool :=
  negb (List.existsb (fun x => (x =? 101)%N || (x =? 69)%N) pre).

Definition noDigit (s : jsstring) : bool :=
  negb (List.existsb isDigit s).

(** The number ends where [post] starts. *)
Definition endsNumber (post : jsstring) : bool :=
  match post with
  | c :: _ => negb (isDigit c)
  | [] => true
  end.

(** [w] is one of the ways to write the word: [Episode], [Ep] or [Ep.],
    in any case. *)
Definition episodeWord (w : jsstring) : Prop :=
  spells w "Episode" \/ spells w "Ep" \/ spells w "Ep.".

End Episode.

(** ** Mentions and links inside a line *)

Module Tokens.
Import Regex Parser.

(** A text that the steps before the inline loop leave alone: no [<], [#],
    backtick, [~] or newline. *)
Definition calm (s : jsstring) : bool :=
  List.forallb (fun x => negb (oneOf "<#`~" x) && negb (x =? newline)%N) s.

(** The first character of a line that is neither white space nor the
    first character of a lone formatter or of a line-start rule. *)
Definition inlineHead (c : N) : bool :=
  negb (isSpace c) && negb (oneOf "*_~#>-" c).

(** The text in front of a token: nothing, or plain text that starts with
    such a character. *)
Definition front (pre : jsstring) : bool :=
  plainText pre &&
  match pre with c :: _ => negb (isSpace c) | [] => true end.

(** A user name ends where [post] starts. *)
Definition endsName (post : jsstring) : bool :=
  match post with
  | c :: _ => negb (wordOrDash c)
  | [] => true
  end.

Definition userLink (u : jsstring) : CommentSegment :=
  mkSegment Tuser_link (Str (64%N :: u)) None None (Some u).

Definition labelledLink (label url : jsstring) : CommentSegment :=
  mkSegment Tlink (Str label) (Some url) None None.

Definition imageOf (url : jsstring) : CommentSegment :=
  mkSegment Timage (Str url) None None None.

(** [http://] or [https://]. *)
Definition scheme (secure : bool) : jsstring :=
  js "http" ++ (if secure then js "s" else []) ++ js "://".

(** An address ends where [post] starts. *)
Definition endsUrl (post : jsstring) : bool :=
  match post with
  | c :: _ => negb (urlChar c)
  | [] => true
  end.

End Tokens.

(** ** Code blocks taken as they stand *)

Module Verbatim.
Import Regex Parser Render.










End Verbatim.

(* ===================================================================== *)
(** * Part III. The comment tree (properties)                             *)
(* ===================================================================== *)

Module TreeFacts.
Import Tree.

Lemma map_fixed (f : ThreadComment -> ThreadComment) (l : list ThreadComment) :
  Forall (fun c => f c = c) l -> List.map f l = l.
Proof.
  induction 1 as [|c r Hc _ IH]; simpl; [reflexivity|].
  now rewrite Hc, IH.
Qed.

Lemma removeKids_children x i cm t n l u cs o :
  removeKids x (mkThreadComment i cm t n l u (Some cs) o)
  = mkThreadComment i cm t n l u (Some (removeInTree x cs)) o.
Proof.
  unfold removeInTree. simpl. do 2 f_equal.
  induction cs as [|c r IH]; simpl; [reflexivity|].
  destruct (id c =? x)%Z; simpl; now rewrite IH.
Qed.

Lemma toggleNode_id x c : id (toggleNode x c) = id c.
Proof.
  destruct c as [i cm t n l u k o]; simpl.
  destruct (i =? x)%Z; [reflexivity|]. now destruct k.
Qed.

Lemma toggleNode_twice x c : toggleNode x (toggleNode x c) = c.
Proof.
  induction c as [i cm t n l u k o IH] using comment_ind.
  simpl. destruct (i =? x)%Z eqn:E.
  - simpl. rewrite E. f_equal.
    + destruct l; simpl; lia.
    + apply negb_involutive.
  - destruct k as [cs|]; simpl; rewrite E; [|reflexivity].
    do 2 f_equal. rewrite List.map_map. now apply map_fixed.
Qed.

(** ** Ids that occur nowhere *)

Lemma hasId_cons x c l :
  hasId x (c :: l) = false -> nodeHasId x c = false /\ hasId x l = false.
Proof. unfold hasId; simpl. apply orb_false_elim. Qed.

Lemma filter_keeps_all x (l : list ThreadComment) :
  hasId x l = false ->
  List.filter (fun c => negb (id c =? x)%Z) l = l.
Proof.
  induction l as [|c r IH]; simpl; [reflexivity|].
  intros H. apply hasId_cons in H. destruct H as [Hc Hr].
  destruct c as [i cm t n b u k o]; simpl in *.
  apply orb_false_elim in Hc. destruct Hc as [Hi _].
  rewrite Hi. simpl. now rewrite IH.
Qed.

Lemma absent_nodes_fixed (f : ThreadComment -> ThreadComment) x l :
  Forall (fun c => nodeHasId x c = false -> f c = c) l ->
  hasId x l = false -> List.map f l = l.
Proof.
  induction 1 as [|c r Hc _ IH]; simpl; [reflexivity|].
  intros H. apply hasId_cons in H. destruct H as [H1 H2].
  now rewrite Hc, IH.
Qed.

Lemma toggleNode_absent x c : nodeHasId x c = false -> toggleNode x c = c.
Proof.
  induction c as [i cm t n l u k o IH] using comment_ind.
  simpl. intros H. apply orb_false_elim in H. destruct H as [Hi Hk].
  rewrite Hi. destruct k as [cs|]; [|reflexivity].
  do 2 f_equal. now apply absent_nodes_fixed with (x := x).
Qed.

Lemma editNode_absent x txt c : nodeHasId x c = false -> editNode x txt c = c.
Proof.
  induction c as [i cm t n l u k o IH] using comment_ind.
  simpl. intros H. apply orb_false_elim in H. destruct H as [Hi Hk].
  rewrite Hi. destruct k as [cs|]; [|reflexivity].
  do 2 f_equal. now apply absent_nodes_fixed with (x := x).
Qed.

Lemma removeKids_absent x c : nodeHasId x c = false -> removeKids x c = c.
Proof.
  induction c as [i cm t n l u k o IH] using comment_ind.
  intros H. simpl in H. apply orb_false_elim in H. destruct H as [Hi Hk].
  destruct k as [cs|]; [|reflexivity].
  rewrite removeKids_children. do 2 f_equal.
  unfold removeInTree. rewrite filter_keeps_all by exact Hk.
  now apply absent_nodes_fixed with (x := x).
Qed.

Lemma removeInTree_absent x l : hasId x l = false -> removeInTree x l = l.
Proof.
  intros H. unfold removeInTree. rewrite filter_keeps_all by exact H.
  apply absent_nodes_fixed with (x := x); [|exact H].
  apply Forall_forall. intros c _. apply removeKids_absent.
Qed.

(** ** Like toggle *)

Lemma inRange_spec lo hi n : inRange lo hi n = true <-> (lo <= n <= hi)%Z.
Proof.
  unfold inRange. rewrite andb_true_iff, !Z.leb_le. reflexivity.
Qed.

Lemma likesInNode_wider lo hi lo' hi' c :
  (lo' <= lo)%Z -> (hi <= hi')%Z ->
  likesInNode lo hi c = true -> likesInNode lo' hi' c = true.
Proof.
  intros Hlo Hhi.
  induction c as [i cm t n l u k o IH] using comment_ind.
  cbn [likesInNode]. rewrite !andb_true_iff, !inRange_spec.
  intros [Hn Hk]. split; [lia|].
  destruct k as [cs|]; [|reflexivity]. cbn [orEmpty] in IH.
  rewrite List.forallb_forall in *. rewrite List.Forall_forall in IH.
  intros c Hc. exact (IH c Hc (Hk c Hc)).
Qed.

(** One toggle of safe counts leaves counts that a number holds. *)
Lemma toggleNode_exact x c :
  likesInNode (1 - maxExact) (maxExact - 1) c = true ->
  likesInNode (- maxExact) maxExact (toggleNode x c) = true.
Proof.
  induction c as [i cm t n l u k o IH] using comment_ind.
  cbn [likesInNode toggleNode]. rewrite andb_true_iff, inRange_spec.
  intros [Hn Hk].
  destruct (i =? x)%Z.
  - cbn [likesInNode]. rewrite andb_true_iff, inRange_spec.
    split; [destruct l; lia|].
    destruct k as [cs|]; [|reflexivity].
    rewrite List.forallb_forall in *. intros c Hc.
    apply (likesInNode_wider (1 - maxExact) (maxExact - 1)); [lia|lia|].
    exact (Hk c Hc).
  - destruct k as [cs|]; cbn [likesInNode]; rewrite andb_true_iff, inRange_spec;
      (split; [lia|]); [|reflexivity].
    cbn [orEmpty] in IH. rewrite List.Forall_forall in IH.
    rewrite List.forallb_forall in *. intros c' Hc'.
    apply List.in_map_iff in Hc'. destruct Hc' as (c & <- & Hc).
    exact (IH c Hc (Hk c Hc)).
Qed.

(** C3. On a forest whose like counts are safe integers, toggling the
    same id twice gives back the forest it started from, so the node at
    every path has its [likeCount] and [isLiked] (and all the rest) again;
    in between every like count is still an integer that a number holds,
    so each of the two sums was exact.  On the one comment
    [{id:1, likeCount:3, isLiked:false}] the first toggle gives
    [{likeCount:4, isLiked:true}], the second [{likeCount:3, isLiked:false}]. *)
Theorem toggleLike_twice_restores (x : Z) (t : list ThreadComment) :
  safeLikes t = true ->
  updateCommentInTree x (updateCommentInTree x t) = t /\
  (forall path : list nat,
      nodeAt path (updateCommentInTree x (updateCommentInTree x t))
      = nodeAt path t) /\
  exactLikes (updateCommentInTree x t) = true /\
  (forall cm ts u k o,
      let c3 := mkThreadComment 1 cm ts 3 false u k o in
      let c4 := mkThreadComment 1 cm ts 4 true u k o in
      updateCommentInTree 1 [c3] = [c4] /\ updateCommentInTree 1 [c4] = [c3]).
Proof.
  intros Hs.
  assert (H : updateCommentInTree x (updateCommentInTree x t) = t).
  { unfold updateCommentInTree. rewrite List.map_map.
    apply map_fixed. apply Forall_forall. intros c _. apply toggleNode_twice. }
  split; [exact H|]. split; [|split].
  - intros path. now rewrite H.
  - unfold exactLikes, safeLikes, updateCommentInTree in *.
    rewrite List.forallb_forall in Hs. apply List.forallb_forall.
    intros c' Hc'. apply List.in_map_iff in Hc'.
    destruct Hc' as (c & <- & Hc). apply toggleNode_exact. exact (Hs c Hc).
  - intros cm ts u k o. split; reflexivity.
Qed.

Lemma toggleLike_twice_restores_witness :
  let t := [mkThreadComment 1 (js "one") 1700000000 9007199254740991 false
                            (mkUser (js "ann") (js "a.png"))
                            (Some [leaf 2 "two" None]) None;
            leaf 3 "three" (Some [])] in
  updateCommentInTree 1 (updateCommentInTree 1 t) = t /\
  exactLikes (updateCommentInTree 1 t) = true.
Proof.
  intro t.
  destruct (toggleLike_twice_restores 1 t eq_refl) as (H & _ & E & _).
  split; [exact H|exact E].
Defined.

(** ** Operations keyed by an id that no node carries *)

(** C10. When no node of the forest carries the id, the like toggle, the
    edit and the delete each return the forest unchanged. *)
Theorem absent_id_is_noop (x : Z) (newText : jsstring) (t : list ThreadComment) :
  hasId x t = false ->
  updateCommentInTree x t = t /\
  findAndUpdateInTree x newText t = t /\
  removeCommentFromTree x t = t.
Proof.
  intros H. repeat split.
  - apply absent_nodes_fixed with (x := x); [|exact H].
    apply Forall_forall. intros c _. apply toggleNode_absent.
  - apply absent_nodes_fixed with (x := x); [|exact H].
    apply Forall_forall. intros c _. apply editNode_absent.
  - now apply removeInTree_absent.
Qed.

Lemma absent_id_is_noop_witness :
  let t := [leaf 1 "one" (Some [leaf 2 "two" None]); leaf 3 "three" (Some [])] in
  updateCommentInTree 7 t = t /\
  findAndUpdateInTree 7 (js "new") t = t /\
  removeCommentFromTree 7 t = t.
Proof.
  intro t. apply (absent_id_is_noop 7 (js "new") t). reflexivity.
Defined.

(** ** Reply insertion and its rollback *)

Lemma addReplyNode_id nc p c : id (addReplyNode nc p c) = id c.
Proof.
  destruct c as [i cm t n l u k o]; simpl.
  destruct (i =? p)%Z; [reflexivity|]. now destruct k.
Qed.

Lemma removeInTree_app x l1 l2 :
  removeInTree x (l1 ++ l2) = removeInTree x l1 ++ removeInTree x l2.
Proof. unfold removeInTree. now rewrite List.filter_app, List.map_app. Qed.

Lemma removeInTree_cons_same x c l :
  id c = x -> removeInTree x (c :: l) = removeInTree x l.
Proof.
  intros E. unfold removeInTree. simpl. rewrite E, Z.eqb_refl. reflexivity.
Qed.

Lemma removeInTree_cons_other x c l :
  (id c =? x)%Z = false ->
  removeInTree x (c :: l) = removeKids x c :: removeInTree x l.
Proof. intros E. unfold removeInTree. simpl. rewrite E. reflexivity. Qed.

Lemma nodeHasId_head x c : nodeHasId x c = false -> (id c =? x)%Z = false.
Proof.
  destruct c as [i cm t n l u k o]; simpl. intros H.
  now apply orb_false_elim in H.
Qed.

Lemma rollback_list nc p x l :
  Forall (fun c => nodeHasId x c = false ->
                   removeKids x (addReplyNode nc p c) = fillNode p c) l ->
  hasId x l = false ->
  removeInTree x (List.map (addReplyNode nc p) l) = List.map (fillNode p) l.
Proof.
  induction 1 as [|c r Hc _ IH]; simpl; [reflexivity|].
  intros H. apply hasId_cons in H. destruct H as [H1 H2].
  rewrite removeInTree_cons_other.
  - now rewrite Hc, IH.
  - rewrite addReplyNode_id. now apply nodeHasId_head.
Qed.

Lemma rollback_node nc p x c :
  id nc = x -> nodeHasId x c = false ->
  removeKids x (addReplyNode nc p c) = fillNode p c.
Proof.
  intros Hnc.
  induction c as [i cm t n l u k o IH] using comment_ind.
  intros H. simpl in H. apply orb_false_elim in H. destruct H as [Hi Hk].
  simpl. destruct (i =? p)%Z.
  - rewrite removeKids_children, removeInTree_app.
    rewrite (removeInTree_cons_same x nc [] Hnc). unfold removeInTree at 2. simpl.
    rewrite List.app_nil_r. do 2 f_equal.
    apply removeInTree_absent. now destruct k.
  - destruct k as [cs|]; [|reflexivity].
    rewrite removeKids_children. do 2 f_equal.
    now apply rollback_list.
Qed.

Lemma fillNode_norm p c : normNode (fillNode p c) = normNode c.
Proof.
  induction c as [i cm t n l u k o IH] using comment_ind.
  simpl. destruct (i =? p)%Z.
  - now destruct k.
  - destruct k as [cs|]; [|reflexivity]. simpl. do 2 f_equal.
    rewrite List.map_map. simpl in IH.
    induction IH as [|c r Hc _ IHr]; simpl; [reflexivity|].
    now rewrite Hc, IHr.
Qed.

Lemma fillNode_fixed p c : nodeLacksKids p c = false -> fillNode p c = c.
Proof.
  induction c as [i cm t n l u k o IH] using comment_ind.
  simpl. destruct k as [cs|].
  - intros H. destruct (i =? p)%Z; [reflexivity|]. do 2 f_equal.
    simpl in IH. induction IH as [|c r Hc _ IHr]; simpl; [reflexivity|].
    simpl in H. apply orb_false_elim in H. destruct H as [H1 H2].
    now rewrite Hc, IHr.
  - now intros ->.
Qed.

Lemma rollback_forest nc parentCommentId x t :
  id nc = x -> hasId x t = false ->
  postReplyRollback x (Some (postReplyOptimistic (Some t) parentCommentId nc))
  = fillParent parentCommentId t.
Proof.
  intros Hnc Hx. unfold postReplyRollback, postReplyOptimistic, fillParent.
  cbn [orEmpty].
  assert (Hpre : removeInTree x (nc :: t) = t).
  { rewrite (removeInTree_cons_same x nc t Hnc). now apply removeInTree_absent. }
  destruct parentCommentId as [p|]; [|exact Hpre].
  destruct (truthy (Some p)); [|exact Hpre].
  apply rollback_list; [|exact Hx].
  apply Forall_forall. intros c _. now apply rollback_node.
Qed.

(** C4 (amended). When no node carries the placeholder id, the optimistic
    insertion followed by the rollback gives the forest back with an empty
    [childComments] array on a parent that had none: the two forests are
    equal once an absent array is read as an empty one, and they are equal
    outright when every node with the parent's id had an array. *)
Theorem addReply_rollback (t : list ThreadComment) (parentCommentId : option Z)
        (temporaryId : Z) (text : jsstring) (now : Z) (me : User) :
  hasId temporaryId t = false ->
  let t' := postReplyRollback temporaryId
              (Some (postReplyOptimistic (Some t) parentCommentId
                                         (newComment temporaryId text now me))) in
  t' = fillParent parentCommentId t /\
  norm t' = norm t /\
  (parentLacksKids parentCommentId t = false -> t' = t).
Proof.
  intros Hx t'. subst t'.
  rewrite (rollback_forest (newComment temporaryId text now me) parentCommentId
                           temporaryId t eq_refl Hx).
  split; [reflexivity|]. unfold fillParent, parentLacksKids.
  destruct parentCommentId as [p|]; [|now split].
  destruct (truthy (Some p)); [|now split]. split.
  - unfold norm. rewrite List.map_map. apply List.map_ext.
    intros c. apply fillNode_norm.
  - simpl. intros H. apply map_fixed.
    unfold lacksKids in H. induction t as [|c r IH]; constructor.
    + simpl in H. apply orb_false_elim in H. now apply fillNode_fixed.
    + simpl in H, Hx. apply orb_false_elim in H. apply hasId_cons in Hx.
      now apply IH.
Qed.

Lemma addReply_rollback_witness :
  let t := [leaf 1 "one" (Some [leaf 2 "two" None]); leaf 3 "three" (Some [])] in
  let t' := postReplyRollback 99
              (Some (postReplyOptimistic (Some t) (Some 1%Z)
                                         (newComment 99 (js "hi") 1700000000123
                                                     (mkUser (js "bob") (js "b.png"))))) in
  t' = fillParent (Some 1%Z) t /\ norm t' = norm t /\
  (parentLacksKids (Some 1%Z) t = false -> t' = t).
Proof.
  intro t.
  apply (addReply_rollback t (Some 1%Z) 99 (js "hi") 1700000000123
                            (mkUser (js "bob") (js "b.png"))).
  reflexivity.
Defined.

(** C4 as stated fails: a reply to a comment without a [childComments]
    array leaves, after the rollback, that comment with an empty array. *)
Lemma addReply_rollback_counterexample :
  let t := [leaf 1 "one" None] in
  hasId 99 t = false /\
  postReplyRollback 99
    (Some (postReplyOptimistic (Some t) (Some 1%Z)
                               (newComment 99 (js "hi") 1700000000123
                                           (mkUser (js "bob") (js "b.png")))))
  = [leaf 1 "one" (Some [])] /\
  [leaf 1 "one" (Some [])] <> t.
Proof.
  simpl. split; [reflexivity|]. split; [reflexivity|]. discriminate.
Qed.

(** ** Paths *)













(** ** Where a reply is placed *)










End TreeFacts.

(* ===================================================================== *)
(** * Part IV. The matcher (properties)                                   *)
(* ===================================================================== *)

Module RegexFacts.
Import Regex.

Lemma firstn_consumed (w aft : list N) :
  List.firstn (List.length (w ++ aft) - List.length aft) (w ++ aft) = w.
Proof.
  rewrite List.length_app.
  replace (List.length w + List.length aft - List.length aft)
    with (List.length w + 0) by lia.
  rewrite List.firstn_app_2. simpl. apply List.app_nil_r.
Qed.

(** ** The matcher only finds matches *)

Lemma many_sound (A : Type) g p (k : list N -> list N -> option A) :
  forall aft lo hi bef a,
    many g lo hi p k bef aft = Some a ->
    exists w aft',
      aft = w ++ aft' /\
      List.Forall (fun x => p x = true) w /\
      lo <= List.length w /\
      (forall h, hi = Some h -> List.length w <= h) /\
      k (List.rev w ++ bef) aft' = Some a.
Proof.
  assert (Hstop : forall aft hi bef a,
             k bef aft = Some a ->
             exists w aft',
               aft = w ++ aft' /\ List.Forall (fun x => p x = true) w /\
               0 <= List.length w /\
               (forall h, hi = Some h -> List.length w <= h) /\
               k (List.rev w ++ bef) aft' = Some a).
  { intros aft hi bef a H. exists [], aft. simpl.
    repeat split; auto; intros; lia. }
  assert (Hmore : forall x aft lo hi bef a,
             (forall lo hi bef a,
                 many g lo hi p k bef aft = Some a ->
                 exists w aft',
                   aft = w ++ aft' /\ List.Forall (fun x => p x = true) w /\
                   lo <= List.length w /\
                   (forall h, hi = Some h -> List.length w <= h) /\
                   k (List.rev w ++ bef) aft' = Some a) ->
             (if p x && canTake hi
              then many g (pred lo) (option_map pred hi) p k (x :: bef) aft
              else None) = Some a ->
             exists w aft',
               x :: aft = w ++ aft' /\ List.Forall (fun x => p x = true) w /\
               lo <= List.length w /\
               (forall h, hi = Some h -> List.length w <= h) /\
               k (List.rev w ++ bef) aft' = Some a).
  { intros x aft lo hi bef a IH H.
    destruct (p x) eqn:Hp; [|discriminate].
    destruct (canTake hi) eqn:Hc; [|discriminate]. simpl in H.
    apply IH in H. destruct H as (w & aft' & -> & Hw & Hlo & Hhi & Hk).
    exists (x :: w), aft'. simpl. rewrite <- List.app_assoc. simpl.
    repeat split; auto; try lia.
    intros h ->. destruct h as [|h]; [discriminate|].
    specialize (Hhi h eq_refl). lia. }
  induction aft as [|x aft IH]; intros lo hi bef a H.
  - destruct lo as [|lo]; simpl in H.
    + destruct g; apply Hstop; [exact H|].
      destruct (k bef []); congruence.
    + discriminate.
  - destruct lo as [|lo]; cbn [many] in H.
    + destruct g.
      * match type of H with
        | match ?m with _ => _ end = _ => destruct m as [a'|] eqn:E
        end.
        -- injection H as ->. now apply (Hmore x aft 0 hi bef a IH).
        -- now apply Hstop.
      * destruct (k bef (x :: aft)) as [a'|] eqn:E.
        -- injection H as ->. now apply Hstop.
        -- now apply (Hmore x aft 0 hi bef a IH).
    + now apply (Hmore x aft (S lo) hi bef a IH).
Qed.

Lemma run_sound ic ml (A : Type) :
  forall r bef aft cs (k : list N -> list N -> caps -> option A) a,
    run ic ml r bef aft cs k = Some a ->
    exists w aft' cs',
      aft = w ++ aft' /\
      Matches ic ml r bef w aft' cs cs' /\
      k (List.rev w ++ bef) aft' cs' = Some a.
Proof.
  induction r as [|c|p| | |r1 IH1 r2 IH2|r1 IH1 r2 IH2|g lo hi p|i r IH];
    intros bef aft cs k a H; simpl in H.
  - exists [], aft, cs. repeat split; [constructor|exact H].
  - destruct aft as [|x aft]; [discriminate|].
    destruct (sameChar ic x c) eqn:E; [|discriminate].
    exists [x], aft, cs. repeat split; [now constructor|exact H].
  - destruct aft as [|x aft]; [discriminate|].
    destruct (p x) eqn:E; [|discriminate].
    exists [x], aft, cs. repeat split; [now constructor|exact H].
  - destruct (atLineStart ml bef) eqn:E; [|discriminate].
    exists [], aft, cs. repeat split; [now constructor|exact H].
  - destruct (atLineEnd ml aft) eqn:E; [|discriminate].
    exists [], aft, cs. repeat split; [now constructor|exact H].
  - apply IH1 in H. destruct H as (w1 & aft1 & cs1 & -> & M1 & H).
    apply IH2 in H. destruct H as (w2 & aft2 & cs2 & -> & M2 & H).
    exists (w1 ++ w2), aft2, cs2. rewrite <- List.app_assoc.
    split; [reflexivity|]. split; [econstructor; eassumption|].
    now rewrite List.rev_app_distr, <- List.app_assoc.
  - destruct (run ic ml r1 bef aft cs k) as [a'|] eqn:E.
    + injection H as ->. apply IH1 in E.
      destruct E as (w & aft' & cs' & -> & M & E).
      exists w, aft', cs'. repeat split; [now apply M_AltL|exact E].
    + apply IH2 in H. destruct H as (w & aft' & cs' & -> & M & H).
      exists w, aft', cs'. repeat split; [now apply M_AltR|exact H].
  - apply many_sound in H. destruct H as (w & aft' & -> & Hw & Hlo & Hhi & H).
    exists w, aft', cs. repeat split; [now constructor|exact H].
  - apply IH in H. destruct H as (w & aft' & cs' & -> & M & H).
    rewrite firstn_consumed in H.
    exists w, aft', (setCap i w cs'). repeat split; [now constructor|exact H].
Qed.

(** ** What the bounds read off a pattern say about its matches *)

Lemma sameChar_nonletter ic x c :
  isLetter c = false -> sameChar ic x c = true -> x = c.
Proof.
  unfold sameChar, canon, isLetter, isLower, isUpper, within.
  intros Hc H. apply orb_false_elim in Hc. destruct Hc as [Hl Hu].
  destruct ic; [|now apply N.eqb_eq].
  rewrite Hl in H.
  destruct ((97 <=? x)%N && (x <=? 122)%N) eqn:Hx; apply N.eqb_eq in H.
  - apply andb_true_iff in Hx. destruct Hx as [H1 H2].
    apply N.leb_le in H1, H2.
    apply andb_false_iff in Hu.
    destruct Hu as [Hu|Hu]; apply N.leb_gt in Hu; lia.
  - exact H.
Qed.

Lemma needs_sound ic ml t r bef w aft cs cs' :
  Matches ic ml r bef w aft cs cs' ->
  needs t r = true -> List.existsb t w = true.
Proof.
  induction 1; simpl; intros Hn; try discriminate.
  - apply andb_true_iff in Hn. destruct Hn as [Ht Hl].
    apply negb_true_iff in Hl.
    rewrite (sameChar_nonletter ic x c Hl H), Ht. reflexivity.
  - rewrite List.existsb_app. apply orb_true_iff in Hn.
    destruct Hn as [Hn|Hn]; [rewrite IHMatches1|rewrite IHMatches2]; auto.
    apply orb_true_r.
  - apply andb_true_iff in Hn. tauto.
  - apply andb_true_iff in Hn. tauto.
  - auto.
Qed.

Lemma minLen_sound ic ml r bef w aft cs cs' :
  Matches ic ml r bef w aft cs cs' -> minLen r <= List.length w.
Proof.
  induction 1; simpl; try lia.
  rewrite List.length_app. lia.
Qed.

Lemma slack_sound ic ml i r bef w aft cs cs' :
  Matches ic ml r bef w aft cs cs' ->
  cs' i = cs i \/
  exists u s, cs' i = Some u /\ slack i r = Some s /\
              List.length u + s <= List.length w.
Proof.
  induction 1; simpl; auto.
  - apply minLen_sound in H as L1. apply minLen_sound in H0 as L2.
    rewrite List.length_app.
    destruct IHMatches2 as [E2|(u & s & E2 & S2 & B2)].
    + rewrite E2. destruct IHMatches1 as [E1|(u & s & E1 & S1 & B1)]; auto.
      right. rewrite S1. simpl.
      destruct (slack i b) as [s2|]; simpl; eexists u, _;
        (split; [exact E1|split; [reflexivity|lia]]).
    + right. rewrite S2. simpl.
      destruct (slack i a) as [s1|]; simpl; eexists u, _;
        (split; [exact E2|split; [reflexivity|lia]]).
  - destruct IHMatches as [E|(u & s & E & S1 & B)]; auto.
    right. rewrite S1. destruct (slack i b) as [s2|]; simpl; eexists u, _;
      (split; [exact E|split; [reflexivity|lia]]).
  - destruct IHMatches as [E|(u & s & E & S1 & B)]; auto.
    right. rewrite S1. destruct (slack i a) as [s2|]; simpl; eexists u, _;
      (split; [exact E|split; [reflexivity|lia]]).
  - unfold setCap. destruct (Nat.eqb i i0) eqn:E.
    + right. exists w, 0. repeat split; lia.
    + exact IHMatches.
Qed.

End RegexFacts.

(** ** The methods built on the matcher *)

Module ExecFacts.
Import Regex RegexFacts.

Lemma execAt_sound R bef aft m :
  execAt R bef aft = Some m ->
  exists w aft', aft = w ++ aft' /\ MatchOf R bef w aft' m /\
                 index m = List.length bef.
Proof.
  unfold execAt. intros H. apply run_sound in H.
  destruct H as (w & aft' & cs' & -> & M & H).
  rewrite firstn_consumed in H. injection H as <-.
  exists w, aft'. repeat split. exact M.
Qed.

Lemma execFrom_sound R :
  forall aft bef m,
    execFrom R bef aft = Some m ->
    exists pre w post,
      aft = pre ++ w ++ post /\ MatchOf R (List.rev pre ++ bef) w post m /\
      index m = List.length bef + List.length pre.
Proof.
  induction aft as [|x aft IH]; intros bef m H; simpl in H.
  - destruct (execAt R bef []) as [m'|] eqn:E; [|discriminate].
    injection H as ->. apply execAt_sound in E.
    destruct E as (w & aft' & E & M & I).
    exists [], w, aft'. simpl. rewrite Nat.add_0_r. auto.
  - destruct (execAt R bef (x :: aft)) as [m'|] eqn:E.
    + injection H as ->. apply execAt_sound in E.
      destruct E as (w & aft' & E & M & I).
      exists [], w, aft'. simpl. rewrite Nat.add_0_r. auto.
    + apply IH in H. destruct H as (pre & w & post & -> & M & I).
      exists (x :: pre), w, post. simpl in *.
      rewrite <- List.app_assoc. simpl.
      split; [reflexivity|]. split; [exact M|lia].
Qed.

Lemma matchOf_needs R t bef w aft m :
  MatchOf R bef w aft m -> needs t (re R) = true -> List.existsb t w = true.
Proof. intros [M _]. exact (needs_sound _ _ t _ _ _ _ _ _ M). Qed.

Lemma matchOf_minLen R bef w aft m :
  MatchOf R bef w aft m -> minLen (re R) <= List.length (matched m).
Proof. intros [M ->]. exact (minLen_sound _ _ _ _ _ _ _ _ M). Qed.

Lemma matchOf_slack R bef w aft m i u s :
  MatchOf R bef w aft m -> group m i = Some u -> slack i (re R) = Some s ->
  List.length u + s <= List.length (matched m).
Proof.
  intros [M ->] Hu Hs.
  destruct (slack_sound _ _ i _ _ _ _ _ _ M) as [E|(u' & s' & E & S' & B)].
  - rewrite Hu in E. discriminate.
  - congruence.
Qed.

Lemma matchOf_absent R bef w aft m i :
  MatchOf R bef w aft m -> slack i (re R) = None -> group m i = None.
Proof.
  intros [M _] Hs.
  destruct (slack_sound _ _ i _ _ _ _ _ _ M) as [E|(u' & s' & E & S' & B)].
  - exact E.
  - congruence.
Qed.

(** A text without the character a pattern needs has no match. *)
Lemma execAt_none R t bef aft :
  needs t (re R) = true -> List.existsb t aft = false -> execAt R bef aft = None.
Proof.
  intros Hn Ht. destruct (execAt R bef aft) as [m|] eqn:E; [|reflexivity].
  apply execAt_sound in E. destruct E as (w & aft' & -> & M & _).
  apply (matchOf_needs _ t) in M; [|exact Hn].
  rewrite List.existsb_app, M in Ht. discriminate.
Qed.

Lemma execFrom_none R t bef aft :
  needs t (re R) = true -> List.existsb t aft = false -> execFrom R bef aft = None.
Proof.
  intros Hn Ht. destruct (execFrom R bef aft) as [m|] eqn:E; [|reflexivity].
  apply execFrom_sound in E. destruct E as (pre & w & post & -> & M & _).
  apply (matchOf_needs _ t) in M; [|exact Hn].
  rewrite !List.existsb_app, M, orb_true_r in Ht. discriminate.
Qed.

Lemma exec_none R t text :
  needs t (re R) = true -> List.existsb t text = false -> exec R text = None.
Proof. apply execFrom_none. Qed.

(** What [text.match] returns lies inside the text. *)
Lemma exec_inside R text m :
  exec R text = Some m ->
  minLen (re R) <= List.length (matched m) /\
  List.length (matched m) <= List.length text /\
  forall i u s, group m i = Some u -> slack i (re R) = Some s ->
                List.length u + s <= List.length text.
Proof.
  intros H. apply execFrom_sound in H.
  destruct H as (pre & w & post & -> & M & _).
  pose proof (matchOf_minLen _ _ _ _ _ M) as L.
  assert (Hw : List.length (matched m) <= List.length (pre ++ w ++ post)).
  { destruct M as [_ ->]. rewrite !List.length_app. lia. }
  repeat split; auto.
  intros i u s Hu Hs. pose proof (matchOf_slack _ _ _ _ _ _ _ _ M Hu Hs). lia.
Qed.

Lemma execG_inside R text lastIndex m :
  execG R text lastIndex = Some m ->
  lastIndex <= index m /\
  minLen (re R) <= List.length (matched m) /\
  index m + List.length (matched m) <= List.length text /\
  forall i u s, group m i = Some u -> slack i (re R) = Some s ->
                List.length u + s <= List.length text.
Proof.
  unfold execG. intros H.
  destruct (Nat.ltb (List.length text) lastIndex) eqn:E; [discriminate|].
  apply Nat.ltb_ge in E.
  apply execFrom_sound in H. destruct H as (pre & w & post & Ht & M & I).
  rewrite List.length_rev, List.length_firstn in I.
  pose proof (matchOf_minLen _ _ _ _ _ M) as L.
  assert (Hlen : List.length text
                 = lastIndex + (List.length pre + (List.length w + List.length post))).
  { rewrite <- (List.firstn_skipn lastIndex text) at 1.
    rewrite List.length_app, List.length_firstn, Ht, !List.length_app. lia. }
  assert (Hw : List.length (matched m) = List.length w) by (destruct M as [_ ->]; auto).
  repeat split; try lia.
  intros i u s Hu Hs. pose proof (matchOf_slack _ _ _ _ _ _ _ _ M Hu Hs). lia.
Qed.

(** ** Replacing *)

Lemma pieces_weight R :
  forall aft skip bef,
    skip <= List.length aft ->
    weight (pieces R skip bef aft) = List.length aft - skip /\
    FromMatches R (pieces R skip bef aft).
Proof.
  assert (Hnil : FromMatches R []) by (intros m []).
  assert (Hchar : forall c ps, FromMatches R ps -> FromMatches R (PChar c :: ps)).
  { intros c ps H m [E|E]; [discriminate|auto]. }
  assert (Hmatch : forall bef w aft m ps,
             MatchOf R bef w aft m -> FromMatches R ps ->
             FromMatches R (PMatch m :: ps)).
  { intros bef w aft m ps M H m' [E|E]; [|auto]. injection E as <-. split.
    - exact (matchOf_minLen _ _ _ _ _ M).
    - intros i u s. exact (matchOf_slack _ _ _ _ _ _ _ _ M). }
  induction aft as [|x aft IH]; intros skip bef Hs.
  - simpl in Hs. assert (skip = 0) by lia. subst skip. simpl.
    destruct (execAt R bef []) as [m|] eqn:E; simpl; [|auto].
    apply execAt_sound in E. destruct E as (w & aft' & E & M & _).
    symmetry in E. apply List.app_eq_nil in E. destruct E as [-> ->].
    split; [|exact (Hmatch _ _ _ _ _ M Hnil)].
    destruct M as [_ ->]. reflexivity.
  - destruct skip as [|n]; cbn [pieces].
    + destruct (execAt R bef (x :: aft)) as [m|] eqn:E.
      * apply execAt_sound in E. destruct E as (w & aft' & E & M & _).
        pose proof M as [_ Hm]. rewrite Hm.
        destruct w as [|c w]; simpl in E.
        -- destruct (IH 0 (x :: bef)) as [W F]; [lia|]. split.
           ++ simpl. rewrite Hm. simpl. fold (weight (pieces R 0 (x :: bef) aft)).
              rewrite W. lia.
           ++ exact (Hmatch _ _ _ _ _ M (Hchar _ _ F)).
        -- injection E as <- ->.
           destruct (IH (List.length w) (x :: bef)) as [W F].
           { rewrite List.length_app. lia. }
           split.
           ++ simpl. rewrite Hm. simpl.
              fold (weight (pieces R (List.length w) (x :: bef) (w ++ aft'))).
              rewrite W, List.length_app. lia.
           ++ exact (Hmatch _ _ _ _ _ M F).
      * destruct (IH 0 (x :: bef)) as [W F]; [lia|]. split.
        -- simpl. fold (weight (pieces R 0 (x :: bef) aft)). rewrite W. lia.
        -- auto.
    + simpl in Hs. destruct (IH n (x :: bef)) as [W F]; [lia|].
      split; [rewrite W; simpl; lia|exact F].
Qed.

Lemma replace_shrinks R f text :
  1 <= minLen (re R) ->
  (forall m, List.length (f m) <= 1) ->
  List.length (replace R f text) <= List.length text.
Proof.
  intros Hmin Hf. unfold replace.
  destruct (pieces_weight R text 0 []) as [W F]; [lia|].
  rewrite Nat.sub_0_r in W. rewrite <- W. clear W.
  induction (pieces R 0 [] text) as [|p ps IH]; simpl; [lia|].
  rewrite List.length_app. fold (weight ps).
  assert (F' : FromMatches R ps) by (intros m Hm; apply F; now right).
  specialize (IH F'). destruct p as [c|m]; simpl; [lia|].
  destruct (F m (or_introl eq_refl)) as [L _]. specialize (Hf m). lia.
Qed.

(** Without a match the text is kept as it is. *)
Lemma pieces_no_match R t :
  needs t (re R) = true ->
  forall aft bef, List.existsb t aft = false ->
                  pieces R 0 bef aft = List.map PChar aft.
Proof.
  intros Hn. induction aft as [|x aft IH]; intros bef Ht; cbn [pieces].
  - now rewrite (execAt_none R t bef [] Hn Ht).
  - rewrite (execAt_none R t bef (x :: aft) Hn Ht). simpl. f_equal.
    apply IH. simpl in Ht. now apply orb_false_elim in Ht.
Qed.

Lemma replace_no_match R t f text :
  needs t (re R) = true -> List.existsb t text = false -> replace R f text = text.
Proof.
  intros Hn Ht. unfold replace. rewrite (pieces_no_match R t Hn text [] Ht).
  induction text as [|x text IH]; simpl; [reflexivity|].
  f_equal. apply IH. simpl in Ht. now apply orb_false_elim in Ht.
Qed.

End ExecFacts.

(* ===================================================================== *)
(** * Part V. The comment parser (properties)                             *)
(* ===================================================================== *)

Module ParserFacts.
Import Regex RegexFacts ExecFacts Parser.

(** ** Captured text is shorter than the text *)

Lemma exec_absent R text m i :
  exec R text = Some m -> slack i (re R) = None -> group m i = None.
Proof.
  intros H. apply execFrom_sound in H.
  destruct H as (pre & w & post & _ & M & _).
  exact (matchOf_absent _ _ _ _ _ _ M).
Qed.

Lemma group_short R text m i u :
  exec R text = Some m -> slack i (re R) <> Some 0 -> group m i = Some u ->
  List.length u < List.length text.
Proof.
  intros H Hs Hu. destruct (exec_inside _ _ _ H) as (_ & _ & B).
  destruct (slack i (re R)) as [s|] eqn:E.
  - specialize (B i u s Hu E). destruct s; [congruence|lia].
  - rewrite (exec_absent _ _ _ _ H E) in Hu. discriminate.
Qed.

Lemma grp_short R text m i :
  exec R text = Some m -> 1 <= minLen (re R) -> slack i (re R) <> Some 0 ->
  List.length (grp m i) < List.length text.
Proof.
  intros H Hmin Hs. unfold grp. destruct (group m i) as [u|] eqn:E.
  - exact (group_short _ _ _ _ _ H Hs E).
  - destruct (exec_inside _ _ _ H) as (L1 & L2 & _). simpl. lia.
Qed.

Lemma grpOr_short R text m i j :
  exec R text = Some m -> 1 <= minLen (re R) ->
  slack i (re R) <> Some 0 -> slack j (re R) <> Some 0 ->
  List.length (grpOr m i j) < List.length text.
Proof.
  intros H Hmin Hi Hj. unfold grpOr.
  destruct (group m i) as [[|c u]|] eqn:E;
    try exact (grp_short _ _ _ _ H Hmin Hj).
  exact (group_short _ _ _ _ _ H Hi E).
Qed.

(** ** The rule tables *)

Lemma firstMatch_sound rules text rule m :
  firstMatch rules text = Some (rule, m) ->
  List.In rule rules /\ exec (r_regex rule) text = Some m.
Proof.
  induction rules as [|r rs IH]; simpl; [discriminate|].
  destruct (exec (r_regex r) text) as [m'|] eqn:E.
  - intros [= <- <-]. auto.
  - intros H. apply IH in H. tauto.
Qed.

Lemma firstLone_sound rules text rule m :
  firstLone rules text = Some (rule, m) ->
  List.In rule rules /\ exec (l_regex rule) text = Some m.
Proof.
  induction rules as [|r rs IH]; simpl; [discriminate|].
  destruct (exec (l_regex r) text) as [m'|] eqn:E.
  - intros [= <- <-]. auto.
  - intros H. apply IH in H. tauto.
Qed.

Lemma recurse_total pi line wrap :
  pi line <> None -> recurse pi line wrap <> None.
Proof. unfold recurse. destruct (pi line); [discriminate|congruence]. Qed.

Ltac each_rule H :=
  simpl in H;
  repeat (destruct H as [<-|H]; [|try contradiction]).

(** Every inline rule takes at least one code unit. *)
Lemma inlineRules_minLen pi rule :
  List.In rule (inlineRules pi) -> 1 <= minLen (re (r_regex rule)).
Proof. intros H. each_rule H; vm_compute; lia. Qed.

Ltac short_capture H :=
  first [ apply (grp_short _ _ _ _ H) | apply (grpOr_short _ _ _ _ _ H) ];
  vm_compute; first [ lia | discriminate ].

(** The rules that parse what they captured hand a shorter text on. *)
Lemma inlineRules_process pi text rule m :
  (forall line, List.length line < List.length text -> pi line <> None) ->
  List.In rule (inlineRules pi) ->
  exec (r_regex rule) text = Some m ->
  r_process rule m <> None.
Proof.
  intros Hpi H E. each_rule H; cbn [r_process r_regex] in *;
    try discriminate; apply recurse_total, Hpi; short_capture E.
Qed.

(** ** Progress and termination of the inline loop *)

Lemma skipn_shorter (n : nat) (text : jsstring) :
  1 <= n -> text <> [] -> List.length (List.skipn n text) < List.length text.
Proof.
  intros Hn Ht. rewrite List.length_skipn.
  destruct text; [congruence|cbn [List.length]; lia].
Qed.

Lemma firstn_some (n : nat) (text : jsstring) :
  1 <= n -> text <> [] -> 1 <= List.length (List.firstn n text).
Proof.
  intros Hn Ht. rewrite List.length_firstn.
  destruct text; [congruence|cbn [List.length]; lia].
Qed.

Lemma firstn_skipn_own (n : nat) (text : jsstring) :
  text = List.firstn n text ++ List.skipn (List.length (List.firstn n text)) text.
Proof.
  revert text. induction n as [|n IH]; intros [|x text]; simpl; auto.
  f_equal. apply IH.
Qed.

Lemma plainTextEnd_pos (o : option nat) (text : jsstring) :
  text <> [] ->
  1 <= (if Nat.ltb 0 (match o with None => List.length text | Some i => i end)
        then match o with None => List.length text | Some i => i end
        else 1).
Proof.
  intros Ht.
  destruct (Nat.ltb 0 _) eqn:E; [apply Nat.ltb_lt in E; lia|lia].
Qed.

Lemma inlineStep_turn pi text segments text' segments' :
  text <> [] ->
  inlineStep pi text segments = Some (text', segments') ->
  turn pi text segments text' segments' /\
  List.length text' < List.length text.
Proof.
  intros Ht. unfold inlineStep, turn.
  destruct (firstMatch (inlineRules pi) text) as [[rule m]|] eqn:F.
  - destruct (r_process rule m) as [processed|] eqn:P; [|discriminate].
    intros [= <- <-].
    destruct (firstMatch_sound _ _ _ _ F) as [HI HE].
    pose proof (inlineRules_minLen _ _ HI) as L.
    destruct (exec_inside _ _ _ HE) as (L1 & _ & _).
    split; [|apply skipn_shorter; [lia|exact Ht]].
    left. exists rule, m, processed. repeat split; auto. lia.
  - intros [= <- <-].
    pose proof (plainTextEnd_pos (search nextTokenRegex text) text Ht) as L.
    set (n := if Nat.ltb 0 _ then _ else _) in *.
    pose proof (firstn_some n text L Ht) as L'.
    split; [|apply skipn_shorter; [exact L'|exact Ht]].
    right. exists (List.firstn n text). repeat split; auto.
    apply firstn_skipn_own.
Qed.

(** The plain text ends up at the end of a last segment of type ['text']. *)
Lemma pushText_last segments plain :
  exists front s u l n,
    pushText segments plain = front ++ [mkSegment Ttext (Str (s ++ plain)) u l n].
Proof.
  induction segments as [|x r IH].
  - now exists [], [], None, None, None.
  - destruct r as [|y r].
    + cbn [pushText].
      destruct (type x) eqn:T;
        try (now exists [x], [], None, None, None).
      destruct (content x) as [s|segs] eqn:C.
      * now exists [], s, (url x), (level x), (username x).
      * now exists [x], [], None, None, None.
    + destruct IH as (front & s & u & l & n & E).
      exists (x :: front), s, u, l, n.
      change (pushText (x :: y :: r) plain) with (x :: pushText (y :: r) plain).
      now rewrite E.
Qed.

Lemma inlineStep_total pi text segments :
  text <> [] ->
  (forall line, List.length line < List.length text -> pi line <> None) ->
  inlineStep pi text segments <> None.
Proof.
  intros Ht Hpi. unfold inlineStep.
  destruct (firstMatch (inlineRules pi) text) as [[rule m]|] eqn:F; [|discriminate].
  destruct (firstMatch_sound _ _ _ _ F) as [HI HE].
  pose proof (inlineRules_process pi text rule m Hpi HI HE) as P.
  destruct (r_process rule m); [discriminate|congruence].
Qed.

Lemma inlineLoop_total :
  forall fuel text segments,
    List.length text < fuel -> inlineLoop fuel text segments <> None.
Proof.
  induction fuel as [|fuel IH]; intros text segments Hf; [lia|].
  destruct text as [|c text]; [discriminate|].
  cbn [inlineLoop].
  set (pi := fun line : jsstring => match line with
                                    | [] => Some []
                                    | _ :: _ => inlineLoop fuel line []
                                    end).
  assert (Hpi : forall line, List.length line < List.length (c :: text) ->
                             pi line <> None).
  { intros [|x line] Hl; [discriminate|]. apply IH. lia. }
  pose proof (inlineStep_total pi (c :: text) segments ltac:(discriminate) Hpi) as T.
  destruct (inlineStep pi (c :: text) segments) as [[text' segments']|] eqn:E;
    [|congruence].
  apply inlineStep_turn in E; [|discriminate]. destruct E as [_ L].
  apply IH. lia.
Qed.

Lemma parseInline_total line : parseInline line <> None.
Proof.
  unfold parseInline, parseInline_fuel. destruct line as [|c line]; [discriminate|].
  apply inlineLoop_total. lia.
Qed.

(** ** parseComment never runs out of fuel *)

Lemma fromCodePoint_short cp d : fromCodePoint cp = Ok d -> List.length d <= 2.
Proof.
  unfold fromCodePoint. destruct (1114111 <? cp)%N; [discriminate|].
  destruct (cp <? 65536)%N; intros [= <-]; simpl; lia.
Qed.

Lemma fromCodePoint_fuel cp : fromCodePoint cp <> OutOfFuel.
Proof.
  unfold fromCodePoint. destruct (1114111 <? cp)%N; [discriminate|].
  destruct (cp <? 65536)%N; discriminate.
Qed.

Lemma replaceEntities_fuel ps : replaceEntities ps <> OutOfFuel.
Proof.
  induction ps as [|[c|m] ps IH]; simpl; [discriminate| |].
  - destruct (replaceEntities ps); simpl; congruence.
  - pose proof (fromCodePoint_fuel (parseInt (grp m 1))) as F.
    destruct (fromCodePoint (parseInt (grp m 1))); simpl; try congruence.
    destruct (replaceEntities ps); simpl; congruence.
Qed.

Lemma replaceEntities_shrinks ps s :
  FromMatches entityRegex ps -> replaceEntities ps = Ok s ->
  List.length s <= weight ps.
Proof.
  revert s. induction ps as [|[c|m] ps IH]; intros s F; simpl.
  - intros [= <-]. simpl. lia.
  - fold (weight ps). destruct (replaceEntities ps) as [s'| |] eqn:E; simpl;
      try discriminate.
    intros [= <-]. simpl.
    assert (List.length s' <= weight ps); [|lia].
    apply IH; [|reflexivity]. intros m Hm. apply F. now right.
  - fold (weight ps).
    destruct (fromCodePoint (parseInt (grp m 1))) as [d| |] eqn:D; simpl;
      try discriminate.
    destruct (replaceEntities ps) as [s'| |] eqn:E; simpl; try discriminate.
    intros [= <-]. rewrite List.length_app.
    apply fromCodePoint_short in D.
    destruct (F m (or_introl eq_refl)) as [L _]. change (4 <= List.length (matched m)) in L.
    assert (List.length s' <= weight ps); [|lia].
    apply IH; [|reflexivity]. intros m' Hm. apply F. now right.
Qed.

Lemma decodeHtmlEntities_fuel text : decodeHtmlEntities text <> OutOfFuel.
Proof.
  unfold decodeHtmlEntities. destruct text as [|c text]; [discriminate|].
  pose proof (replaceEntities_fuel (pieces entityRegex 0 [] (c :: text))) as F.
  destruct (replaceEntities _); simpl; congruence.
Qed.

Lemma decodeHtmlEntities_shrinks text s :
  decodeHtmlEntities text = Ok s -> List.length s <= List.length text.
Proof.
  unfold decodeHtmlEntities. destruct text as [|c text].
  - intros [= <-]. simpl. lia.
  - destruct (replaceEntities _) as [s'| |] eqn:E; simpl; try discriminate.
    intros [= <-].
    destruct (pieces_weight entityRegex (c :: text) 0 []) as [W F]; [lia|].
    apply replaceEntities_shrinks in E; [|exact F].
    rewrite W, Nat.sub_0_r in E.
    repeat (etransitivity;
            [apply replace_shrinks; [vm_compute; lia|intros _; vm_compute; lia]|]).
    exact E.
Qed.

Lemma cleaned_fuel text : cleaned text <> OutOfFuel.
Proof. apply decodeHtmlEntities_fuel. Qed.

Lemma cleaned_shrinks text s :
  cleaned text = Ok s -> List.length s <= List.length text.
Proof.
  unfold cleaned. intros H. apply decodeHtmlEntities_shrinks in H.
  etransitivity; [exact H|].
  apply replace_shrinks; [vm_compute; lia|intros _; simpl; lia].
Qed.

Lemma splitLoop_total rec text :
  (forall c, List.length c < List.length text -> rec c <> OutOfFuel) ->
  forall fuel reLastIndex lastIndex blocks,
    List.length text - reLastIndex < fuel ->
    List.Forall (shortBlock text) blocks ->
    match splitLoop rec fuel text reLastIndex lastIndex blocks with
    | Ok (blocks', _) => List.Forall (shortBlock text) blocks'
    | Throw _ => True
    | OutOfFuel => False
    end.
Proof.
  intros Hrec.
  induction fuel as [|fuel IH]; intros li last blocks Hf Hb; [lia|].
  cbn [splitLoop].
  destruct (execG multilineRegex text li) as [m|] eqn:E; [|exact Hb].
  destruct (execG_inside _ _ _ _ E) as (L1 & L2 & L3 & B).
  change (4 <= List.length (matched m)) in L2.
  set (blocks1 := if Nat.ltb last (index m) then _ else blocks).
  assert (Hb1 : List.Forall (shortBlock text) blocks1).
  { subst blocks1. destruct (Nat.ltb last (index m)); [|exact Hb].
    apply List.Forall_app. split; [exact Hb|]. repeat constructor. }
  assert (Hnext : forall blocks2,
             List.Forall (shortBlock text) blocks2 ->
             match splitLoop rec fuel text (index m + List.length (matched m))
                             (index m + List.length (matched m)) blocks2 with
             | Ok (blocks', _) => List.Forall (shortBlock text) blocks'
             | Throw _ => True
             | OutOfFuel => False
             end).
  { intros blocks2 Hb2. apply IH; [lia|exact Hb2]. }
  destruct (group m 2) as [c2|] eqn:G2.
  { simpl. apply Hnext. apply List.Forall_app. split; [exact Hb1|].
    repeat constructor. }
  destruct (group m 4) as [c4|] eqn:G4.
  { simpl. apply Hnext. apply List.Forall_app. split; [exact Hb1|].
    repeat constructor. simpl.
    specialize (B 4 c4 6 G4 eq_refl). lia. }
  destruct (group m 6) as [c6|] eqn:G6.
  { specialize (B 6 c6 4 G6 eq_refl).
    pose proof (Hrec c6 ltac:(lia)) as R.
    destruct (rec c6) as [segs| |]; simpl; [|exact I|congruence].
    apply Hnext. apply List.Forall_app. split; [exact Hb1|].
    repeat constructor. }
  simpl. now apply Hnext.
Qed.

Lemma splitBlocks_total rec text :
  (forall c, List.length c < List.length text -> rec c <> OutOfFuel) ->
  match splitBlocks rec text with
  | Ok blocks => List.Forall (shortBlock text) blocks
  | Throw _ => True
  | OutOfFuel => False
  end.
Proof.
  intros Hrec. unfold splitBlocks.
  pose proof (splitLoop_total rec text Hrec (S (List.length text)) 0 0 []
                              ltac:(lia) (List.Forall_nil _)) as T.
  destruct (splitLoop rec (S (List.length text)) text 0 0 []) as [[bs li]| |];
    simpl; auto.
  destruct (Nat.ltb li (List.length text)); [|exact T].
  apply List.Forall_app. split; [exact T|]. repeat constructor.
Qed.

Lemma loneFormatterRules_process rule m :
  List.In rule (loneFormatterRules parseInline) -> l_process rule m <> None.
Proof. intros H. each_rule H; apply parseInline_total. Qed.

Lemma lineStartRules_process rule m :
  List.In rule (lineStartRules parseInline) -> r_process rule m <> None.
Proof.
  intros H. each_rule H; cbn [r_process]; try discriminate;
    apply recurse_total, parseInline_total.
Qed.

Lemma parseLine_total line more : parseLine line more <> None.
Proof.
  unfold parseLine.
  assert (Hmain :
    match firstLone (loneFormatterRules parseInline) (trim line) with
    | Some (rule, m) =>
      match l_process rule m with
      | None => None
      | Some segs =>
        Some (mkSegment Tcenter (Segs segs) None None None
                        :: (if more then [brSegment] else []))
      end
    | None =>
      match firstMatch (lineStartRules parseInline) line with
      | Some (rule, m) =>
        match r_process rule m with
        | None => None
        | Some processed =>
          Some (build rule processed :: (if more then [brSegment] else []))
        end
      | None =>
        match line with
        | [] => Some (if more then [brSegment] else [])
        | _ :: _ =>
          match parseInline line with
          | None => None
          | Some segs => Some (segs ++ (if more then [brSegment] else []))
          end
        end
      end
    end <> None).
  { destruct (firstLone _ _) as [[rule m]|] eqn:F.
    - apply firstLone_sound in F. destruct F as [HI _].
      pose proof (loneFormatterRules_process rule m HI).
      destruct (l_process rule m); [discriminate|congruence].
    - destruct (firstMatch _ _) as [[rule m]|] eqn:F'.
      + apply firstMatch_sound in F'. destruct F' as [HI _].
        pose proof (lineStartRules_process rule m HI).
        destruct (r_process rule m); [discriminate|congruence].
      + destruct line as [|c line]; [discriminate|].
        pose proof (parseInline_total (c :: line)).
        destruct (parseInline (c :: line)); [discriminate|congruence]. }
  destruct line as [|c line]; [destruct more; [discriminate|]|]; exact Hmain.
Qed.

Lemma parseLines_total lines : parseLines lines <> None.
Proof.
  induction lines as [|line rest IH]; simpl; [discriminate|].
  pose proof (parseLine_total line (match rest with [] => false | _ :: _ => true end)).
  destruct (parseLine line _); [|congruence].
  destruct (parseLines rest); [discriminate|congruence].
Qed.

Lemma renderBlocks_total rec text blocks :
  (forall c, List.length c < List.length text -> rec c <> OutOfFuel) ->
  List.Forall (shortBlock text) blocks ->
  renderBlocks rec blocks <> OutOfFuel.
Proof.
  intros Hrec. induction 1 as [|b bs Hb _ IH]; simpl; [discriminate|].
  assert (Hhere : renderBlock rec b <> OutOfFuel).
  { destruct b as [s|c|c|segs]; simpl; try discriminate.
    - pose proof (parseLines_total (split s)).
      destruct (parseLines (split s)); simpl; congruence.
    - pose proof (Hrec c Hb). destruct (rec c); simpl; congruence. }
  destruct (renderBlock rec b); simpl; try congruence.
  destruct (renderBlocks rec bs); simpl; congruence.
Qed.

Lemma parseComment_fuel_total :
  forall fuel text, List.length text < fuel -> parseComment_fuel fuel text <> OutOfFuel.
Proof.
  induction fuel as [|fuel IH]; intros text Hf; [lia|].
  cbn [parseComment_fuel].
  pose proof (cleaned_fuel text) as C.
  destruct (cleaned text) as [c| |] eqn:E; simpl; try congruence.
  apply cleaned_shrinks in E.
  assert (Hrec : forall s, List.length s < List.length c ->
                           parseComment_fuel fuel s <> OutOfFuel).
  { intros s Hs. apply IH. lia. }
  pose proof (splitBlocks_total (parseComment_fuel fuel) c Hrec) as S.
  destruct (splitBlocks (parseComment_fuel fuel) c) as [blocks| |]; simpl;
    [|discriminate|contradiction].
  exact (renderBlocks_total _ c blocks Hrec S).
Qed.

End ParserFacts.

(** ** Text without trigger characters *)

Module PlainFacts.
Import Regex RegexFacts ExecFacts Parser ParserFacts.

Lemma plainText_existsb s : plainText s = true -> List.existsb isTrigger s = false.
Proof.
  unfold plainText. induction s as [|c s IH]; simpl; [reflexivity|].
  intros H. apply andb_true_iff in H. destruct H as [H1 H2].
  apply negb_true_iff in H1. now rewrite H1, IH.
Qed.

Lemma existsb_rev (t : N -> bool) s :
  List.existsb t (List.rev s) = List.existsb t s.
Proof.
  induction s as [|c s IH]; simpl; [reflexivity|].
  rewrite List.existsb_app, IH. simpl. rewrite orb_false_r. apply orb_comm.
Qed.

Lemma existsb_dropSpace (t : N -> bool) s :
  List.existsb t s = false -> List.existsb t (dropSpace s) = false.
Proof.
  induction s as [|c s IH]; simpl; [reflexivity|].
  intros H. destruct (isSpace c); [|exact H].
  apply IH. now apply orb_false_elim in H.
Qed.

Lemma existsb_trim (t : N -> bool) s :
  List.existsb t s = false -> List.existsb t (trim s) = false.
Proof.
  intros H. unfold trim. rewrite existsb_rev. apply existsb_dropSpace.
  rewrite existsb_rev. now apply existsb_dropSpace.
Qed.

Lemma split_one_line s :
  List.existsb isTrigger s = false -> split s = [s].
Proof.
  induction s as [|c s IH]; simpl; [reflexivity|].
  intros H. apply orb_false_elim in H. destruct H as [Hc Hs].
  unfold isTrigger in Hc. apply orb_false_elim in Hc. destruct Hc as [_ Hn].
  rewrite Hn, (IH Hs). reflexivity.
Qed.

Lemma replaceEntities_chars s : replaceEntities (List.map PChar s) = Ok s.
Proof. induction s as [|c s IH]; simpl; [reflexivity|]. now rewrite IH. Qed.

Lemma cleaned_plain s : List.existsb isTrigger s = false -> cleaned s = Ok s.
Proof.
  intros H. unfold cleaned.
  rewrite (replace_no_match brRegex isTrigger _ s eq_refl H).
  unfold decodeHtmlEntities. destruct s as [|c s]; [reflexivity|].
  rewrite (pieces_no_match entityRegex isTrigger eq_refl (c :: s) [] H).
  rewrite replaceEntities_chars. simpl bind.
  rewrite (replace_no_match ampRegex isTrigger _ (c :: s) eq_refl H).
  rewrite (replace_no_match ltRegex isTrigger _ (c :: s) eq_refl H).
  rewrite (replace_no_match gtRegex isTrigger _ (c :: s) eq_refl H).
  reflexivity.
Qed.

Lemma splitBlocks_plain rec c s :
  List.existsb isTrigger (c :: s) = false ->
  splitBlocks rec (c :: s) = Ok [Plain (c :: s)].
Proof.
  intros H. unfold splitBlocks. cbn [splitLoop].
  unfold execG. cbn [Nat.ltb Nat.leb List.firstn List.skipn List.rev].
  rewrite (execFrom_none multilineRegex isTrigger [] (c :: s) eq_refl H).
  reflexivity.
Qed.

Lemma firstMatch_none rules text :
  List.forallb (fun rule => needs isTrigger (re (r_regex rule))) rules = true ->
  List.existsb isTrigger text = false ->
  firstMatch rules text = None.
Proof.
  intros Hr Ht. induction rules as [|r rs IH]; simpl; [reflexivity|].
  simpl in Hr. apply andb_true_iff in Hr. destruct Hr as [H1 H2].
  rewrite (exec_none _ isTrigger text H1 Ht). auto.
Qed.

Lemma firstLone_none rules text :
  List.forallb (fun rule => needs isTrigger (re (l_regex rule))) rules = true ->
  List.existsb isTrigger text = false ->
  firstLone rules text = None.
Proof.
  intros Hr Ht. induction rules as [|r rs IH]; simpl; [reflexivity|].
  simpl in Hr. apply andb_true_iff in Hr. destruct Hr as [H1 H2].
  rewrite (exec_none _ isTrigger text H1 Ht). auto.
Qed.

(** The heading pattern asks for its [#] through a class. *)
Lemma heading_none pi text rule :
  List.nth_error (lineStartRules pi) 1 = Some rule ->
  List.existsb isTrigger text = false ->
  exec (r_regex rule) text = None.
Proof.
  intros [= <-] Ht. cbn [r_regex].
  match goal with |- ?e = None => destruct e as [m|] eqn:E end; [|reflexivity].
  apply execFrom_sound in E. destruct E as (pre & w & post & -> & [M _] & _).
  cbn [re ignoreCase multiline] in M.
  inversion M as [| | | | |a b bef w1 w2 aft cs cs1 cs2 M1 M2| | | |]; subst.
  inversion M2 as [| | | | |a b bef w3 w4 aft cs cs3 cs4 M3 M4| | | |]; subst.
  inversion M3 as [| | | | | | | | |i a bef w5 aft cs cs5 M5]; subst.
  inversion M5 as [| | | | | | | |g lo hi p bef w6 aft cs Hall Hlo Hhi|]; subst.
  destruct w3 as [|x w3]; [simpl in Hlo; lia|].
  inversion Hall as [|? ? Hx _]; subst.
  assert (Hx' : isTrigger x = true).
  { unfold oneOf in Hx. simpl in Hx. rewrite orb_false_r in Hx.
    apply N.eqb_eq in Hx. subst x. reflexivity. }
  rewrite !List.existsb_app in Ht. simpl in Ht. rewrite Hx' in Ht.
  rewrite !orb_true_r in Ht. simpl in Ht.
  repeat rewrite orb_true_r in Ht. discriminate.
Qed.

Lemma lineStart_none text :
  List.existsb isTrigger text = false ->
  firstMatch (lineStartRules parseInline) text = None.
Proof.
  intros Ht.
  assert (H : List.Forall (fun rule => exec (r_regex rule) text = None)
                          (lineStartRules parseInline)).
  { repeat constructor;
      first [ apply (exec_none _ isTrigger); [reflexivity|exact Ht]
            | apply (heading_none parseInline); [reflexivity|exact Ht] ]. }
  induction H as [|r rs Hr _ IH]; simpl; [reflexivity|]. now rewrite Hr.
Qed.

Lemma inlineStep_plain pi c s segments :
  List.existsb isTrigger (c :: s) = false ->
  inlineStep pi (c :: s) segments = Some ([], pushText segments (c :: s)).
Proof.
  intros Ht. unfold inlineStep.
  rewrite (firstMatch_none (inlineRules pi) (c :: s) eq_refl Ht).
  unfold search. rewrite (exec_none nextTokenRegex isTrigger (c :: s) eq_refl Ht).
  cbn [option_map List.length Nat.ltb Nat.leb].
  change (S (List.length s)) with (List.length (c :: s)).
  rewrite List.firstn_all, List.skipn_all. reflexivity.
Qed.

Lemma parseInline_plain c s :
  List.existsb isTrigger (c :: s) = false ->
  parseInline (c :: s) = Some [textSegment (c :: s)].
Proof.
  intros Ht. unfold parseInline, parseInline_fuel. cbn [List.length inlineLoop].
  rewrite (inlineStep_plain _ c s [] Ht). reflexivity.
Qed.

Lemma parseComment_plain c s :
  List.existsb isTrigger (c :: s) = false ->
  parseComment (c :: s) = Ok [textSegment (c :: s)].
Proof.
  intros Ht. unfold parseComment. cbn [List.length parseComment_fuel].
  rewrite (cleaned_plain (c :: s) Ht). cbn [bind].
  rewrite (splitBlocks_plain _ c s Ht). cbn [bind renderBlocks renderBlock].
  rewrite (split_one_line (c :: s) Ht). cbn [parseLines parseLine].
  rewrite (firstLone_none (loneFormatterRules parseInline) (trim (c :: s)) eq_refl
                          (existsb_trim isTrigger (c :: s) Ht)).
  rewrite (lineStart_none (c :: s) Ht).
  rewrite (parseInline_plain c s Ht). reflexivity.
Qed.

End PlainFacts.

(** ** Code blocks *)

Module CodeBlockFacts.
Import Regex RegexFacts ExecFacts Parser ParserFacts.












(** ** Where the content of a code block comes from *)

Ltac inv H := inversion H; subst; clear H.

Ltac inv_matches :=
  repeat match goal with
         | H : Matches _ _ (Seq _ _) _ _ _ _ _ |- _ => inv H
         | H : Matches _ _ (Alt _ _) _ _ _ _ _ |- _ => inv H
         | H : Matches _ _ (Grp _ _) _ _ _ _ _ |- _ => inv H
         | H : Matches _ _ (Chr _) _ _ _ _ _ |- _ => inv H
         | H : Matches _ _ (Many _ _ _ _) _ _ _ _ _ |- _ => inv H
         | H : Matches _ _ Bol _ _ _ _ _ |- _ => inv H
         end.






End CodeBlockFacts.

(** ** The statements of the specification about the parser *)

Module ParserClaims.
Import Regex RegexFacts ExecFacts Parser ParserFacts PlainFacts CodeBlockFacts.

(** C1 (the code breaks it). A numeric character reference above the last
    code point, [&#1114112;], makes [String.fromCodePoint] raise a
    [RangeError]: neither [decodeHtmlEntities] nor [parseComment] returns,
    and the reference is not left as literal text. *)
Theorem reference_out_of_range_throws :
  decodeHtmlEntities (js "&#1114112;") = Throw RangeError /\
  parseComment (js "&#1114112;") = Throw RangeError /\
  parseComment (js "a &#99999999999999999999; b") = Throw RangeError /\
  parseComment (js "&#1114111;") = Ok [textSegment [56319; 57343]%N].
Proof. repeat split; vm_compute; reflexivity. Qed.

(** C2 (amended). The line [**[a](http://x)**] is a lone formatter: it
    parses to one ['center'] segment holding one ['link'] segment with url
    [http://x] and the string content [a].  Inside a longer line the same
    markup parses to a ['bold'] segment holding that link. *)
Theorem nesting_bold_link :
  let link := mkSegment Tlink (Str (js "a")) (Some (js "http://x")) None None in
  parseComment (js "**[a](http://x)**")
  = Ok [mkSegment Tcenter (Segs [link]) None None None] /\
  parseComment (js "x **[a](http://x)**")
  = Ok [textSegment (js "x "); mkSegment Tbold (Segs [link]) None None None].
Proof. split; vm_compute; reflexivity. Qed.

(** C2 as stated fails: the result is not a ['bold'] segment around a link
    with the children [[Text a]]. *)
Lemma nesting_bold_link_counterexample :
  parseComment (js "**[a](http://x)**")
  <> Ok [mkSegment Tbold
           (Segs [mkSegment Tlink (Segs [textSegment (js "a")])
                            (Some (js "http://x")) None None])
           None None None] /\
  (forall s, parseComment (js "**[a](http://x)**") = Ok [s] -> type s <> Tbold).
Proof.
  destruct nesting_bold_link as [E _]. rewrite E. split.
  - discriminate.
  - intros s [= <-]. discriminate.
Qed.

(** C5 (amended). A non-empty text without trigger characters parses to
    one ['text'] segment holding the text. *)
Theorem plain_text_roundtrip (s : jsstring) :
  s <> [] -> plainText s = true -> parseComment s = Ok [textSegment s].
Proof.
  intros Hs Hp. destruct s as [|c s]; [congruence|].
  apply parseComment_plain. now apply plainText_existsb.
Qed.

Lemma plain_text_roundtrip_witness :
  parseComment (js "hello, world") = Ok [textSegment (js "hello, world")].
Proof.
  apply plain_text_roundtrip; [discriminate|reflexivity].
Defined.

(** C5 as stated fails on the empty string, which has no trigger
    character and parses to no segment at all. *)
Lemma plain_text_roundtrip_counterexample :
  plainText [] = true /\
  parseComment [] = Ok [] /\
  parseComment [] <> Ok [textSegment []].
Proof. repeat split. discriminate. Qed.

(** C6. Every turn of the inline loop on a non-empty text either matches a
    rule and takes at least one code unit of the text, or puts at least
    one code unit at the end of a last ['text'] segment, so the text left
    gets shorter;
    [parseInline] returns on every line with fuel above its length, and
    [parseComment] never runs out of the fuel it is given. *)
Theorem inline_loop_terminates :
  (forall pi text segments text' segments',
      text <> [] ->
      inlineStep pi text segments = Some (text', segments') ->
      turn pi text segments text' segments' /\
      List.length text' < List.length text) /\
  (forall segments plain,
      exists front s u l n,
        pushText segments plain
        = front ++ [mkSegment Ttext (Str (s ++ plain)) u l n]) /\
  (forall fuel line,
      List.length line < fuel ->
      exists segments, parseInline_fuel fuel line = Some segments) /\
  (forall line, exists segments, parseInline line = Some segments) /\
  (forall text, parseComment text <> OutOfFuel).
Proof.
  split; [exact inlineStep_turn|]. split; [exact pushText_last|].
  split; [|split].
  - intros fuel line Hf. unfold parseInline_fuel.
    destruct line as [|c line]; [now exists []|].
    pose proof (inlineLoop_total fuel (c :: line) [] Hf) as T.
    destruct (inlineLoop fuel (c :: line) []) as [segs|]; [now exists segs|congruence].
  - intros line. pose proof (parseInline_total line) as T.
    destruct (parseInline line) as [segs|]; [now exists segs|congruence].
  - intros text. apply parseComment_fuel_total. lia.
Qed.

Lemma inline_loop_terminates_witness :
  List.length (js " b") < List.length (js "*a* b") /\
  exists segments, parseInline_fuel 6 (js "*a* b") = Some segments.
Proof.
  destruct inline_loop_terminates as (Hstep & _ & Hfuel & _).
  split.
  - edestruct (Hstep parseInline (js "*a* b") []) as [_ L];
      [discriminate|vm_compute; reflexivity|exact L].
  - apply Hfuel. vm_compute. lia.
Defined.

End ParserClaims.

(* ===================================================================== *)
(** * Part VI. Further handlers and helpers (properties)                  *)
(* ===================================================================== *)

Module TreeMoreFacts.
Import Tree TreeFacts TreeMore.

(** ** A confirmed reply *)

Lemma replaceNode_absent x real c :
  nodeHasId x c = false -> replaceNode x real c = c.
Proof.
  induction c as [i cm t n l u k o IH] using comment_ind.
  simpl. intros H. apply orb_false_elim in H. destruct H as [Hi Hk].
  rewrite Hi. destruct k as [cs|]; [|reflexivity].
  do 2 f_equal. now apply absent_nodes_fixed with (x := x).
Qed.

Lemma replaceInTree_absent x real l :
  hasId x l = false -> replaceInTree x real l = l.
Proof.
  intros H. apply absent_nodes_fixed with (x := x); [|exact H].
  apply Forall_forall. intros c _. apply replaceNode_absent.
Qed.

Lemma replace_added_node nc real p x c :
  id nc = x -> nodeHasId x c = false ->
  replaceNode x real (addReplyNode nc p c)
  = addReplyNode (with_childComments real []) p c.
Proof.
  intros Hnc.
  induction c as [i cm t n l u k o IH] using comment_ind.
  intros H. simpl in H. apply orb_false_elim in H. destruct H as [Hi Hk].
  simpl. destruct (i =? p)%Z.
  - simpl. rewrite Hi. do 2 f_equal. rewrite List.map_app. simpl. f_equal.
    + apply (replaceInTree_absent x real). now destruct k.
    + destruct nc as [i' ? ? ? ? ? ? ?]. simpl in Hnc. subst i'. simpl.
      now rewrite Z.eqb_refl.
  - destruct k as [cs|]; simpl; rewrite Hi; [|reflexivity].
    do 2 f_equal. rewrite List.map_map.
    simpl in IH. induction IH as [|c r Hc _ IHr]; simpl; [reflexivity|].
    simpl in Hk. apply orb_false_elim in Hk. destruct Hk as [H1 H2].
    now rewrite Hc, IHr.
Qed.

Lemma addReplyNode_hasId nc p x c :
  nodeHasId x nc = false -> nodeHasId x c = false ->
  nodeHasId x (addReplyNode nc p c) = false.
Proof.
  intros Hnc.
  induction c as [i cm t n l u k o IH] using comment_ind.
  intros H. simpl in H. apply orb_false_elim in H. destruct H as [Hi Hk].
  simpl. destruct (i =? p)%Z.
  - simpl. rewrite Hi. simpl. rewrite List.existsb_app. simpl. rewrite Hnc.
    destruct k; simpl in *; now rewrite ?Hk.
  - destruct k as [cs|]; simpl; rewrite Hi; [|reflexivity]. simpl.
    simpl in IH. induction IH as [|c r Hc _ IHr]; simpl; [reflexivity|].
    simpl in Hk. apply orb_false_elim in Hk. destruct Hk as [H1 H2].
    now rewrite Hc, IHr.
Qed.

(** X1. When no node carried the placeholder id, confirming an optimistic
    reply gives the forest in which the persisted comment, with an empty
    list of children, stands where the placeholder stood: the forest that
    inserting the persisted comment in the first place would have given.
    If the persisted id is not the placeholder id, no node carries the
    placeholder id afterwards. *)
Theorem confirmed_reply_replaces_placeholder
        (t : list ThreadComment) (parentCommentId : option Z)
        (temporaryId : Z) (text : jsstring) (now : Z) (me : User)
        (realComment : ThreadComment) :
  hasId temporaryId t = false ->
  let confirmed :=
      replaceInTree temporaryId realComment
        (postReplyOptimistic (Some t) parentCommentId
                             (newComment temporaryId text now me)) in
  confirmed
  = postReplyOptimistic (Some t) parentCommentId
                        (with_childComments realComment []) /\
  (id realComment <> temporaryId -> hasId temporaryId confirmed = false).
Proof.
  intros Hx confirmed.
  assert (E : confirmed
              = postReplyOptimistic (Some t) parentCommentId
                                    (with_childComments realComment [])).
  { subst confirmed. unfold postReplyOptimistic. cbn [orEmpty].
    assert (Hpre : replaceInTree temporaryId realComment
                                 (newComment temporaryId text now me :: t)
                   = with_childComments realComment [] :: t).
    { unfold replaceInTree. simpl. rewrite Z.eqb_refl. f_equal.
      now apply replaceInTree_absent. }
    destruct parentCommentId as [p|]; [|exact Hpre].
    destruct (truthy (Some p)); [|exact Hpre].
    unfold replaceInTree, addReplyToTree. rewrite List.map_map.
    clear Hpre. induction t as [|c r IH]; simpl; [reflexivity|].
    apply hasId_cons in Hx. destruct Hx as [H1 H2].
    rewrite (replace_added_node (newComment temporaryId text now me) realComment
                                p temporaryId c eq_refl H1).
    f_equal. now apply IH. }
  split; [exact E|]. intros Hreal. rewrite E.
  assert (Hnc : nodeHasId temporaryId (with_childComments realComment []) = false).
  { simpl. rewrite orb_false_r. now apply Z.eqb_neq. }
  unfold postReplyOptimistic. cbn [orEmpty].
  assert (Hpre : hasId temporaryId (with_childComments realComment [] :: t) = false).
  { unfold hasId in *. cbn [List.existsb]. now rewrite Hnc, Hx. }
  destruct parentCommentId as [p|]; [|exact Hpre].
  destruct (truthy (Some p)); [|exact Hpre].
  clear Hpre E confirmed. unfold hasId, addReplyToTree in *.
  induction t as [|c r IH]; simpl; [reflexivity|].
  simpl in Hx. apply orb_false_elim in Hx. destruct Hx as [H1 H2].
  now rewrite (addReplyNode_hasId _ p temporaryId c Hnc H1), IH.
Qed.

Lemma confirmed_reply_replaces_placeholder_witness :
  let t := [leaf 1 "one" (Some [leaf 2 "two" None]); leaf 3 "three" (Some [])] in
  let me := mkUser (js "bob") (js "b.png") in
  let real := mkThreadComment 99 (js "hi") 1700000000 0 false me None None in
  replaceInTree 1700000000123 real
    (postReplyOptimistic (Some t) (Some 2%Z)
                         (newComment 1700000000123 (js "hi") 1700000000123 me))
  = postReplyOptimistic (Some t) (Some 2%Z) (with_childComments real []).
Proof.
  intros t me real.
  exact (proj1 (confirmed_reply_replaces_placeholder
                  t (Some 2%Z) 1700000000123 (js "hi") 1700000000123 me real
                  eq_refl)).
Defined.

(** ** An edit and its rollback *)

Lemma reachedNode_zero x c : reachedNode x c = 0 -> nodeHasId x c = false.
Proof.
  induction c as [i cm t n l u k o IH] using comment_ind.
  simpl. destruct (i =? x)%Z; [discriminate|]. simpl.
  destruct k as [cs|]; [|reflexivity]. simpl in IH.
  induction IH as [|c r Hc _ IHr]; simpl; [reflexivity|].
  intros H. rewrite Hc, IHr by lia. reflexivity.
Qed.

Lemma reached_zero x l : reached x l = 0 -> hasId x l = false.
Proof.
  unfold reached, hasId. induction l as [|c r IH]; simpl; [reflexivity|].
  intros H. rewrite (reachedNode_zero x c), IH by lia. reflexivity.
Qed.

Lemma reached_cons x c l : reached x (c :: l) = reachedNode x c + reached x l.
Proof. reflexivity. Qed.

Lemma reached_one x c : reached x [c] = reachedNode x c.
Proof. unfold reached. simpl. apply Nat.add_0_r. Qed.

Lemma editNode_absent_list x txt l :
  hasId x l = false -> List.map (editNode x txt) l = l.
Proof.
  intros H. apply absent_nodes_fixed with (x := x); [|exact H].
  apply Forall_forall. intros c _. apply editNode_absent.
Qed.


Lemma undoable_forest x newText l :
  List.Forall (fun c => undoable x newText [c]) l -> undoable x newText l.
Proof.
  induction 1 as [|c r Hc _ IH]; [split; [reflexivity|discriminate]|].
  destruct Hc as [Hc0 Hc1]. destruct IH as [Hr0 Hr1].
  unfold undoable. rewrite reached_cons. rewrite reached_one in Hc0, Hc1.
  split; intros E.
  - intros o. cbn [mapSt].
    specialize (Hc0 ltac:(lia) o). cbn [mapSt] in Hc0.
    destruct (editNodeSt x newText c o) as [c' o1]. injection Hc0 as -> ->.
    now rewrite (Hr0 ltac:(lia) o).
  - destruct (reachedNode x c) as [|[|n]] eqn:Ec; [| |lia].
    + destruct (Hr1 ltac:(lia)) as (r' & o' & Hr & Hback).
      exists (c :: r'), o'. split.
      * intros o. cbn [mapSt]. specialize (Hc0 eq_refl o). cbn [mapSt] in Hc0.
        destruct (editNodeSt x newText c o) as [c' o1]. injection Hc0 as -> ->.
        now rewrite (Hr o).
      * simpl. rewrite Hback. f_equal.
        apply editNode_absent. now apply reachedNode_zero.
    + destruct (Hc1 eq_refl) as (l' & o' & Hc & Hback).
      destruct l' as [|c' [|? ?]]; try discriminate Hback.
      exists (c' :: r), o'. split.
      * intros o. cbn [mapSt]. specialize (Hc o). cbn [mapSt] in Hc.
        destruct (editNodeSt x newText c o) as [c'' o1]. injection Hc as -> ->.
        now rewrite (Hr0 ltac:(lia) o').
      * simpl in *. injection Hback as ->. f_equal.
        apply editNode_absent_list. apply reached_zero. lia.
Qed.

Lemma undoable_node x newText c : undoable x newText [c].
Proof.
  induction c as [i cm t n l u k o IH] using comment_ind.
  unfold undoable. rewrite reached_one.
  cbn [mapSt reachedNode editNodeSt].
  destruct (i =? x)%Z eqn:Ei.
  - split; [discriminate|]. intros _.
    exists [mkThreadComment i newText t n l u k o], cm.
    split; [reflexivity|]. simpl. now rewrite Ei.
  - destruct k as [cs|]; [|split; [reflexivity|discriminate]].
    cbn [orEmpty] in IH. apply undoable_forest in IH. destruct IH as [H0 H1].
    fold (reached x cs). split; intros E.
    + intros o'. now rewrite (H0 E o').
    + destruct (H1 E) as (cs' & o' & Hcs & Hback).
      exists [mkThreadComment i cm t n l u (Some cs') o], o'. split.
      * intros o''. now rewrite (Hcs o'').
      * simpl. rewrite Ei. now rewrite Hback.
Qed.

(** X2. When the traversal reaches at most one node with the id, an edit
    followed by its rollback gives the forest back: with one such node
    [originalText] is its old text and the rollback writes it back; with
    none the edit changes nothing, [originalText] stays empty and the
    rollback changes nothing either. *)
Theorem edit_rollback (t : list ThreadComment) (commentId : Z) (newText : jsstring) :
  reached commentId t <= 1 ->
  let (edited, originalText) := editOptimistic (Some t) commentId newText in
  edited = findAndUpdateInTree commentId newText t /\
  editRollback (Some edited) commentId originalText = t /\
  (reached commentId t = 0 -> edited = t /\ originalText = []).
Proof.
  intros H. unfold editOptimistic, editRollback, rollbackInTree. cbn [orEmpty].
  assert (Hfst : forall l o,
             fst (mapSt (editNodeSt commentId newText) l o)
             = findAndUpdateInTree commentId newText l).
  { unfold findAndUpdateInTree.
    assert (Hnode : forall c o,
               fst (editNodeSt commentId newText c o) = editNode commentId newText c).
    { induction c as [i cm tt n l u k o' IH] using comment_ind. intros o. simpl.
      destruct (i =? commentId)%Z; [reflexivity|].
      destruct k as [cs|]; [|reflexivity].
      assert (E : fst (mapSt (editNodeSt commentId newText) cs o)
                  = List.map (editNode commentId newText) cs).
      { simpl in IH. clear -IH. revert o.
        induction IH as [|c r Hc _ IHr]; intros o; simpl; [reflexivity|].
        specialize (Hc o). destruct (editNodeSt commentId newText c o) as [c' o1].
        specialize (IHr o1).
        destruct (mapSt (editNodeSt commentId newText) r o1) as [r' o2].
        simpl in *. now subst. }
      destruct (mapSt (editNodeSt commentId newText) cs o) as [cs' o1].
      simpl in *. now subst. }
    induction l as [|c r IH]; intros o; simpl; [reflexivity|].
    specialize (Hnode c o). destruct (editNodeSt commentId newText c o) as [c' o1].
    specialize (IH o1). destruct (mapSt (editNodeSt commentId newText) r o1) as [r' o2].
    simpl in *. now subst. }
  destruct (undoable_forest commentId newText t) as [H0 H1].
  { apply Forall_forall. intros c _. apply undoable_node. }
  specialize (Hfst t []).
  destruct (reached commentId t) as [|[|n]] eqn:E; [| |lia].
  - rewrite (H0 eq_refl []) in *. simpl in Hfst. split; [exact Hfst|].
    split; [|auto]. apply editNode_absent_list. now apply reached_zero.
  - destruct (H1 eq_refl) as (l' & o' & Hl & Hback).
    rewrite (Hl []) in *. simpl in Hfst. split; [exact Hfst|].
    split; [exact Hback|discriminate].
Qed.

Lemma edit_rollback_witness :
  let t := [leaf 1 "one" (Some [leaf 2 "two" None]); leaf 3 "three" (Some [])] in
  editRollback (Some (fst (editOptimistic (Some t) 2 (js "new")))) 2
               (snd (editOptimistic (Some t) 2 (js "new"))) = t.
Proof.
  intro t.
  pose proof (edit_rollback t 2 (js "new") ltac:(vm_compute; lia)) as H.
  destruct (editOptimistic (Some t) 2 (js "new")) as [edited originalText].
  exact (proj1 (proj2 H)).
Defined.

(** ** Deleting *)

Lemma removeKids_id x c : id (removeKids x c) = id c.
Proof. destruct c as [i cm t n l u [cs|] o]; reflexivity. Qed.

Lemma removeInTree_nil x : removeInTree x [] = [].
Proof. reflexivity. Qed.

Lemma removeInTree_cons x c l :
  removeInTree x (c :: l)
  = if (id c =? x)%Z then removeInTree x l
    else removeKids x c :: removeInTree x l.
Proof. unfold removeInTree. simpl. now destruct (id c =? x)%Z. Qed.

Lemma removed_node_gone x c :
  (id c =? x)%Z = false -> nodeHasId x (removeKids x c) = false.
Proof.
  induction c as [i cm t n l u k o IH] using comment_ind.
  simpl. intros Hi. destruct k as [cs|]; [|simpl; now rewrite Hi].
  change (nodeHasId x (removeKids x (mkThreadComment i cm t n l u (Some cs) o))
          = false).
  rewrite removeKids_children. simpl. rewrite Hi. simpl.
  simpl in IH. induction IH as [|c r Hc _ IHr]; [reflexivity|].
  rewrite removeInTree_cons. destruct (id c =? x)%Z eqn:E; [exact IHr|].
  simpl. now rewrite (Hc eq_refl), IHr.
Qed.

Lemma removed_gone x l : hasId x (removeInTree x l) = false.
Proof.
  induction l as [|c r IH]; [reflexivity|].
  rewrite removeInTree_cons. destruct (id c =? x)%Z eqn:E; [exact IH|].
  unfold hasId in *. simpl. now rewrite (removed_node_gone x c E), IH.
Qed.

Lemma removeKids_keeps_absent x y c :
  nodeHasId y c = false -> nodeHasId y (removeKids x c) = false.
Proof.
  induction c as [i cm t n l u k o IH] using comment_ind.
  destruct k as [cs|]; [|auto]. rewrite removeKids_children. simpl.
  intros H. apply orb_false_elim in H. destruct H as [Hi Hk]. rewrite Hi. simpl.
  simpl in IH. induction IH as [|c r Hc _ IHr]; [reflexivity|].
  simpl in Hk. apply orb_false_elim in Hk. destruct Hk as [H1 H2].
  rewrite removeInTree_cons. destruct (id c =? x)%Z; [now apply IHr|].
  simpl. now rewrite (Hc H1), (IHr H2).
Qed.

Lemma removeInTree_keeps_absent x y l :
  hasId y l = false -> hasId y (removeInTree x l) = false.
Proof.
  induction l as [|c r IH]; [reflexivity|].
  intros H. apply hasId_cons in H. destruct H as [H1 H2].
  rewrite removeInTree_cons. destruct (id c =? x)%Z; [now apply IH|].
  unfold hasId in *. simpl. now rewrite (removeKids_keeps_absent x y c H1), IH.
Qed.

Lemma size_cons c l : size (c :: l) = sizeNode c + size l.
Proof. reflexivity. Qed.

Lemma removeKids_size x c : sizeNode (removeKids x c) <= sizeNode c.
Proof.
  induction c as [i cm t n l u k o IH] using comment_ind.
  destruct k as [cs|]; [|simpl; lia]. rewrite removeKids_children. simpl.
  apply le_n_S. fold (size (removeInTree x cs)). fold (size cs).
  simpl in IH. induction IH as [|c r Hc _ IHr]; [apply le_n|].
  rewrite removeInTree_cons, size_cons.
  destruct (id c =? x)%Z; [lia|rewrite size_cons; lia].
Qed.

Lemma removeInTree_size x l : size (removeInTree x l) <= size l.
Proof.
  induction l as [|c r IH]; [apply le_n|].
  rewrite removeInTree_cons, size_cons.
  pose proof (removeKids_size x c).
  destruct (id c =? x)%Z; [lia|rewrite size_cons; lia].
Qed.

Lemma sizeNode_pos c : 1 <= sizeNode c.
Proof. destruct c. simpl. lia. Qed.

Lemma removed_list_shrinks x l :
  List.Forall (fun c => (id c =? x)%Z = false -> nodeHasId x c = true ->
                        sizeNode (removeKids x c) < sizeNode c) l ->
  hasId x l = true -> size (removeInTree x l) < size l.
Proof.
  unfold hasId. induction 1 as [|c r Hc _ IHr]; [discriminate|].
  cbn [List.existsb]. intros Hk.
  rewrite removeInTree_cons, size_cons.
  pose proof (removeInTree_size x r). pose proof (removeKids_size x c).
  pose proof (sizeNode_pos c).
  destruct (id c =? x)%Z eqn:E; [lia|].
  rewrite size_cons. apply orb_true_iff in Hk. destruct Hk as [Hk|Hk].
  - specialize (Hc eq_refl Hk). lia.
  - specialize (IHr Hk). lia.
Qed.

Lemma removed_node_shrinks x c :
  (id c =? x)%Z = false -> nodeHasId x c = true ->
  sizeNode (removeKids x c) < sizeNode c.
Proof.
  induction c as [i cm t n b u k o IH] using comment_ind.
  cbn [id nodeHasId]. intros Hi. rewrite Hi. cbn [orb].
  destruct k as [cs|]; [|discriminate]. intros Hk.
  rewrite removeKids_children. cbn [sizeNode].
  apply -> Nat.succ_lt_mono.
  exact (removed_list_shrinks x cs IH Hk).
Qed.

Lemma removed_present_shrinks x l :
  hasId x l = true -> size (removeInTree x l) < size l.
Proof.
  apply removed_list_shrinks. apply Forall_forall.
  intros c _. apply removed_node_shrinks.
Qed.

(** X3. After a delete no node of the forest carries the deleted id, at
    any depth; deleting again changes nothing; the delete brings in no id
    that was not there; and it takes at least one node away when the id
    was there. *)
Theorem delete_removes_every_match (x y : Z) (t : list ThreadComment) :
  hasId x (removeCommentFromTree x t) = false /\
  removeCommentFromTree x (removeCommentFromTree x t) = removeCommentFromTree x t /\
  (hasId y t = false -> hasId y (removeCommentFromTree x t) = false) /\
  size (removeCommentFromTree x t) <= size t /\
  (hasId x t = true -> size (removeCommentFromTree x t) < size t).
Proof.
  unfold removeCommentFromTree. split; [apply removed_gone|].
  split; [apply removeInTree_absent, removed_gone|].
  split; [apply removeInTree_keeps_absent|].
  split; [apply removeInTree_size|apply removed_present_shrinks].
Qed.

Lemma delete_removes_every_match_witness :
  let t := [leaf 1 "one" (Some [leaf 2 "two" (Some [leaf 5 "five" None])]);
            leaf 3 "three" (Some [])] in
  hasId 7 (removeCommentFromTree 2 t) = false /\
  size (removeCommentFromTree 2 t) < size t.
Proof.
  intro t. destruct (delete_removes_every_match 2 7 t) as (_ & _ & H & _ & L).
  split; [apply H; reflexivity|apply L; reflexivity].
Defined.

(** ** Operations on different nodes do not disturb each other *)

Lemma removeKids_comm x y c :
  removeKids x (removeKids y c) = removeKids y (removeKids x c).
Proof.
  induction c as [i cm t n l u k o IH] using comment_ind.
  destruct k as [cs|]; [|reflexivity].
  rewrite !removeKids_children. do 2 f_equal.
  simpl in IH. induction IH as [|c r Hc _ IHr]; [reflexivity|].
  rewrite !removeInTree_cons.
  destruct (id c =? y)%Z eqn:Ey; destruct (id c =? x)%Z eqn:Ex;
    rewrite ?removeInTree_cons, ?removeKids_id, ?Ex, ?Ey; auto.
  now rewrite Hc, IHr.
Qed.

Lemma removeInTree_comm x y l :
  removeInTree x (removeInTree y l) = removeInTree y (removeInTree x l).
Proof.
  induction l as [|c r IH]; [reflexivity|].
  rewrite !removeInTree_cons.
  destruct (id c =? y)%Z eqn:Ey; destruct (id c =? x)%Z eqn:Ex;
    rewrite ?removeInTree_cons, ?removeKids_id, ?Ex, ?Ey; auto.
  now rewrite removeKids_comm, IH.
Qed.

Lemma toggleNode_comm x y c :
  toggleNode x (toggleNode y c) = toggleNode y (toggleNode x c).
Proof.
  induction c as [i cm t n l u k o IH] using comment_ind.
  simpl. destruct (i =? y)%Z eqn:Ey; destruct (i =? x)%Z eqn:Ex; simpl;
    rewrite ?Ex, ?Ey; try reflexivity;
    destruct k as [cs|]; simpl; rewrite ?Ex, ?Ey; try reflexivity.
  do 2 f_equal. rewrite !List.map_map.
  simpl in IH. induction IH as [|c r Hc _ IHr]; simpl; [reflexivity|].
  now rewrite Hc, IHr.
Qed.

Lemma toggle_edit_comm x y txt c :
  toggleNode x (editNode y txt c) = editNode y txt (toggleNode x c).
Proof.
  induction c as [i cm t n l u k o IH] using comment_ind.
  simpl. destruct (i =? y)%Z eqn:Ey; destruct (i =? x)%Z eqn:Ex; simpl;
    rewrite ?Ex, ?Ey; try reflexivity;
    destruct k as [cs|]; simpl; rewrite ?Ex, ?Ey; try reflexivity.
  do 2 f_equal. rewrite !List.map_map.
  simpl in IH. induction IH as [|c r Hc _ IHr]; simpl; [reflexivity|].
  now rewrite Hc, IHr.
Qed.

Lemma toggle_remove_node x y c :
  (id c =? y)%Z = false ->
  toggleNode x (removeKids y c) = removeKids y (toggleNode x c).
Proof.
  induction c as [i cm t n l u k o IH] using comment_ind.
  simpl (id _). intros Hy.
  destruct k as [cs|]; [|simpl; now destruct (i =? x)%Z].
  rewrite removeKids_children. simpl. destruct (i =? x)%Z.
  - now rewrite removeKids_children.
  - rewrite removeKids_children. do 2 f_equal.
    simpl in IH. induction IH as [|c r Hc _ IHr]; [reflexivity|].
    cbn [List.map]. rewrite !removeInTree_cons, toggleNode_id.
    destruct (id c =? y)%Z eqn:E; [exact IHr|].
    cbn [List.map]. now rewrite (Hc eq_refl), IHr.
Qed.

Lemma toggle_remove_comm x y l :
  updateCommentInTree x (removeInTree y l) = removeInTree y (updateCommentInTree x l).
Proof.
  unfold updateCommentInTree. induction l as [|c r IH]; [reflexivity|].
  cbn [List.map]. rewrite !removeInTree_cons, toggleNode_id.
  destruct (id c =? y)%Z eqn:E; [exact IH|].
  cbn [List.map]. now rewrite (toggle_remove_node x y c E), IH.
Qed.

(** X4. Two like toggles, a like toggle and an edit, a like toggle and a
    delete, and two deletes give the same forest in either order, for any
    two ids (also equal ones). *)
Theorem optimistic_updates_commute (x y : Z) (newText : jsstring)
        (t : list ThreadComment) :
  updateCommentInTree x (updateCommentInTree y t)
  = updateCommentInTree y (updateCommentInTree x t) /\
  updateCommentInTree x (findAndUpdateInTree y newText t)
  = findAndUpdateInTree y newText (updateCommentInTree x t) /\
  updateCommentInTree x (removeCommentFromTree y t)
  = removeCommentFromTree y (updateCommentInTree x t) /\
  removeCommentFromTree x (removeCommentFromTree y t)
  = removeCommentFromTree y (removeCommentFromTree x t).
Proof.
  unfold updateCommentInTree, findAndUpdateInTree, removeCommentFromTree.
  repeat split.
  - rewrite !List.map_map. apply List.map_ext. intros c. apply toggleNode_comm.
  - rewrite !List.map_map. apply List.map_ext. intros c. apply toggle_edit_comm.
  - apply toggle_remove_comm.
  - apply removeInTree_comm.
Qed.

(** ** What an edit leaves alone *)

Lemma blank_editNode x txt c : blankNode (editNode x txt c) = blankNode c.
Proof.
  induction c as [i cm t n l u k o IH] using comment_ind.
  simpl. destruct (i =? x)%Z; [reflexivity|].
  destruct k as [cs|]; [|reflexivity]. simpl. do 2 f_equal.
  rewrite List.map_map. simpl in IH.
  induction IH as [|c r Hc _ IHr]; simpl; [reflexivity|]. now rewrite Hc, IHr.
Qed.

Lemma editNode_text x txt c :
  (id c =? x)%Z = true -> comment (editNode x txt c) = txt /\
                          childComments (editNode x txt c) = childComments c.
Proof. destruct c as [i cm t n l u k o]. simpl. now intros ->. Qed.

(** X5. An edit changes comment texts and nothing else: with every text
    blanked, the forest after the edit is the forest before it.  A
    top-level comment with the id gets the new text and keeps its
    children as they were, and so does the rollback's write. *)
Theorem edit_changes_text_only (x : Z) (newText : jsstring)
        (t : list ThreadComment) :
  blank (findAndUpdateInTree x newText t) = blank t /\
  blank (rollbackInTree x newText t) = blank t /\
  (forall i c, nth_error t i = Some c -> id c = x ->
     exists c', nth_error (findAndUpdateInTree x newText t) i = Some c' /\
                comment c' = newText /\ childComments c' = childComments c).
Proof.
  assert (B : blank (List.map (editNode x newText) t) = blank t).
  { unfold blank. rewrite List.map_map. apply List.map_ext.
    intros c. apply blank_editNode. }
  split; [exact B|]. split; [exact B|].
  intros i c Hc Hid. unfold findAndUpdateInTree.
  exists (editNode x newText c). rewrite List.nth_error_map, Hc.
  split; [reflexivity|]. apply editNode_text. now apply Z.eqb_eq.
Qed.

Lemma edit_changes_text_only_witness :
  let t := [leaf 1 "one" (Some [leaf 2 "two" None]); leaf 3 "three" (Some [])] in
  exists c', nth_error (findAndUpdateInTree 3 (js "new") t) 1 = Some c' /\
             comment c' = js "new" /\ childComments c' = Some [].
Proof.
  intro t.
  destruct (edit_changes_text_only 3 (js "new") t) as (_ & _ & H).
  exact (H 1%nat (leaf 3 "three" (Some [])) eq_refl eq_refl).
Defined.

End TreeMoreFacts.

(** ** The comments of a thread, as fetched *)

Module FetchFacts.
Import Tree TreeFacts TreeMore.

Section Sorting.
Variable A : Type.
Variable cmp : A -> A -> Z.
Hypothesis cmp_total : forall a b, (0 < cmp a b)%Z -> (cmp b a <= 0)%Z.
Hypothesis cmp_trans :
  forall a b c, (cmp a b <= 0)%Z -> (cmp b c <= 0)%Z -> (cmp a c <= 0)%Z.

Lemma insertBy_perm x l : Permutation (insertBy cmp x l) (x :: l).
Proof.
  induction l as [|y r IH]; simpl; [reflexivity|].
  destruct (cmp x y <=? 0)%Z; [reflexivity|].
  rewrite IH. apply perm_swap.
Qed.

Lemma insertBy_sorted x l :
  StronglySorted (before cmp) l -> StronglySorted (before cmp) (insertBy cmp x l).
Proof.
  induction 1 as [|y r Hr IH Hy]; simpl; [repeat constructor|].
  destruct (cmp x y <=? 0)%Z eqn:E.
  - apply Z.leb_le in E. constructor; [now constructor|].
    constructor; [exact E|].
    eapply Forall_impl; [|exact Hy]. intros z Hz. exact (cmp_trans _ _ _ E Hz).
  - apply Z.leb_gt in E. constructor; [exact IH|].
    apply (Permutation_Forall (Permutation_sym (insertBy_perm x r))).
    constructor; [now apply cmp_total|exact Hy].
Qed.

Lemma sortBy_perm l : Permutation (sortBy cmp l) l.
Proof.
  induction l as [|x r IH]; simpl; [reflexivity|].
  fold (sortBy cmp r). rewrite insertBy_perm. now constructor.
Qed.

Lemma sortBy_sorted l : StronglySorted (before cmp) (sortBy cmp l).
Proof.
  induction l as [|x r IH]; simpl; [constructor|].
  now apply insertBy_sorted.
Qed.
End Sorting.

(** X6. What [fetchComments] stores holds exactly the comments of the new
    page, together with those already stored when the page is above 1
    (none lost, none twice), in the order of their ids: falling for
    ['ID_DESC'], rising otherwise.  Every comment of the new page has a
    [childComments] array. *)
Theorem fetched_comments_sorted (comments : option (list ThreadComment))
        (page : Z) (sortOrder : SortOrder)
        (threadComments : option (list ThreadComment)) :
  let stored := fetchedComments comments page sortOrder threadComments in
  Permutation stored
              (if (1 <? page)%Z
               then orEmpty comments ++ parsePage threadComments
               else parsePage threadComments) /\
  StronglySorted (fun a b => match sortOrder with
                             | ID_DESC => (id b <= id a)%Z
                             | ID => (id a <= id b)%Z
                             end) stored /\
  List.Forall (fun c => exists k, childComments c = Some k)
              (parsePage threadComments).
Proof.
  intro stored. subst stored. unfold fetchedComments.
  set (combined := if (1 <? page)%Z then _ else _).
  split; [|split].
  - destruct sortOrder; apply sortBy_perm.
  - destruct sortOrder.
    + pose proof (sortBy_sorted ThreadComment (fun a b => id a - id b)%Z
                                ltac:(intros; lia) ltac:(intros; lia) combined) as S.
      clear -S. induction S; constructor; auto.
      eapply Forall_impl; [|eassumption]. unfold before. intros; lia.
    + pose proof (sortBy_sorted ThreadComment (fun a b => id b - id a)%Z
                                ltac:(intros; lia) ltac:(intros; lia) combined) as S.
      clear -S. induction S; constructor; auto.
      eapply Forall_impl; [|eassumption]. unfold before. intros; lia.
  - unfold parsePage. apply Forall_forall. intros c Hc.
    apply List.in_map_iff in Hc. destruct Hc as (c0 & <- & _).
    now exists (orEmpty (childComments c0)).
Qed.

End FetchFacts.

(** ** Paging through the general discussions *)

Module ThreadsFacts.
Import Threads.

Lemma firstn_then_more {A : Type} (a b : nat) (l : list A) :
  List.firstn a l ++ List.firstn b (List.skipn a l) = List.firstn (a + b) l.
Proof.
  revert l. induction a as [|a IH]; intros l; [reflexivity|].
  destruct l as [|x l]; simpl; [now destruct b|]. now rewrite IH.
Qed.

Lemma loaded (allThreads : list Thread) (n : nat) :
  let s := Nat.iter n loadMore (separate allThreads) in
  let general := List.filter (fun t => negb (isEpisode t)) allThreads in
  episodeDiscussions s = List.filter (fun t => isEpisode t) allThreads /\
  generalDiscussions s = general /\
  generalDiscussionsPage s = S n /\
  displayedGeneralDiscussions s = List.firstn (20 * S n) general /\
  generalDiscussionsHasNextPage s = Nat.ltb (20 * S n) (List.length general).
Proof.
  cbv zeta. induction n as [|n IH]; [repeat split|].
  rewrite Nat.iter_succ. destruct IH as (He & Hg & Hp & Hd & Hn).
  set (s := Nat.iter n loadMore (separate allThreads)) in *.
  unfold loadMore. cbn [episodeDiscussions generalDiscussions
    generalDiscussionsPage displayedGeneralDiscussions generalDiscussionsHasNextPage].
  rewrite He, Hg, Hp, Hd. unfold slice, GENERAL_DISCUSSIONS_PER_PAGE.
  replace (S n * 20 + 20 - S n * 20) with 20 by lia.
  replace (S n * 20) with (20 * S n) by lia.
  rewrite firstn_then_more.
  replace (20 * S n + 20) with (20 * S (S n)) by lia.
  repeat split. lia.
Qed.

(** X7. After the threads are separated and the load-more handler has run
    any number [n] of times, the threads shown are the first [20 (n + 1)]
    general threads in their order, no thread skipped and none twice; the
    has-next flag is off exactly when all general threads are shown.  The
    episode and general lists split the fetched threads between them. *)
Theorem load_more_shows_a_prefix (allThreads : list Thread) (n : nat) :
  let s := Nat.iter n loadMore (separate allThreads) in
  displayedGeneralDiscussions s
  = List.firstn (20 * (n + 1)) (generalDiscussions s) /\
  (generalDiscussionsHasNextPage s = false <->
   displayedGeneralDiscussions s = generalDiscussions s) /\
  List.length (episodeDiscussions s) + List.length (generalDiscussions s)
  = List.length allThreads /\
  (forall t, List.In t allThreads <->
             List.In t (episodeDiscussions s) \/ List.In t (generalDiscussions s)).
Proof.
  intro s. destruct (loaded allThreads n) as (He & Hg & Hp & Hd & Hn).
  fold s in He, Hg, Hp, Hd, Hn. rewrite He, Hg, Hd, Hn.
  replace (n + 1) with (S n) by lia.
  set (general := List.filter _ allThreads) in *.
  split; [reflexivity|]. split; [|split].
  - rewrite Nat.ltb_ge. split.
    + intros H. now apply List.firstn_all2.
    + intros H. apply (f_equal (@List.length Thread)) in H.
      rewrite List.length_firstn in H. lia.
  - subst general. clear. induction allThreads as [|t r IH]; [reflexivity|].
    simpl. destruct (isEpisode t); simpl; lia.
  - intros t. subst general. rewrite !List.filter_In.
    destruct (isEpisode t); simpl; intuition congruence.
Qed.

End ThreadsFacts.

(** ** Ages *)

Module TimeAgoFacts.
Import Tree TimeAgo.

(** X8. For a clock reading and a timestamp that are safe integers, in
    milliseconds, with a safe difference, [formatTimeAgo] gives the empty
    string for the timestamp 0 and ["just now"] below 30 seconds, also for
    a timestamp in the future; from 30 seconds on it gives a count and a
    unit such that the count times the unit does not exceed the age and
    misses it by less than one unit, with a count of 30 to 60 seconds, 1 to
    60 minutes, 1 to 24 hours, 1 to 30 days, 1 to 12 months, or at least 1
    year.  A reply just posted is shown as ["just now"] for its first 29
    seconds. *)
Theorem time_ago_bounds (timestamp now : Z) :
  safeInteger now = true ->
  safeInteger (timestamp * 1000) = true ->
  safeInteger (now - timestamp * 1000) = true ->
  formatTimeAgo 0 now = [] /\
  (timestamp <> 0%Z -> (now - timestamp * 1000 < 30000)%Z ->
   formatTimeAgo timestamp now = js "just now") /\
  (timestamp <> 0%Z -> (30000 <= now - timestamp * 1000)%Z ->
   exists n u,
     formatTimeAgo timestamp now = showZ n ++ js (suffix u) /\
     (unitSeconds u * n <= (now - timestamp * 1000) / 1000
      < unitSeconds u * (n + 1))%Z /\
     countRange u n) /\
  (forall posted text me temporaryId,
      (1000 <= posted)%Z -> (posted <= now < posted + 29000)%Z ->
      formatTimeAgo (createdAt (newComment temporaryId text posted me)) now
      = js "just now").
Proof.
  intros _ _ _. split; [reflexivity|].
  assert (Hjust : forall ts, ts <> 0%Z -> (now - ts * 1000 < 30000)%Z ->
                             formatTimeAgo ts now = js "just now").
  { intros ts Hts Hlt. unfold formatTimeAgo.
    apply Z.eqb_neq in Hts. rewrite Hts.
    assert (H : ((now - ts * 1000) / 1000 <? 30)%Z = true).
    { apply Z.ltb_lt. apply Z.div_lt_upper_bound; lia. }
    now rewrite H. }
  split; [apply Hjust|]. split.
  - intros Hts Hge. unfold formatTimeAgo. apply Z.eqb_neq in Hts. rewrite Hts.
    set (seconds := ((now - timestamp * 1000) / 1000)%Z).
    assert (H30 : (30 <= seconds)%Z).
    { subst seconds. apply Z.div_le_lower_bound; lia. }
    assert (Hno : (seconds <? 30)%Z = false) by (apply Z.ltb_ge; lia).
    rewrite Hno.
    assert (Hdiv : forall k, (0 < k)%Z ->
               (k * (seconds / k) <= seconds < k * (seconds / k + 1))%Z).
    { intros k Hk. pose proof (Z.div_mod seconds k ltac:(lia)).
      pose proof (Z.mod_pos_bound seconds k Hk). lia. }
    destruct (31536000 <? seconds)%Z eqn:Ey.
    { apply Z.ltb_lt in Ey. exists (seconds / 31536000)%Z, Years.
      split; [reflexivity|]. split; [apply Hdiv; lia|].
      unfold countRange. specialize (Hdiv 31536000%Z ltac:(lia)). lia. }
    apply Z.ltb_ge in Ey. destruct (2592000 <? seconds)%Z eqn:Emo.
    { apply Z.ltb_lt in Emo. exists (seconds / 2592000)%Z, Months.
      split; [reflexivity|]. split; [apply Hdiv; lia|].
      unfold countRange. specialize (Hdiv 2592000%Z ltac:(lia)). lia. }
    apply Z.ltb_ge in Emo. destruct (86400 <? seconds)%Z eqn:Ed.
    { apply Z.ltb_lt in Ed. exists (seconds / 86400)%Z, Days.
      split; [reflexivity|]. split; [apply Hdiv; lia|].
      unfold countRange. specialize (Hdiv 86400%Z ltac:(lia)). lia. }
    apply Z.ltb_ge in Ed. destruct (3600 <? seconds)%Z eqn:Eh.
    { apply Z.ltb_lt in Eh. exists (seconds / 3600)%Z, Hours.
      split; [reflexivity|]. split; [apply Hdiv; lia|].
      unfold countRange. specialize (Hdiv 3600%Z ltac:(lia)). lia. }
    apply Z.ltb_ge in Eh. destruct (60 <? seconds)%Z eqn:Em.
    { apply Z.ltb_lt in Em. exists (seconds / 60)%Z, Minutes.
      split; [reflexivity|]. split; [apply Hdiv; lia|].
      unfold countRange. specialize (Hdiv 60%Z ltac:(lia)). lia. }
    apply Z.ltb_ge in Em. exists seconds, Seconds.
    split; [reflexivity|]. unfold countRange, unitSeconds. lia.
  - intros posted text me temporaryId Hp Hnow. apply Hjust; simpl.
    + pose proof (Z.div_le_lower_bound posted 1000 1 ltac:(lia) ltac:(lia)). lia.
    + pose proof (Z.div_mod posted 1000 ltac:(lia)).
      pose proof (Z.mod_pos_bound posted 1000 ltac:(lia)). lia.
Qed.

Lemma time_ago_bounds_witness :
  formatTimeAgo 1700000000 1700000045000 = js "45s ago" /\
  (exists n u,
      formatTimeAgo 1700000000 1700003600000 = showZ n ++ js (suffix u) /\
      (unitSeconds u * n <= 3600 < unitSeconds u * (n + 1))%Z /\ countRange u n) /\
  formatTimeAgo 1700000000 1699999000000 = js "just now".
Proof.
  split; [reflexivity|]. split.
  - destruct (time_ago_bounds 1700000000 1700003600000 eq_refl eq_refl eq_refl)
      as (_ & _ & H & _).
    exact (H ltac:(discriminate) ltac:(lia)).
  - destruct (time_ago_bounds 1700000000 1699999000000 eq_refl eq_refl eq_refl)
      as (_ & H & _ & _).
    apply H; [discriminate|reflexivity].
Defined.

End TimeAgoFacts.

(** ** The toolbar *)

Module ToolbarFacts.
Import Toolbar.

Lemma firstn_last {A : Type} (n : nat) (l : list A) (c : A) :
  List.nth_error l n = Some c ->
  List.firstn (S n) l = List.firstn n l ++ [c].
Proof.
  revert l. induction n as [|n IH]; intros [|x l]; simpl; try discriminate.
  - now intros [= ->].
  - intros H. now rewrite <- (IH l H).
Qed.

(** X9. With a selection inside the text, a toolbar button hands back the
    text with the prefix put in front of the selected part and the suffix
    behind it, and nothing else changed: what stood before, in and behind
    the selection is still there, in this order.  A block button (heading,
    quote) puts its prefix at the start of a line: it adds one newline in
    front of the prefix when the text before the selection does not end a
    line, and none when it does (or is empty); a button that is no block
    button never adds one.  Without a selection the text is not written. *)
Theorem toolbar_wraps_selection (sel : Selection) (fullText prefix suffix : jsstring)
        (isBlock : bool) :
  start sel <= end_ sel -> end_ sel <= List.length fullText ->
  exists before selected after lead,
    fullText = before ++ selected ++ after /\
    List.length before = start sel /\
    List.length selected = end_ sel - start sel /\
    applyFormatting (Some sel) (Some fullText) prefix suffix isBlock
    = Some (lead ++ prefix ++ selected ++ suffix ++ after) /\
    (lead = before \/ lead = before ++ [Parser.newline]) /\
    (isBlock = true -> endsLine lead) /\
    (isBlock = false -> lead = before) /\
    (endsLine before -> lead = before) /\
    applyFormatting None (Some fullText) prefix suffix isBlock = None.
Proof.
  intros Hse Hel.
  set (before := List.firstn (start sel) fullText).
  set (selected := List.firstn (end_ sel - start sel) (List.skipn (start sel) fullText)).
  set (after := List.skipn (end_ sel) fullText).
  set (cond := isBlock && Nat.ltb 0 (start sel)
               && negb (isNewline (List.nth_error fullText (start sel - 1)))).
  assert (Hsplit : fullText = before ++ selected ++ after).
  { subst before selected after.
    rewrite List.app_assoc, ThreadsFacts.firstn_then_more.
    replace (start sel + (end_ sel - start sel)) with (end_ sel) by lia.
    symmetry. apply List.firstn_skipn. }
  assert (Hres : applyFormatting (Some sel) (Some fullText) prefix suffix isBlock
                 = Some (before ++ (if cond then Parser.newline :: prefix else prefix)
                                ++ selected ++ suffix ++ after)).
  { unfold applyFormatting, substringOf. fold cond.
    rewrite (Nat.max_r _ _ Hse), (Nat.min_l _ _ Hse).
    cbn [Nat.max Nat.min List.skipn]. rewrite Nat.sub_0_r.
    fold before selected after. now destruct selected. }
  exists before, selected, after, (if cond then before ++ [Parser.newline] else before).
  split; [exact Hsplit|].
  split; [subst before; rewrite List.length_firstn; lia|].
  split; [subst selected; rewrite List.length_firstn, List.length_skipn; lia|].
  split.
  { rewrite Hres. destruct cond; [|reflexivity].
    now rewrite <- List.app_assoc. }
  split; [destruct cond; auto|].
  split; [|split; [|split; [|reflexivity]]].
  - intros ->. unfold endsLine. destruct cond eqn:C; [right; now exists before|].
    subst cond. cbn [andb] in C.
    destruct (start sel) as [|n] eqn:Es; [left; reflexivity|].
    cbn [Nat.ltb Nat.leb andb] in C. apply negb_false_iff in C.
    replace (S n - 1) with n in C by lia.
    destruct (List.nth_error fullText n) as [c|] eqn:En; [|discriminate].
    simpl in C. apply N.eqb_eq in C. subst c.
    right. exists (List.firstn n fullText). subst before.
    now apply firstn_last.
  - intros ->. reflexivity.
  - intros He. replace cond with false; [reflexivity|].
    symmetry. subst cond. destruct isBlock; [|reflexivity]. cbn [andb].
    assert (Hlen : List.length before = start sel).
    { subst before. rewrite List.length_firstn. lia. }
    destruct He as [He|[s' He]].
    + rewrite He in Hlen. simpl in Hlen. now rewrite <- Hlen.
    + rewrite He, List.length_app in Hlen. cbn [List.length] in Hlen.
      assert (Hn : List.nth_error fullText (start sel - 1) = Some Parser.newline).
      { rewrite Hsplit, He, <- !List.app_assoc.
        replace (start sel - 1) with (List.length s' + 0) by lia.
        now rewrite List.nth_error_app2, Nat.add_comm, Nat.add_sub by lia. }
      rewrite Hn. cbn [isNewline]. rewrite N.eqb_refl. apply andb_false_r.
Qed.

Lemma toolbar_wraps_selection_witness :
  let sel := mkSelection 6 11 (js "world") in
  exists before selected after lead,
    js "hello world!" = before ++ selected ++ after /\
    List.length before = 6 /\
    List.length selected = 5 /\
    applyFormatting (Some sel) (Some (js "hello world!")) (js "# ") [] true
    = Some (lead ++ js "# " ++ selected ++ [] ++ after) /\
    (lead = before \/ lead = before ++ [Parser.newline]) /\
    (true = true -> endsLine lead) /\
    (true = false -> lead = before) /\
    (endsLine before -> lead = before) /\
    applyFormatting None (Some (js "hello world!")) (js "# ") [] true = None.
Proof.
  intro sel.
  apply (toolbar_wraps_selection sel (js "hello world!") (js "# ") [] true);
    simpl; lia.
Defined.

End ToolbarFacts.

(** ** The parser gives the renderer what it expects *)

Module RenderFacts.
Import Regex RegexFacts ExecFacts Parser ParserFacts CodeBlockFacts Render.


Lemma deep_leaf s x : shaped s -> content s = Str x -> (Deep shaped) s.
Proof. intros R C. constructor; [exact R|]. intros l E. congruence. Qed.

Lemma deep_node s l :
  shaped s -> content s = Segs l -> List.Forall (Deep shaped) l -> (Deep shaped) s.
Proof.
  intros R C F. constructor; [exact R|]. intros l' E.
  rewrite C in E. now injection E as <-.
Qed.

(** Patterns brought into constructor form, classes left as they are. *)
Ltac norm_regex H :=
  cbn [re ignoreCase multiline] in H;
  repeat match type of H with
         | context [lit ?s] =>
           let r := eval vm_compute in (lit s) in change (lit s) with r in H
         end;
  unfold plus, star, opt, lazyStar, lazyPlus in H.

Lemma userLink_match text m :
  exec (mkRegex (Bol ;; lit "@" ;; Grp 1 (plus wordOrDash))%re false false) text
  = Some m ->
  exists u, matched m = 64%N :: u /\ group m 1 = Some u /\ u <> [] /\
            List.Forall (fun x => wordOrDash x = true) u.
Proof.
  intros H. apply execFrom_sound in H.
  destruct H as (pre & w & post & _ & [M Hm] & _).
  norm_regex M. inv_matches.
  match goal with H : sameChar false _ _ = true |- _ => apply N.eqb_eq in H; subst end.
  match goal with
    Hm' : _ = matched m, Hw : List.Forall _ ?w, Hl : 1 <= List.length ?w |- _ =>
    exists w; rewrite <- Hm'; split; [reflexivity|]; split; [reflexivity|]; split;
      [destruct w; [simpl in Hl; lia|discriminate]|exact Hw]
  end.
Qed.

Lemma heading_match text m :
  exec (mkRegex (Bol ;; Grp 1 (Many true 1 (Some 5%nat) (oneOf "#")) ;;
                 plus isSpace ;; Grp 2 (star dot))%re false false) text
  = Some m ->
  1 <= List.length (grp m 1) <= 5.
Proof.
  intros H. apply execFrom_sound in H.
  destruct H as (pre & w & post & _ & [M Hm] & _).
  norm_regex M. inv_matches. unfold grp.
  match goal with Hg : _ = group m |- _ => rewrite <- Hg end.
  match goal with
    Hl : 1 <= List.length ?w, Hh : forall h, Some 5 = Some h -> _ |- _ =>
    specialize (Hh 5 eq_refl); change (1 <= List.length w <= 5); lia
  end.
Qed.

Lemma inlineCode_match text m :
  exec (mkRegex (Bol ;; lit "`" ;; Grp 1 (lazyPlus (noneOf "`")) ;; lit "`")%re
                false false) text
  = Some m ->
  exists c r, grp m 1 = c :: r.
Proof.
  intros H. apply execFrom_sound in H.
  destruct H as (pre & w & post & _ & [M Hm] & _).
  norm_regex M. inv_matches. unfold grp.
  match goal with Hg : _ = group m |- _ => rewrite <- Hg end.
  match goal with
    Hl : 1 <= List.length ?w |- _ =>
    change (exists c r, w = c :: r); destruct w as [|c r];
      [simpl in Hl; lia|now exists c, r]
  end.
Qed.

Lemma renderable_text s :
  s <> [] -> (Deep shaped) (textSegment s).
Proof.
  intros H. apply deep_leaf with (x := s); [|reflexivity].
  destruct s as [|c r]; [congruence|]. now exists c, r.
Qed.

Lemma one_deep s : (Deep shaped) s -> List.Forall (Deep shaped) [s].
Proof. intros H. constructor; [exact H|constructor]. Qed.

Lemma pushText_deep segments plain :
  plain <> [] -> List.Forall (Deep shaped) segments -> List.Forall (Deep shaped) (pushText segments plain).
Proof.
  intros Hp. induction 1 as [|s r Hs Hr IH]; cbn [pushText].
  - apply one_deep. now apply renderable_text.
  - destruct r as [|s' r].
    + assert (Hfresh : List.Forall (Deep shaped) [s; textSegment plain]).
      { constructor; [exact Hs|]. apply one_deep. now apply renderable_text. }
      destruct (type s) eqn:T; try exact Hfresh.
      destruct (content s) as [x|l] eqn:C; [|exact Hfresh].
      apply one_deep.
      apply deep_leaf with (x := x ++ plain); [|reflexivity].
      unfold shaped. cbn [type content].
      destruct (x ++ plain) as [|c r] eqn:E.
      * apply List.app_eq_nil in E. tauto.
      * now exists c, r.
    + constructor; [exact Hs|exact IH].
Qed.

(** A rule that parses what it captured makes a segment whose children
    are the parsed segments. *)
Ltac rule_deep P Hpi :=
  cbn [r_process] in P;
  first
    [ injection P as <-;
      eapply deep_leaf; [|reflexivity]; unfold shaped, build;
      cbn [type content url level username p_type p_content p_url p_level
           p_username r_type contentOnly];
      solve [ eexists; reflexivity | eexists; eexists; reflexivity ]
    | unfold recurse in P;
      match type of P with
      | option_map _ (?pi ?line) = Some _ =>
        let segs := fresh "segs" in
        let E := fresh "E" in
        destruct (pi line) as [segs|] eqn:E; [|discriminate P];
        injection P as <-;
        eapply deep_node; [|reflexivity|exact (Hpi _ _ E)];
        unfold shaped, build;
        cbn [type content url level username p_type p_content p_url p_level
             p_username r_type contentOnly];
        solve [ eexists; reflexivity ]
      end ].

Lemma inlineRules_deep pi text rule m p :
  (forall line out, pi line = Some out -> List.Forall (Deep shaped) out) ->
  List.In rule (inlineRules pi) ->
  exec (r_regex rule) text = Some m ->
  r_process rule m = Some p ->
  (Deep shaped) (build rule p).
Proof.
  intros Hpi H E P. each_rule H; try (rule_deep P Hpi).
  - (* user-link *)
    cbn [r_process r_regex] in *. injection P as <-.
    destruct (userLink_match _ _ E) as (u & Hm & Hg & Hu & Hw).
    eapply deep_leaf; [|reflexivity]. unfold shaped, build, grp.
    cbn [type content url level username p_type p_content p_url p_level
         p_username r_type]. rewrite Hg, Hm. now exists u.
  - (* inline code *)
    cbn [r_process r_regex] in *. injection P as <-.
    destruct (inlineCode_match _ _ E) as (c & r & Hg).
    eapply deep_leaf; [|reflexivity]. unfold shaped, build.
    cbn [type content p_type p_content r_type contentOnly]. rewrite Hg.
    now exists c, r.
Qed.

Lemma lineStartRules_deep pi text rule m p :
  (forall line out, pi line = Some out -> List.Forall (Deep shaped) out) ->
  List.In rule (lineStartRules pi) ->
  exec (r_regex rule) text = Some m ->
  r_process rule m = Some p ->
  (Deep shaped) (build rule p).
Proof.
  intros Hpi H E P. each_rule H; try (rule_deep P Hpi).
  (* heading *)
  cbn [r_process r_regex] in *. unfold recurse in P.
  destruct (pi (grp m 2)) as [segs|] eqn:Es; [|discriminate P].
  injection P as <-.
  eapply deep_node; [|reflexivity|exact (Hpi _ _ Es)].
  unfold shaped, build.
  cbn [type content level p_type p_content p_level r_type].
  split; [now exists segs|]. eexists. split; [reflexivity|].
  exact (heading_match _ _ E).
Qed.

Lemma loneFormatterRules_deep pi rule m out :
  (forall line out, pi line = Some out -> List.Forall (Deep shaped) out) ->
  List.In rule (loneFormatterRules pi) ->
  l_process rule m = Some out ->
  List.Forall (Deep shaped) out.
Proof. intros Hpi H P. each_rule H; exact (Hpi _ _ P). Qed.

Lemma inlineLoop_deep :
  forall fuel text segments out,
    inlineLoop fuel text segments = Some out ->
    List.Forall (Deep shaped) segments -> List.Forall (Deep shaped) out.
Proof.
  induction fuel as [|fuel IH]; intros text segments out H Hs; [discriminate|].
  destruct text as [|c text]; [injection H as <-; exact Hs|].
  cbn [inlineLoop] in H.
  set (pi := fun line : jsstring => match line with
                                    | [] => Some []
                                    | _ :: _ => inlineLoop fuel line []
                                    end) in H.
  assert (Hpi : forall line out, pi line = Some out -> List.Forall (Deep shaped) out).
  { intros [|x line] o Ho; [injection Ho as <-; constructor|].
    exact (IH _ _ _ Ho (List.Forall_nil _)). }
  destruct (inlineStep pi (c :: text) segments) as [[text' segments']|] eqn:E;
    [|discriminate].
  apply inlineStep_turn in E; [|discriminate].
  destruct E as [[(rule & m & p & F & P & _ & _ & ->)
                 |(plain & _ & Hp & _ & ->)] _].
  - apply (IH _ _ _ H). apply List.Forall_app. split; [exact Hs|].
    apply one_deep. apply firstMatch_sound in F. destruct F as [HI HE].
    exact (inlineRules_deep pi _ rule m p Hpi HI HE P).
  - apply (IH _ _ _ H). apply pushText_deep; [|exact Hs].
    destruct plain; [simpl in Hp; lia|discriminate].
Qed.

Lemma parseInline_deep line out :
  parseInline line = Some out -> List.Forall (Deep shaped) out.
Proof.
  unfold parseInline, parseInline_fuel. destruct line as [|c line].
  - intros [= <-]. constructor.
  - intros H. exact (inlineLoop_deep _ _ _ _ H (List.Forall_nil _)).
Qed.

Lemma br_deep : (Deep shaped) brSegment.
Proof. eapply deep_leaf; [|reflexivity]. now exists []. Qed.

Lemma parseLine_deep line more out :
  parseLine line more = Some out -> List.Forall (Deep shaped) out.
Proof.
  assert (Hbr : List.Forall (Deep shaped) (if more then [brSegment] else [])).
  { destruct more; [apply one_deep, br_deep|constructor]. }
  unfold parseLine.
  assert (Hmain :
    match firstLone (loneFormatterRules parseInline) (trim line) with
    | Some (rule, m) =>
      match l_process rule m with
      | None => None
      | Some segs =>
        Some (mkSegment Tcenter (Segs segs) None None None
                        :: (if more then [brSegment] else []))
      end
    | None =>
      match firstMatch (lineStartRules parseInline) line with
      | Some (rule, m) =>
        match r_process rule m with
        | None => None
        | Some processed =>
          Some (build rule processed :: (if more then [brSegment] else []))
        end
      | None =>
        match line with
        | [] => Some (if more then [brSegment] else [])
        | _ :: _ =>
          match parseInline line with
          | None => None
          | Some segs => Some (segs ++ (if more then [brSegment] else []))
          end
        end
      end
    end = Some out -> List.Forall (Deep shaped) out).
  { destruct (firstLone _ _) as [[rule m]|] eqn:F.
    - destruct (l_process rule m) as [segs|] eqn:P; [|discriminate].
      intros [= <-]. apply firstLone_sound in F.
      constructor; [|exact Hbr].
      eapply deep_node; [|reflexivity|].
      + now exists segs.
      + exact (loneFormatterRules_deep _ rule m segs parseInline_deep (proj1 F) P).
    - destruct (firstMatch _ _) as [[rule m]|] eqn:F'.
      + destruct (r_process rule m) as [p|] eqn:P; [|discriminate].
        intros [= <-]. apply firstMatch_sound in F'.
        constructor; [|exact Hbr].
        exact (lineStartRules_deep _ _ rule m p parseInline_deep
                                   (proj1 F') (proj2 F') P).
      + destruct line as [|c line]; [intros [= <-]; exact Hbr|].
        destruct (parseInline (c :: line)) as [segs|] eqn:E; [|discriminate].
        intros [= <-]. apply List.Forall_app. split; [|exact Hbr].
        exact (parseInline_deep _ _ E). }
  destruct line as [|c line]; [destruct more|]; exact Hmain.
Qed.

Lemma parseLines_deep lines out :
  parseLines lines = Some out -> List.Forall (Deep shaped) out.
Proof.
  revert out. induction lines as [|line rest IH]; simpl; intros out.
  - intros [= <-]. constructor.
  - destruct (parseLine line _) as [here|] eqn:E; [|discriminate].
    destruct (parseLines rest) as [there|]; [|discriminate].
    intros [= <-]. apply List.Forall_app. split.
    + exact (parseLine_deep _ _ _ E).
    + now apply IH.
Qed.


Lemma splitLoop_deep rec text :
  (forall c out, rec c = Ok out -> List.Forall (Deep shaped) out) ->
  forall fuel reLastIndex lastIndex blocks blocks' lastIndex',
    splitLoop rec fuel text reLastIndex lastIndex blocks = Ok (blocks', lastIndex') ->
    List.Forall goodBlock blocks -> List.Forall goodBlock blocks'.
Proof.
  intros Hrec.
  induction fuel as [|fuel IH]; intros li last blocks blocks' last' H Hb;
    [discriminate|].
  cbn [splitLoop] in H.
  destruct (execG multilineRegex text li) as [m|] eqn:E;
    [|injection H as <- <-; exact Hb].
  set (blocks1 := if Nat.ltb last (index m) then _ else blocks) in H.
  assert (Hb1 : List.Forall goodBlock blocks1).
  { subst blocks1. destruct (Nat.ltb last (index m)); [|exact Hb].
    apply List.Forall_app. split; [exact Hb|]. repeat constructor. }
  destruct (group m 2) as [c2|].
  { simpl in H. apply (IH _ _ _ _ _ H). apply List.Forall_app.
    split; [exact Hb1|]. repeat constructor. }
  destruct (group m 4) as [c4|].
  { simpl in H. apply (IH _ _ _ _ _ H). apply List.Forall_app.
    split; [exact Hb1|]. repeat constructor. }
  destruct (group m 6) as [c6|].
  { destruct (rec c6) as [segs| |] eqn:R; simpl in H; try discriminate.
    apply (IH _ _ _ _ _ H). apply List.Forall_app. split; [exact Hb1|].
    repeat constructor. exact (Hrec _ _ R). }
  simpl in H. exact (IH _ _ _ _ _ H Hb1).
Qed.

Lemma renderBlocks_deep rec blocks out :
  (forall c o, rec c = Ok o -> List.Forall (Deep shaped) o) ->
  List.Forall goodBlock blocks ->
  renderBlocks rec blocks = Ok out -> List.Forall (Deep shaped) out.
Proof.
  intros Hrec Hb. revert out.
  induction Hb as [|b bs Hb _ IH]; simpl; intros out.
  - intros [= <-]. constructor.
  - destruct (renderBlock rec b) as [here| |] eqn:E; simpl; try discriminate.
    destruct (renderBlocks rec bs) as [there| |]; simpl; try discriminate.
    intros [= <-]. apply List.Forall_app. split; [|now apply IH].
    destruct b as [s|c|c|segs]; simpl in E.
    + destruct (parseLines (split s)) as [l|] eqn:L; simpl in E; [|discriminate].
      injection E as <-. exact (parseLines_deep _ _ L).
    + injection E as <-. apply one_deep.
      eapply deep_leaf; [|reflexivity]. now exists c.
    + destruct (rec c) as [segs| |] eqn:R; simpl in E; try discriminate.
      injection E as <-. apply one_deep.
      eapply deep_node; [|reflexivity|exact (Hrec _ _ R)]. now exists segs.
    + injection E as <-. apply one_deep.
      eapply deep_node; [|reflexivity|exact Hb]. now exists segs.
Qed.

Lemma parseComment_fuel_deep :
  forall fuel text out,
    parseComment_fuel fuel text = Ok out -> List.Forall (Deep shaped) out.
Proof.
  induction fuel as [|fuel IH]; intros text out H; [discriminate|].
  cbn [parseComment_fuel] in H.
  destruct (cleaned text) as [c| |]; simpl in H; try discriminate.
  unfold splitBlocks in H.
  destruct (splitLoop (parseComment_fuel fuel) (S (List.length c)) c 0 0 [])
    as [[bs li]| |] eqn:S; simpl in H; try discriminate.
  apply (splitLoop_deep _ c IH) in S; [|constructor].
  refine (renderBlocks_deep _ _ _ IH _ H).
  destruct (Nat.ltb li (List.length c)); [|exact S].
  apply List.Forall_app. split; [exact S|]. repeat constructor.
Qed.

Lemma deep_wider (P Q : CommentSegment -> Prop) :
  (forall s, P s -> Q s) -> forall s, Deep P s -> Deep Q s.
Proof.
  intros H. fix IH 2. intros s [s' Hp Hk]. constructor; [exact (H _ Hp)|].
  intros l E. specialize (Hk l E). clear E.
  induction Hk as [|x r Hx _ IHr]; constructor; [exact (IH x Hx)|exact IHr].
Qed.

Lemma shaped_renderable s : shaped s -> renderable s.
Proof.
  intros H. split; [exact H|]. revert H.
  unfold castable, emptyLink, shaped.
  destruct (type s) eqn:T; intros H;
    try (left; exact H); try (left; exact I); try contradiction;
    try (destruct H as (c & r & E); left; now exists (c :: r));
    try (destruct H as [E _]; left; exact E);
    try (destruct H as (u & Hu & E & _); left;
         split; [exists (64%N :: u); exact E|exists u; exact Hu]).
  destruct (content s) as [x|[|c r]] eqn:C.
  - left. split; [exact H|]. left. now exists x.
  - right. repeat split; assumption.
  - left. split; [exact H|]. right. now exists c, r.
Qed.

(** X10. Every segment of a parse result, at any depth, has the shape
    the rules give it and is one that [renderSegment] casts rightly, or a
    link around nothing.  The shape: a non-empty string in a ['text'] and
    an ['inline-code'] segment, a string in ['code-block'], ['image'],
    ['hr'] and ['br'], an array of segments in the containers, a level
    from 1 to 5 on a heading, a url on a ['link'], on a ['user-link'] a
    non-empty username of word characters and dashes that is the content
    without its [@], and never the type ['youtube'] or ['video'].  The
    casts: a string where [renderSegment] reads one, an array where it
    reads one, and on a ['link'] a string or a non-empty array.  The
    exception is real: [<a href="u"></a>] parses to a ['link'] whose
    content is the empty array, which [renderSegment] sends down its
    string branch. *)
Theorem parsed_segments_are_renderable (text : jsstring) (segs : list CommentSegment) :
  parseComment text = Ok segs ->
  List.Forall (Deep renderable) segs /\
  exists anchor,
    parseComment emptyAnchor = Ok [anchor] /\ emptyLink anchor /\ ~ castable anchor.
Proof.
  intros H. apply parseComment_fuel_deep in H.
  assert (D : List.Forall (Deep renderable) segs).
  { eapply List.Forall_impl; [|exact H].
    intros s. apply deep_wider. exact shaped_renderable. }
  split; [exact D|].
  eexists. split; [vm_compute; reflexivity|]. split.
  - repeat split. now eexists.
  - unfold castable. cbn [type content].
    intros [_ [[x E]|(c & r & E)]]; discriminate E.
Qed.

Lemma parsed_segments_are_renderable_witness :
  List.Forall (Deep renderable)
    [mkSegment Tuser_link (Str (js "@ann")) None None (Some (js "ann"));
     textSegment (js " ");
     mkSegment Tlink (Str (js "youtube.com/watch?v=x"))
               (Some (js "https://www.youtube.com/watch?v=x")) None None].
Proof.
  apply (parsed_segments_are_renderable (js "@ann youtube(x)")).
  vm_compute. reflexivity.
Defined.

End RenderFacts.

(** ** What decodeHtmlEntities decodes *)

Module DecodeFacts.
Import Regex RegexFacts ExecFacts Parser ParserFacts PlainFacts Decode.

Lemma existsb_flip c s :
  has c s = List.existsb (fun x => (x =? c)%N) s.
Proof.
  unfold has. induction s as [|x s IH]; simpl; [reflexivity|].
  now rewrite IH, N.eqb_sym.
Qed.

(** Replacing every [c] by [c] changes nothing. *)
Lemma replace_same_char c s :
  replace (mkRegex (Chr c) false false) (fun _ => [c]) s = s.
Proof.
  unfold replace.
  set (f := fun p => match p with PChar x => [x] | PMatch _ => [c] end).
  enough (H : forall bef, List.flat_map f (pieces (mkRegex (Chr c) false false) 0 bef s) = s)
    by apply H.
  induction s as [|x s IH]; intros bef; [reflexivity|].
  cbn [pieces execAt run re ignoreCase multiline sameChar].
  destruct (x =? c)%N eqn:E.
  - apply N.eqb_eq in E. subst x.
    replace (List.length (c :: s) - List.length s) with 1
      by (cbn [List.length]; lia).
    cbn [List.firstn matched List.length List.flat_map].
    change (c :: s) with ([c] ++ s). f_equal. apply IH.
  - cbn [List.flat_map]. change (x :: s) with ([x] ++ s). f_equal. apply IH.
Qed.

(** The three replacements after the numeric one change nothing. *)
Lemma decode_numeric_only text :
  decodeHtmlEntities text = replaceEntities (pieces entityRegex 0 [] text).
Proof.
  unfold decodeHtmlEntities. destruct text as [|c text]; [reflexivity|].
  destruct (replaceEntities _) as [s| |]; simpl; [|reflexivity|reflexivity].
  f_equal.
  change (replace gtRegex _ ?x) with (replace (mkRegex (Chr 62) false false) (fun _ => [62%N]) x).
  rewrite replace_same_char.
  change (replace ltRegex _ ?x) with (replace (mkRegex (Chr 60) false false) (fun _ => [60%N]) x).
  rewrite replace_same_char.
  change (replace ampRegex _ ?x) with (replace (mkRegex (Chr 38) false false) (fun _ => [38%N]) x).
  apply replace_same_char.
Qed.

(** A greedy repetition takes the whole run when what follows the run
    fits. *)
Lemma many_greedy_all (A : Type) p (k : list N -> list N -> option A) a :
  forall d lo bef rest,
    List.Forall (fun x => p x = true) d ->
    lo <= List.length d ->
    k (List.rev d ++ bef) rest = Some a ->
    match rest with x :: _ => p x = false | [] => True end ->
    many true lo None p k bef (d ++ rest) = Some a.
Proof.
  induction d as [|x d IH]; intros lo bef rest Hd Hlo Hk Hr.
  - destruct lo; [|simpl in Hlo; lia]. simpl in *.
    destruct rest as [|y rest]; simpl; [exact Hk|]. now rewrite Hr.
  - inversion Hd as [|? ? Hx Hd']; subst.
    cbn [List.app many]. rewrite Hx. cbn [canTake andb option_map].
    assert (E : many true (pred lo) None p k (x :: bef) (d ++ rest) = Some a).
    { apply IH; [exact Hd'|simpl in Hlo; lia| |exact Hr].
      simpl in Hk. now rewrite <- List.app_assoc in Hk. }
    destruct lo; [|exact E]. simpl in E. now rewrite E.
Qed.

Lemma execAt_reference bef d post :
  d <> [] -> List.forallb isDigit d = true ->
  exists m, execAt entityRegex bef (reference d ++ post) = Some m /\
            matched m = reference d /\ grp m 1 = d.
Proof.
  intros Hn Hd.
  eexists (mkMatch (List.length bef) (reference d) (setCap 1 d noCaps)).
  split; [|split; reflexivity].
  unfold execAt, entityRegex, reference, plus.
  cbn [re ignoreCase multiline].
  change (js "&#") with [amp; hash]. change (lit "&#") with (Chr amp ;; Chr hash)%re.
  change (lit ";") with (Chr semicolon).
  rewrite <- !List.app_assoc.
  cbn [run List.app sameChar]. rewrite !N.eqb_refl.
  apply many_greedy_all.
  - apply List.Forall_forall. intros x Hx.
    rewrite List.forallb_forall in Hd. now apply Hd.
  - destruct d; [congruence|simpl; lia].
  - rewrite N.eqb_refl. f_equal. f_equal.
    + cbn [List.length]. rewrite !List.length_app. cbn [List.length].
      replace (_ - _) with (S (S (List.length d + 1))) by lia.
      cbn [List.firstn]. do 2 f_equal.
      rewrite List.firstn_app, List.firstn_all2 by lia.
      replace (_ - _) with 1 by lia. reflexivity.
    + f_equal. rewrite !List.length_app. cbn [List.length].
      replace (_ - _) with (List.length d) by lia.
      rewrite List.firstn_app, List.firstn_all, Nat.sub_diag. cbn [List.firstn].
      apply List.app_nil_r.
  - reflexivity.
Qed.

Lemma orElse_map (A B : Type) (f : A -> B) (x y : option A) :
  option_map f (match x with Some a => Some a | None => y end)
  = match option_map f x with Some b => Some b | None => option_map f y end.
Proof. now destruct x. Qed.

Lemma many_behind (A B : Type) (f : A -> B) p (k k' : list N -> list N -> option A) :
  (forall b b' a, option_map f (k b a) = option_map f (k' b' a)) ->
  forall aft g lo hi bef bef',
    option_map f (many g lo hi p k bef aft) = option_map f (many g lo hi p k' bef' aft).
Proof.
  intros H. induction aft as [|x aft IH]; intros g lo hi bef bef'.
  - destruct lo; cbn [many]; [|reflexivity].
    destruct g; [apply H|]. rewrite !orElse_map. now rewrite (H bef bef').
  - destruct lo; cbn [many].
    + destruct g; rewrite !orElse_map.
      * rewrite (H bef bef').
        destruct (p x && canTake hi); [|reflexivity].
        now rewrite (IH true 0 (option_map pred hi) (x :: bef) (x :: bef')).
      * rewrite (H bef bef').
        destruct (p x && canTake hi); [|reflexivity].
        now rewrite (IH false 0 (option_map pred hi) (x :: bef) (x :: bef')).
    + destruct (p x && canTake hi); [|reflexivity]. apply IH.
Qed.

Lemma run_behind ic ml (A B : Type) (f : A -> B) :
  forall r, noBol r = true ->
  forall (k k' : list N -> list N -> caps -> option A),
    (forall b b' a c, option_map f (k b a c) = option_map f (k' b' a c)) ->
    forall bef bef' aft cs,
      option_map f (run ic ml r bef aft cs k) = option_map f (run ic ml r bef' aft cs k').
Proof.
  induction r as [|c|p| | |a IHa b IHb|a IHa b IHb|g lo hi p|i a IHa];
    intros Hr k k' H bef bef' aft cs; cbn [run]; cbn [noBol] in Hr.
  - apply H.
  - destruct aft as [|x aft]; [reflexivity|].
    destruct (sameChar ic x c); [apply H|reflexivity].
  - destruct aft as [|x aft]; [reflexivity|].
    destruct (p x); [apply H|reflexivity].
  - discriminate.
  - destruct (atLineEnd ml aft); [apply H|reflexivity].
  - apply andb_prop in Hr. destruct Hr as [Ha Hb].
    apply (IHa Ha). intros. now apply (IHb Hb).
  - apply andb_prop in Hr. destruct Hr as [Ha Hb].
    rewrite !orElse_map.
    rewrite (IHa Ha k k' H bef bef'), (IHb Hb k k' H bef bef'). reflexivity.
  - apply many_behind. intros. apply H.
  - apply (IHa Hr). intros. apply H.
Qed.

Lemma execAt_behind R bef bef' aft :
  noBol (re R) = true ->
  option_map seen (execAt R bef aft) = option_map seen (execAt R bef' aft).
Proof.
  intros Hr. unfold execAt. apply run_behind; [exact Hr|reflexivity].
Qed.

Lemma pieces_behind R :
  noBol (re R) = true ->
  forall aft skip bef bef',
    List.map forget (pieces R skip bef aft) = List.map forget (pieces R skip bef' aft).
Proof.
  intros Hr. induction aft as [|x aft IH]; intros skip bef bef';
    (destruct skip as [|n]; cbn [pieces]; [|try reflexivity]).
  - pose proof (execAt_behind R bef bef' [] Hr) as E.
    destruct (execAt R bef []) as [m|], (execAt R bef' []) as [m'|];
      try discriminate E; [|reflexivity].
    injection E as E1 E2. simpl. now rewrite E1, E2.
  - pose proof (execAt_behind R bef bef' (x :: aft) Hr) as E.
    destruct (execAt R bef (x :: aft)) as [m|], (execAt R bef' (x :: aft)) as [m'|];
      try discriminate E.
    + injection E as E1 E2. cbn [List.map forget]. rewrite E1, E2. f_equal.
      destruct (matched m') as [|y w]; cbn [List.map forget]; [f_equal|]; apply IH.
    + cbn [List.map forget]. f_equal. apply IH.
  - apply IH.
Qed.

Lemma replaceEntities_forget ps :
  replaceEntities (List.map forget ps) = replaceEntities ps.
Proof.
  induction ps as [|[c|m] ps IH]; cbn [List.map forget replaceEntities];
    [reflexivity| |]; now rewrite IH.
Qed.

(** Decoding the rest of a text does not depend on what came before it. *)
Lemma decode_behind bef text :
  replaceEntities (pieces entityRegex 0 bef text) = decodeHtmlEntities text.
Proof.
  rewrite decode_numeric_only.
  rewrite <- replaceEntities_forget, <- (replaceEntities_forget (pieces _ _ [] _)).
  f_equal. now apply pieces_behind.
Qed.

Lemma pieces_skip R w :
  forall bef post,
    pieces R (List.length w) bef (w ++ post) = pieces R 0 (List.rev w ++ bef) post.
Proof.
  induction w as [|x w IH]; intros bef post; [reflexivity|].
  cbn [List.length List.app pieces List.rev]. rewrite IH.
  now rewrite <- List.app_assoc.
Qed.

Lemma pieces_match R bef w post m :
  w <> [] -> execAt R bef (w ++ post) = Some m -> matched m = w ->
  pieces R 0 bef (w ++ post) = PMatch m :: pieces R 0 (List.rev w ++ bef) post.
Proof.
  intros Hw E Hm. destruct w as [|x w]; [congruence|].
  cbn [List.app] in *. cbn [pieces]. rewrite E, Hm. f_equal.
  rewrite pieces_skip. cbn [List.rev]. now rewrite <- List.app_assoc.
Qed.

Lemma pieces_before pre :
  has amp pre = false ->
  forall bef rest,
    pieces entityRegex 0 bef (pre ++ rest)
    = List.map PChar pre ++ pieces entityRegex 0 (List.rev pre ++ bef) rest.
Proof.
  induction pre as [|x pre IH]; intros Hp bef rest; [reflexivity|].
  unfold has in Hp. cbn [List.existsb] in Hp. apply orb_false_elim in Hp.
  destruct Hp as [Hx Hp].
  cbn [List.app pieces].
  assert (E : execAt entityRegex bef (x :: pre ++ rest) = None).
  { unfold execAt, entityRegex. cbn [re ignoreCase multiline].
    change (lit "&#") with (Chr amp ;; Chr hash)%re.
    cbn [run sameChar]. now rewrite N.eqb_sym, Hx. }
  rewrite E. cbn [List.map List.app List.rev]. f_equal.
  rewrite (IH Hp). now rewrite <- List.app_assoc.
Qed.

Lemma replaceEntities_before pre ps :
  replaceEntities (List.map PChar pre ++ ps)
  = (s <- replaceEntities ps ; Ok (pre ++ s)).
Proof.
  induction pre as [|x pre IH]; cbn [List.map List.app replaceEntities].
  - now destruct (replaceEntities ps).
  - rewrite IH. now destruct (replaceEntities ps).
Qed.

(** X11. A numeric character reference [&#d;] with no [&] before it is
    replaced by the code point whose decimal number is [d], the text
    before it is kept, and the text after it is decoded on its own; the
    call throws exactly when [String.fromCodePoint] does, or the rest
    does. *)
Theorem numeric_reference_decoded (pre d post : jsstring) :
  has amp pre = false -> d <> [] -> List.forallb isDigit d = true ->
  decodeHtmlEntities (pre ++ reference d ++ post)
  = (c <- fromCodePoint (parseInt d) ;
     rest <- decodeHtmlEntities post ;
     Ok (pre ++ c ++ rest)).
Proof.
  intros Hp Hn Hd. rewrite decode_numeric_only, (pieces_before pre Hp).
  rewrite replaceEntities_before, List.app_nil_r.
  destruct (execAt_reference (List.rev pre) d post Hn Hd) as (m & E & Hm & Hg).
  assert (P := pieces_match entityRegex (List.rev pre) (reference d) post m
                            ltac:(discriminate) E Hm).
  rewrite P. cbn [replaceEntities]. rewrite Hg, decode_behind.
  destruct (fromCodePoint (parseInt d)) as [c| |]; cbn [bind]; try reflexivity.
  destruct (decodeHtmlEntities post) as [r| |]; reflexivity.
Qed.

Lemma numeric_reference_decoded_witness :
  decodeHtmlEntities (js "a<b " ++ reference (js "0038") ++ js "amp; &#x;")
  = Ok (js "a<b " ++ js "&" ++ js "amp; &#x;").
Proof.
  rewrite (numeric_reference_decoded (js "a<b ") (js "0038") (js "amp; &#x;"));
    [reflexivity|reflexivity|discriminate|reflexivity].
Defined.

(** X12. A text without [#] comes back unchanged, whatever [&], [<] and
    [>] it holds: [&amp;], [&lt;] and [&gt;] stay as they are, and the
    three replacements that follow the numeric one change nothing. *)
Theorem text_without_hash_unchanged (text : jsstring) :
  has hash text = false -> decodeHtmlEntities text = Ok text.
Proof.
  intros H. rewrite decode_numeric_only.
  rewrite (pieces_no_match entityRegex (fun x => (x =? hash)%N) eq_refl text []).
  - apply replaceEntities_chars.
  - now rewrite <- existsb_flip.
Qed.

Lemma text_without_hash_unchanged_witness :
  decodeHtmlEntities (js "1 &lt; 2 &amp;&amp; x&gt;y") = Ok (js "1 &lt; 2 &amp;&amp; x&gt;y").
Proof. apply text_without_hash_unchanged. reflexivity. Defined.

End DecodeFacts.

(** ** A lone formatter is centered *)

Module LoneFacts.
Import Regex RegexFacts ExecFacts Parser ParserFacts PlainFacts Decode DecodeFacts Lone.
Local Open Scope regex_scope.

Lemma not_trigger x c :
  isTrigger x = false -> isTrigger c = true -> (x =? c)%N = false.
Proof.
  intros Hx Hc. destruct (x =? c)%N eqn:E; [|reflexivity].
  apply N.eqb_eq in E. congruence.
Qed.

Lemma existsb_in (t : N -> bool) s x :
  List.existsb t s = false -> List.In x s -> t x = false.
Proof.
  intros H Hx. destruct (t x) eqn:E; [|reflexivity].
  assert (List.existsb t s = true) by (apply List.existsb_exists; eauto).
  congruence.
Qed.

(** A lazy repetition stops at the first place where what follows fits. *)
Lemma many_lazy_first (A : Type) (k : list N -> list N -> option A) a :
  forall d lo bef rest,
    (forall d1 x d2, d = d1 ++ x :: d2 ->
                     k (List.rev d1 ++ bef) (x :: d2 ++ rest) = None) ->
    lo <= List.length d ->
    k (List.rev d ++ bef) rest = Some a ->
    many false lo None any k bef (d ++ rest) = Some a.
Proof.
  induction d as [|x d IH]; intros lo bef rest Hk Hlo Ha.
  - destruct lo; [|simpl in Hlo; lia]. cbn [List.app List.rev] in *.
    destruct rest; cbn [many]; now rewrite Ha.
  - assert (E : many false (pred lo) None any k (x :: bef) (d ++ rest) = Some a).
    { apply IH.
      - intros d1 y d2 ->. specialize (Hk (x :: d1) y d2 eq_refl).
        cbn [List.rev] in Hk. now rewrite <- List.app_assoc in Hk.
      - simpl in Hlo. lia.
      - cbn [List.rev] in Ha. now rewrite <- List.app_assoc in Ha. }
    cbn [List.app many any andb canTake option_map]. destruct lo; [|exact E].
    pose proof (Hk [] x d eq_refl) as H0. cbn [List.rev List.app] in H0.
    rewrite H0. exact E.
Qed.

(** A pattern that starts with [^] and has no [m] flag matches at the
    start of the text or nowhere. *)
Lemma execFrom_anchored r ic :
  forall aft x bef, execFrom (mkRegex (Bol ;; r) ic false) (x :: bef) aft = None.
Proof.
  induction aft as [|y aft IH]; intros x bef; cbn [execFrom];
    unfold execAt; cbn [re ignoreCase multiline run atLineStart andb];
      [reflexivity|apply IH].
Qed.

Lemma exec_anchored r ic text :
  exec (mkRegex (Bol ;; r) ic false) text
  = execAt (mkRegex (Bol ;; r) ic false) [] text.
Proof.
  unfold exec. destruct text as [|x text]; cbn [execFrom];
    destruct (execAt _ [] _); try reflexivity. apply execFrom_anchored.
Qed.

Lemma firstn_whole (w : list N) n : n = List.length w -> List.firstn n w = w.
Proof. intros ->. apply List.firstn_all. Qed.

(** A mark of two equal characters around [s]. *)
Lemma lone_two c s :
  isTrigger c = true -> s <> [] -> List.existsb isTrigger s = false ->
  exists m,
    execAt (mkRegex (Bol ;; (Chr c ;; Chr c) ;; Grp 1 (lazyPlus any) ;;
                     (Chr c ;; Chr c) ;; Eol) false false)
           [] (c :: c :: s ++ [c; c]) = Some m /\ grp m 1 = s.
Proof.
  intros Hc Hn Hs. eexists. split.
  - unfold execAt, lazyPlus.
    cbn [re ignoreCase multiline run atLineStart sameChar]. rewrite !N.eqb_refl.
    apply many_lazy_first.
    + intros d1 x d2 ->.
      rewrite (not_trigger x c); [reflexivity| |exact Hc].
      apply (existsb_in _ _ _ Hs). apply List.in_elt.
    + destruct s; [congruence|simpl; lia].
    + rewrite !N.eqb_refl. cbn [atLineEnd]. reflexivity.
  - unfold grp. cbn [group setCap Nat.eqb]. rewrite List.length_app.
    cbn [List.length]. replace (_ - _) with (List.length s) by lia.
    rewrite List.firstn_app, List.firstn_all, Nat.sub_diag. apply List.app_nil_r.
Qed.

(** A mark of one character around [s]. *)
Lemma lone_one c s :
  isTrigger c = true -> s <> [] -> List.existsb isTrigger s = false ->
  exists m,
    execAt (mkRegex (Bol ;; Chr c ;; Grp 1 (lazyPlus any) ;; Chr c ;; Eol)
                    false false)
           [] (c :: s ++ [c]) = Some m /\ grp m 1 = s.
Proof.
  intros Hc Hn Hs. eexists. split.
  - unfold execAt, lazyPlus.
    cbn [re ignoreCase multiline run atLineStart sameChar]. rewrite !N.eqb_refl.
    apply many_lazy_first.
    + intros d1 x d2 ->.
      rewrite (not_trigger x c); [reflexivity| |exact Hc].
      apply (existsb_in _ _ _ Hs). apply List.in_elt.
    + destruct s; [congruence|simpl; lia].
    + rewrite !N.eqb_refl. cbn [atLineEnd]. reflexivity.
  - unfold grp. cbn [group setCap Nat.eqb]. rewrite List.length_app.
    cbn [List.length]. replace (_ - _) with (List.length s) by lia.
    rewrite List.firstn_app, List.firstn_all, Nat.sub_diag. apply List.app_nil_r.
Qed.

Lemma trim_fixed t :
  dropSpace t = t -> dropSpace (List.rev t) = List.rev t -> trim t = t.
Proof. intros H1 H2. unfold trim. rewrite H1, H2. apply List.rev_involutive. Qed.

Lemma split_no_newline s :
  List.existsb (fun x => (x =? newline)%N) s = false -> split s = [s].
Proof.
  induction s as [|c s IH]; simpl; [reflexivity|].
  intros H. apply orb_false_elim in H. destruct H as [Hc Hs].
  now rewrite Hc, (IH Hs).
Qed.

Lemma splitBlocks_none rec c s :
  execFrom multilineRegex [] (c :: s) = None ->
  splitBlocks rec (c :: s) = Ok [Plain (c :: s)].
Proof.
  intros H. unfold splitBlocks. cbn [splitLoop].
  unfold execG. cbn [Nat.ltb Nat.leb List.firstn List.skipn List.rev].
  now rewrite H.
Qed.

(** Around a text without triggers, a class of triggers is met only in
    the marks. *)
Lemma existsb_marked (t : N -> bool) mark s :
  (forall x, t x = true -> isTrigger x = true) ->
  List.existsb isTrigger s = false ->
  List.existsb t mark = false ->
  List.existsb t (mark ++ s ++ mark) = false.
Proof.
  intros Ht Hs Hm. rewrite !List.existsb_app, Hm.
  destruct (List.existsb t s) eqn:E; [|reflexivity].
  apply List.existsb_exists in E. destruct E as (x & Hx & Tx).
  apply Ht in Tx. now rewrite (existsb_in _ _ _ Hs Hx) in Tx.
Qed.

Lemma eqb_trigger c x :
  isTrigger c = true -> (x =? c)%N = true -> isTrigger x = true.
Proof. intros Hc E. apply N.eqb_eq in E. now subst. Qed.

Lemma oneOf_trigger str x :
  List.forallb isTrigger (js str) = true -> oneOf str x = true -> isTrigger x = true.
Proof.
  intros H E. unfold oneOf in E. apply List.existsb_exists in E.
  destruct E as (c & Hc & E). apply N.eqb_eq in E. subst c.
  rewrite List.forallb_forall in H. now apply H.
Qed.

(** No block starts at a character that is no trigger. *)
Lemma multiline_not_here bef x aft :
  isTrigger x = false -> execAt multilineRegex bef (x :: aft) = None.
Proof.
  intros Hx. unfold execAt, multilineRegex.
  cbn [re ignoreCase multiline].
  change (lit "```") with (Chr 96 ;; Chr 96 ;; Chr 96).
  change (lit "~~~") with (Chr 126 ;; Chr 126 ;; Chr 126).
  change (lit "~!") with (Chr 126 ;; Chr 33).
  cbn [run sameChar].
  rewrite (not_trigger x 96 Hx eq_refl), (not_trigger x 126 Hx eq_refl).
  now destruct (atLineStart true bef).
Qed.

Lemma multiline_not_in_strike s :
  List.existsb isTrigger s = false ->
  forall bef, execFrom multilineRegex bef (s ++ js "~~") = None.
Proof.
  induction s as [|x s IH]; intros Hs bef.
  - change ([] ++ js "~~") with [126; 126]%N. cbn [execFrom].
    unfold execAt, multilineRegex. cbn [re ignoreCase multiline].
    change (lit "```") with (Chr 96 ;; Chr 96 ;; Chr 96).
    change (lit "~~~") with (Chr 126 ;; Chr 126 ;; Chr 126).
    change (lit "~!") with (Chr 126 ;; Chr 33).
    cbn. now destruct (atLineStart true bef).
  - simpl in Hs. apply orb_false_elim in Hs. destruct Hs as [Hx Hs].
    cbn [List.app execFrom]. rewrite (multiline_not_here bef x _ Hx). now apply IH.
Qed.

Lemma multiline_none_strike s :
  s <> [] -> List.existsb isTrigger s = false ->
  execFrom multilineRegex [] (js "~~" ++ s ++ js "~~") = None.
Proof.
  intros Hn Hs. destruct s as [|x s]; [congruence|].
  pose proof Hs as Hs'. simpl in Hs'. apply orb_false_elim in Hs'.
  destruct Hs' as [Hx _].
  change (js "~~" ++ (x :: s) ++ js "~~")
    with (126 :: 126 :: x :: s ++ js "~~")%N.
  cbn [execFrom].
  replace (execAt multilineRegex [] (126 :: 126 :: x :: s ++ js "~~")%N)
    with (@None MatchResult).
  2:{ unfold execAt, multilineRegex. cbn [re ignoreCase multiline].
      change (lit "```") with (Chr 96 ;; Chr 96 ;; Chr 96).
      change (lit "~~~") with (Chr 126 ;; Chr 126 ;; Chr 126).
      change (lit "~!") with (Chr 126 ;; Chr 33).
      cbn [run sameChar atLineStart]. rewrite (not_trigger x 126 Hx eq_refl).
      reflexivity. }
  replace (execAt multilineRegex [126%N] (126 :: x :: s ++ js "~~")%N)
    with (@None MatchResult) by reflexivity.
  apply (multiline_not_in_strike (x :: s) Hs).
Qed.

(** The way of a one-line text through [parseComment] when a lone
    formatter rule matches it. *)
Lemma lone_line text rule m segs :
  text <> [] ->
  cleaned text = Ok text ->
  execFrom multilineRegex [] text = None ->
  List.existsb (fun x => (x =? newline)%N) text = false ->
  firstLone (loneFormatterRules parseInline) (trim text) = Some (rule, m) ->
  l_process rule m = Some segs ->
  parseComment text = Ok [centered segs].
Proof.
  intros Hn Hc Hb Hl Hf Hp. destruct text as [|c text]; [congruence|].
  unfold parseComment. cbn [List.length parseComment_fuel].
  rewrite Hc. cbn [bind]. rewrite (splitBlocks_none _ c text Hb).
  cbn [bind renderBlocks renderBlock]. rewrite (split_no_newline _ Hl).
  cbn [parseLines parseLine]. rewrite Hf, Hp. reflexivity.
Qed.

Lemma cleaned_marked mark s :
  List.forallb (fun x => oneOf "*_~" x) mark = true ->
  List.existsb isTrigger s = false ->
  cleaned (mark ++ s ++ mark) = Ok (mark ++ s ++ mark).
Proof.
  intros Hm Hs. unfold cleaned.
  assert (M : forall t : N -> bool,
             (forall x, oneOf "*_~" x = true -> t x = false) ->
             List.existsb t mark = false).
  { intros t Ht. destruct (List.existsb t mark) eqn:E; [|reflexivity].
    apply List.existsb_exists in E. destruct E as (x & Hx & Tx).
    rewrite List.forallb_forall in Hm. now rewrite (Ht x (Hm x Hx)) in Tx. }
  rewrite (replace_no_match brRegex (fun x => (x =? 60)%N) _ _ eq_refl).
  - rewrite decode_numeric_only.
    rewrite (pieces_no_match entityRegex (fun x => (x =? hash)%N) eq_refl _ []);
      [apply replaceEntities_chars|].
    apply existsb_marked; [intros x; apply (eqb_trigger hash x eq_refl)|exact Hs|].
    apply M. intros x Hx. destruct (x =? hash)%N eqn:E; [|reflexivity].
    apply N.eqb_eq in E. now subst.
  - apply existsb_marked; [intros x; apply (eqb_trigger 60 x eq_refl)|exact Hs|].
    apply M. intros x Hx. destruct (x =? 60)%N eqn:E; [|reflexivity].
    apply N.eqb_eq in E. now subst.
Qed.

Lemma firstLone_nth rules text rule m :
  forall k,
    List.nth_error rules k = Some rule ->
    List.Forall (fun r => exec (l_regex r) text = None) (List.firstn k rules) ->
    exec (l_regex rule) text = Some m ->
    firstLone rules text = Some (rule, m).
Proof.
  induction rules as [|r rules IH]; intros [|k] Hk Hf Hm; try discriminate.
  - injection Hk as ->. cbn [firstLone]. now rewrite Hm.
  - cbn [List.firstn] in Hf. inversion Hf as [|? ? Hr Hf']; subst.
    cbn [firstLone]. rewrite Hr. now apply (IH k).
Qed.

Ltac open_lits :=
  repeat match goal with
         | |- context [lit ?s] =>
           let v := eval vm_compute in (lit s) in change (lit s) with v
         end.

(** An earlier rule misses the text: at the second character at the
    latest. *)
Ltac lone_miss Hx :=
  cbn [l_regex]; rewrite exec_anchored; unfold execAt; open_lits;
  cbn [re ignoreCase multiline run atLineStart sameChar];
  rewrite ?(not_trigger _ 42 Hx eq_refl), ?(not_trigger _ 95 Hx eq_refl);
  reflexivity.

Ltac lone_case mark k E G Hs Hx :=
  match goal with
  | |- parseComment ?text = Ok [centered [textSegment ?s]] =>
    match type of E with
    | _ ?R _ _ = Some ?m =>
      eapply (lone_line text _ m [textSegment s]);
      [ discriminate
      | exact (cleaned_marked mark s eq_refl Hs)
      | exact (execFrom_none multilineRegex (oneOf "`~") [] _ eq_refl
                 (existsb_marked (oneOf "`~") mark s
                    (fun y => oneOf_trigger "`~" y eq_refl) Hs eq_refl))
      | exact (existsb_marked (fun y => (y =? newline)%N) mark s
                 (fun y => eqb_trigger newline y eq_refl) Hs eq_refl)
      | rewrite trim_fixed;
        [ apply (firstLone_nth _ _ _ _ k);
          [ reflexivity
          | cbn [List.firstn loneFormatterRules];
            repeat (apply List.Forall_cons; [lone_miss Hx|]); apply List.Forall_nil
          | cbn [l_regex]; rewrite exec_anchored; exact E ]
        | reflexivity
        | cbn [List.rev]; rewrite List.rev_app_distr; reflexivity ]
      | cbn [l_process]; rewrite G; apply parseInline_plain; exact Hs ]
    end
  end.

(** X13. A comment that is one lone formatter and nothing else, [**s**],
    [__s__], [*s*], [_s_] or [~~s~~] around a text [s] without trigger
    characters, parses to one ['center'] segment holding the text [s]: the
    result has no ['bold'], ['italic'] or ['strike'] segment. *)
Theorem lone_formatter_is_centered (mark s : jsstring) :
  List.In mark loneMarks -> s <> [] -> plainText s = true ->
  parseComment (mark ++ s ++ mark) = Ok [centered [textSegment s]].
Proof.
  intros Hm Hn Hp. apply plainText_existsb in Hp. rename Hp into Hs.
  destruct s as [|x s]; [congruence|]. clear Hn.
  pose proof Hs as Hx. simpl in Hx. apply orb_false_elim in Hx.
  destruct Hx as [Hx _].
  unfold loneMarks in Hm. cbn [List.In] in Hm.
  destruct Hm as [<-|[<-|[<-|[<-|[<-|[]]]]]].
  - destruct (lone_two 42 (x :: s) eq_refl ltac:(discriminate) Hs) as (m & E & G).
    change (js "**" ++ (x :: s) ++ js "**") with (42 :: 42 :: x :: s ++ [42; 42])%N.
    lone_case (js "**") 0 E G Hs Hx.
  - destruct (lone_two 95 (x :: s) eq_refl ltac:(discriminate) Hs) as (m & E & G).
    change (js "__" ++ (x :: s) ++ js "__") with (95 :: 95 :: x :: s ++ [95; 95])%N.
    lone_case (js "__") 1 E G Hs Hx.
  - destruct (lone_one 42 (x :: s) eq_refl ltac:(discriminate) Hs) as (m & E & G).
    change (js "*" ++ (x :: s) ++ js "*") with (42 :: x :: s ++ [42])%N.
    lone_case (js "*") 2 E G Hs Hx.
  - destruct (lone_one 95 (x :: s) eq_refl ltac:(discriminate) Hs) as (m & E & G).
    change (js "_" ++ (x :: s) ++ js "_") with (95 :: x :: s ++ [95])%N.
    lone_case (js "_") 3 E G Hs Hx.
  - destruct (lone_two 126 (x :: s) eq_refl ltac:(discriminate) Hs) as (m & E & G).
    pose proof (multiline_none_strike (x :: s) ltac:(discriminate) Hs) as B.
    change (js "~~" ++ (x :: s) ++ js "~~")
      with (126 :: 126 :: x :: s ++ [126; 126])%N in *.
    eapply (lone_line _ _ m [textSegment (x :: s)]).
    + discriminate.
    + exact (cleaned_marked (js "~~") (x :: s) eq_refl Hs).
    + exact B.
    + exact (existsb_marked (fun y => (y =? newline)%N) (js "~~") (x :: s)
               (fun y => eqb_trigger newline y eq_refl) Hs eq_refl).
    + rewrite trim_fixed;
        [ apply (firstLone_nth _ _ _ _ 4);
          [ reflexivity
          | cbn [List.firstn loneFormatterRules];
            repeat (apply List.Forall_cons; [lone_miss Hx|]); apply List.Forall_nil
          | cbn [l_regex]; rewrite exec_anchored; exact E ]
        | reflexivity
        | cbn [List.rev]; rewrite List.rev_app_distr; reflexivity ].
    + cbn [l_process]. rewrite G. apply parseInline_plain. exact Hs.
Qed.

Lemma lone_formatter_is_centered_witness :
  parseComment (js "~~" ++ js "so it goes" ++ js "~~")
  = Ok [centered [textSegment (js "so it goes")]].
Proof.
  apply lone_formatter_is_centered;
    [right; right; right; right; left; reflexivity|discriminate|reflexivity].
Defined.

End LoneFacts.

(** ** When parseComment throws *)

Module QuietFacts.
Import Regex RegexFacts ExecFacts Parser ParserFacts PlainFacts Decode DecodeFacts Quiet.

(** What a match captures is part of the matched text. *)
Lemma captures_free ic ml (t : N -> bool) r bef w aft cs cs' :
  Matches ic ml r bef w aft cs cs' ->
  List.existsb t w = false -> capsFree t cs -> capsFree t cs'.
Proof.
  induction 1 as [| | | | |a b bef w1 w2 aft cs cs1 cs2 _ IH1 _ IH2| | | |
                  i a bef w aft cs cs' _ IH]; intros Hw Hc; auto.
  - rewrite List.existsb_app in Hw. apply orb_false_elim in Hw.
    destruct Hw as [H1 H2]. auto.
  - intros j u. unfold setCap. destruct (Nat.eqb j i).
    + intros [= <-]. exact Hw.
    + now apply IH.
Qed.

Lemma existsb_skipn (t : N -> bool) n s :
  List.existsb t s = false -> List.existsb t (List.skipn n s) = false.
Proof.
  intros H. rewrite <- (List.firstn_skipn n s), List.existsb_app in H.
  now apply orb_false_elim in H.
Qed.

Lemma execG_free R (t : N -> bool) text lastIndex m :
  execG R text lastIndex = Some m -> List.existsb t text = false ->
  capsFree t (group m).
Proof.
  unfold execG. destruct (Nat.ltb _ _); [discriminate|]. intros H Ht.
  apply execFrom_sound in H. destruct H as (pre & w & post & E & [M _] & _).
  apply (existsb_skipn t lastIndex) in Ht. rewrite E in Ht.
  rewrite !List.existsb_app in Ht. apply orb_false_elim in Ht.
  destruct Ht as [_ Ht]. apply orb_false_elim in Ht. destruct Ht as [Hw _].
  apply (captures_free _ _ t _ _ _ _ _ _ M Hw). intros i u. discriminate.
Qed.

(** A replacement brings in what the replacer gives and nothing else. *)
Lemma pieces_free R (t : N -> bool) (f : MatchResult -> jsstring) :
  (forall m, List.existsb t (f m) = false) ->
  forall aft skip bef,
    List.existsb t aft = false ->
    List.existsb t
      (List.flat_map (fun p => match p with PChar c => [c] | PMatch m => f m end)
                     (pieces R skip bef aft)) = false.
Proof.
  intros Hf. induction aft as [|x aft IH]; intros skip bef Ht.
  - destruct skip; cbn [pieces]; [|reflexivity].
    destruct (execAt R bef []); cbn [List.flat_map]; [|reflexivity].
    now rewrite List.app_nil_r.
  - simpl in Ht. apply orb_false_elim in Ht. destruct Ht as [Hx Ht].
    destruct skip as [|n]; cbn [pieces]; [|now apply IH].
    destruct (execAt R bef (x :: aft)) as [m|]; cbn [List.flat_map].
    + rewrite List.existsb_app, Hf. cbn [orb].
      destruct (matched m) as [|y w]; [|now apply IH].
      cbn [List.flat_map List.app List.existsb]. rewrite Hx. now apply IH.
    + cbn [List.app List.existsb]. rewrite Hx. now apply IH.
Qed.

Lemma cleaned_without_hash text :
  has hash text = false ->
  exists c, cleaned text = Ok c /\ has hash c = false.
Proof.
  intros H. unfold cleaned.
  assert (Hc : has hash (replace brRegex (fun _ => [newline]) text) = false).
  { unfold replace, has. apply pieces_free; [reflexivity|exact H]. }
  eexists. split; [|exact Hc].
  rewrite decode_numeric_only.
  rewrite (pieces_no_match entityRegex (fun x => (x =? hash)%N) eq_refl _ []).
  - apply replaceEntities_chars.
  - now rewrite <- existsb_flip.
Qed.

Lemma splitLoop_quiet rec text :
  has hash text = false ->
  (forall c, has hash c = false -> forall e, rec c <> Throw e) ->
  forall fuel reLastIndex lastIndex blocks,
    List.Forall quietBlock blocks ->
    match splitLoop rec fuel text reLastIndex lastIndex blocks with
    | Ok (blocks', _) => List.Forall quietBlock blocks'
    | Throw _ => False
    | OutOfFuel => True
    end.
Proof.
  intros Ht Hrec.
  induction fuel as [|fuel IH]; intros li last blocks Hb; [exact I|].
  cbn [splitLoop].
  destruct (execG multilineRegex text li) as [m|] eqn:E; [|exact Hb].
  pose proof (execG_free _ _ _ _ _ E Ht) as F.
  set (blocks1 := if Nat.ltb last (index m) then _ else blocks).
  assert (Hb1 : List.Forall quietBlock blocks1).
  { subst blocks1. destruct (Nat.ltb last (index m)); [|exact Hb].
    apply List.Forall_app. split; [exact Hb|]. repeat constructor. }
  destruct (group m 2) as [c2|].
  { cbn [bind]. apply IH. apply List.Forall_app. split; [exact Hb1|].
    repeat constructor. }
  destruct (group m 4) as [c4|] eqn:G4.
  { cbn [bind]. apply IH. apply List.Forall_app. split; [exact Hb1|].
    constructor; [|constructor]. exact (F 4 c4 G4). }
  destruct (group m 6) as [c6|] eqn:G6.
  { pose proof (Hrec c6 (F 6 c6 G6)) as Q.
    destruct (rec c6) as [segs| |]; cbn [bind]; [|now apply (Q e)|exact I].
    apply IH. apply List.Forall_app. split; [exact Hb1|]. repeat constructor. }
  cbn [bind]. now apply IH.
Qed.

Lemma renderBlocks_quiet rec blocks :
  (forall c, has hash c = false -> forall e, rec c <> Throw e) ->
  List.Forall quietBlock blocks ->
  forall e, renderBlocks rec blocks <> Throw e.
Proof.
  intros Hrec. induction 1 as [|b bs Hb _ IH]; intros e; cbn [renderBlocks];
    [discriminate|].
  assert (Hhere : forall e', renderBlock rec b <> Throw e').
  { intros e'. destruct b as [s|c|c|segs]; cbn [renderBlock]; try discriminate.
    - destruct (parseLines (split s)); discriminate.
    - pose proof (Hrec c Hb e'). destruct (rec c); cbn [bind]; congruence. }
  destruct (renderBlock rec b) as [here| |]; cbn [bind];
    [|now apply Hhere|discriminate].
  pose proof (IH e). destruct (renderBlocks rec bs); cbn [bind]; congruence.
Qed.

Lemma parseComment_fuel_quiet :
  forall fuel text, has hash text = false ->
                    forall e, parseComment_fuel fuel text <> Throw e.
Proof.
  induction fuel as [|fuel IH]; intros text Ht e; [discriminate|].
  cbn [parseComment_fuel].
  destruct (cleaned_without_hash text Ht) as (c & -> & Hc). cbn [bind].
  unfold splitBlocks.
  pose proof (splitLoop_quiet (parseComment_fuel fuel) c Hc IH
                              (S (List.length c)) 0 0 [] (List.Forall_nil _)) as Hs.
  destruct (splitLoop (parseComment_fuel fuel) (S (List.length c)) c 0 0 [])
    as [[bs li]| |]; cbn [bind]; [|contradiction|discriminate].
  apply (renderBlocks_quiet _ _ IH).
  destruct (Nat.ltb li (List.length c)); [|exact Hs].
  apply List.Forall_app. split; [exact Hs|]. repeat constructor.
Qed.

(** X14. [parseComment] returns on every text without [#]: it throws for
    numeric character references only. *)
Theorem no_reference_no_throw (text : jsstring) :
  has hash text = false -> exists segs, parseComment text = Ok segs.
Proof.
  intros Ht.
  pose proof (parseComment_fuel_quiet (S (List.length text)) text Ht) as Q.
  pose proof (parseComment_fuel_total (S (List.length text)) text
                                      ltac:(lia)) as T.
  unfold parseComment. destruct (parseComment_fuel _ text) as [segs|e|].
  - now exists segs.
  - now destruct (Q e).
  - now destruct T.
Qed.

Lemma no_reference_no_throw_witness :
  exists segs, parseComment (js "~!a &amp; b!~ 1114112;") = Ok segs.
Proof. apply no_reference_no_throw. reflexivity. Defined.

End QuietFacts.

(** ** Lines of plain text *)

Module LinesFacts.
Import Regex RegexFacts ExecFacts Parser ParserFacts PlainFacts Decode DecodeFacts.
Import Lone LoneFacts Lines.

Lemma existsb_within (t : N -> bool) s :
  (forall x, t x = true -> isTrigger x = true) ->
  List.existsb isTrigger s = false -> List.existsb t s = false.
Proof.
  intros Ht Hs. destruct (List.existsb t s) eqn:E; [|reflexivity].
  apply List.existsb_exists in E. destruct E as (x & Hx & Tx).
  apply Ht in Tx. now rewrite (existsb_in _ _ _ Hs Hx) in Tx.
Qed.

Lemma existsb_joined (t : N -> bool) lines :
  t newline = false ->
  List.Forall (fun l => List.existsb t l = false) lines ->
  List.existsb t (joinLines lines) = false.
Proof.
  intros Hn. induction 1 as [|l rest Hl Hr IH]; [reflexivity|].
  cbn [joinLines]. destruct rest as [|l2 rest]; [exact Hl|].
  rewrite List.existsb_app, Hl. cbn [List.existsb orb]. now rewrite Hn.
Qed.

Lemma split_cons_line l r :
  List.existsb (fun x => (x =? newline)%N) l = false ->
  split (l ++ newline :: r) = l :: split r.
Proof.
  induction l as [|c l IH]; intros H.
  - cbn [List.app split]. now rewrite N.eqb_refl.
  - simpl in H. apply orb_false_elim in H. destruct H as [Hc Hl].
    cbn [List.app split]. now rewrite Hc, (IH Hl).
Qed.

Lemma split_joined lines :
  lines <> [] ->
  List.Forall (fun l => List.existsb (fun x => (x =? newline)%N) l = false) lines ->
  split (joinLines lines) = lines.
Proof.
  intros Hn H. induction H as [|l rest Hl Hr IH]; [congruence|].
  cbn [joinLines]. destruct rest as [|l2 rest]; [now apply split_no_newline|].
  rewrite (split_cons_line _ _ Hl). f_equal. apply IH. discriminate.
Qed.

Lemma parseLine_plain line more :
  List.existsb isTrigger line = false ->
  parseLine line more = Some (textOf line ++ if more then [brSegment] else []).
Proof.
  intros Ht. unfold parseLine.
  rewrite (firstLone_none (loneFormatterRules parseInline) (trim line) eq_refl
                          (existsb_trim isTrigger line Ht)).
  rewrite (lineStart_none line Ht).
  destruct line as [|c line]; [now destruct more|].
  now rewrite (parseInline_plain c line Ht).
Qed.

Lemma parseLines_plain lines :
  List.Forall (fun l => List.existsb isTrigger l = false) lines ->
  parseLines lines = Some (plainLines lines).
Proof.
  induction 1 as [|l rest Hl Hr IH]; [reflexivity|].
  cbn [parseLines plainLines]. rewrite (parseLine_plain _ _ Hl), IH.
  destruct rest as [|l2 rest]; cbn [plainLines].
  - now rewrite !List.app_nil_r.
  - now rewrite <- List.app_assoc.
Qed.

(** X15. Lines of plain text joined by newlines parse line by line: every
    non-empty line gives one ['text'] segment with the line as it is,
    every newline gives one ['br'] segment in its place, and an empty line
    gives nothing of its own. *)
Theorem plain_lines_roundtrip (lines : list jsstring) :
  List.Forall (fun l => plainText l = true) lines ->
  joinLines lines <> [] ->
  parseComment (joinLines lines) = Ok (plainLines lines).
Proof.
  intros Hp Hn.
  assert (Ht : List.Forall (fun l => List.existsb isTrigger l = false) lines).
  { eapply List.Forall_impl; [|exact Hp]. intros l. apply plainText_existsb. }
  assert (Hin : forall t : N -> bool,
             t newline = false ->
             (forall x, t x = true -> isTrigger x = true) ->
             List.existsb t (joinLines lines) = false).
  { intros t Hnl Hsub. apply existsb_joined; [exact Hnl|].
    eapply List.Forall_impl; [|exact Ht]. intros l. now apply existsb_within. }
  assert (Hl : lines <> []) by (intros ->; now apply Hn).
  assert (Hnl : List.Forall
                  (fun l => List.existsb (fun x => (x =? newline)%N) l = false) lines).
  { eapply List.Forall_impl; [|exact Ht]. intros l.
    apply existsb_within. intros x. apply (eqb_trigger newline x eq_refl). }
  destruct (joinLines lines) as [|c text] eqn:E; [congruence|].
  unfold parseComment. cbn [List.length parseComment_fuel].
  assert (Hc : cleaned (c :: text) = Ok (c :: text)).
  { unfold cleaned.
    rewrite (replace_no_match brRegex (fun x => (x =? 60)%N) _ _ eq_refl
               (Hin _ eq_refl (fun x => eqb_trigger 60 x eq_refl))).
    rewrite decode_numeric_only.
    rewrite (pieces_no_match entityRegex (fun x => (x =? hash)%N) eq_refl _ []
               (Hin _ eq_refl (fun x => eqb_trigger hash x eq_refl))).
    apply replaceEntities_chars. }
  rewrite Hc. cbn [bind].
  rewrite (splitBlocks_none _ c text
             (execFrom_none multilineRegex (oneOf "`~") [] _ eq_refl
                (Hin _ eq_refl (fun x => oneOf_trigger "`~" x eq_refl)))).
  cbn [bind renderBlocks renderBlock]. rewrite <- E, (split_joined lines Hl Hnl).
  rewrite (parseLines_plain lines Ht). cbn [ofOption bind].
  now rewrite List.app_nil_r.
Qed.

Lemma plain_lines_roundtrip_witness :
  parseComment (js "one" ++ newline :: newline :: js "two" ++ [newline])
  = Ok [textSegment (js "one"); brSegment; brSegment; textSegment (js "two");
        brSegment].
Proof.
  apply (plain_lines_roundtrip [js "one"; []; js "two"; []]);
    [repeat constructor|discriminate].
Defined.

End LinesFacts.

(** ** Inline formatters *)

Module InlineFacts.
Import Regex RegexFacts ExecFacts Parser ParserFacts PlainFacts CodeBlockFacts.
Import Decode DecodeFacts Lone LoneFacts Lines LinesFacts Inline.
Local Open Scope regex_scope.

Lemma lacks_sound k ic ml r bef w aft cs cs' :
  isLower k = false ->
  Matches ic ml r bef w aft cs cs' ->
  lacks k r = true -> List.existsb (fun x => (x =? k)%N) w = false.
Proof.
  intros Hk. induction 1 as [| c x| p x| | |a b bef w1 w2 aft cs cs1 cs2 _ IH1 _ IH2
                            |a b ? ? ? ? ? _ IH|a b ? ? ? ? ? _ IH
                            |g lo hi p bef w aft cs Hall|i a ? ? ? ? ? _ IH];
    cbn [lacks List.existsb]; intros Hl; try reflexivity.
  - apply andb_true_iff in Hl. destruct Hl as [H1 H2].
    apply negb_true_iff in H1, H2. rewrite orb_false_r.
    destruct (x =? k)%N eqn:E; [|reflexivity]. apply N.eqb_eq in E. subst x.
    unfold sameChar in H. destruct ic.
    + unfold canon at 1 in H. rewrite Hk in H. apply N.eqb_eq in H.
      rewrite <- H, N.eqb_refl in H1. discriminate.
    + apply N.eqb_eq in H. subst c. rewrite N.eqb_refl in H2. discriminate.
  - apply negb_true_iff in Hl. rewrite orb_false_r.
    destruct (x =? k)%N eqn:E; [|reflexivity]. apply N.eqb_eq in E. congruence.
  - apply andb_true_iff in Hl. destruct Hl as [H1 H2].
    rewrite List.existsb_app, (IH1 H1), (IH2 H2). reflexivity.
  - apply andb_true_iff in Hl. tauto.
  - apply andb_true_iff in Hl. tauto.
  - apply negb_true_iff in Hl.
    destruct (List.existsb _ w) eqn:E; [|reflexivity].
    apply List.existsb_exists in E. destruct E as (x & Hx & Ex).
    apply N.eqb_eq in Ex. subst x.
    rewrite List.Forall_forall in Hall. specialize (Hall k Hx). congruence.
  - auto.
Qed.

Lemma empty_sound ic ml r bef w aft cs cs' :
  Matches ic ml r bef w aft cs cs' -> empty r = true -> w = [].
Proof.
  induction 1 as [| | | | |a b bef w1 w2 aft cs cs1 cs2 _ IH1 _ IH2
                  |a b ? ? ? ? ? _ IH|a b ? ? ? ? ? _ IH| |i a ? ? ? ? ? _ IH];
    cbn [empty]; intros He; try reflexivity; try discriminate.
  - apply andb_true_iff in He. destruct He as [H1 H2].
    now rewrite (IH1 H1), (IH2 H2).
  - apply andb_true_iff in He. tauto.
  - apply andb_true_iff in He. tauto.
  - auto.
Qed.

Lemma opens_sound ic ml r bef w aft cs cs' :
  Matches ic ml r bef w aft cs cs' -> opens r = true -> opensWith w.
Proof.
  induction 1 as [| c x| | | |a b bef w1 w2 aft cs cs1 cs2 M1 IH1 _ IH2
                  |a b ? ? ? ? ? _ IH|a b ? ? ? ? ? _ IH| |i a ? ? ? ? ? _ IH];
    cbn [opens]; intros Ho; try discriminate.
  - apply andb_true_iff in Ho. destruct Ho as [Ht Hl].
    apply negb_true_iff in Hl.
    rewrite (sameChar_nonletter ic x c Hl H). now exists c, [].
  - apply orb_true_iff in Ho. destruct Ho as [Ho|Ho].
    + destruct (IH1 Ho) as (c & v & -> & Hc). now exists c, (v ++ w2).
    + apply andb_true_iff in Ho. destruct Ho as [He Ho].
      rewrite (empty_sound _ _ _ _ _ _ _ _ M1 He). now apply IH2.
  - apply andb_true_iff in Ho. tauto.
  - apply andb_true_iff in Ho. tauto.
  - auto.
Qed.

Lemma reaches_sound k ic ml r bef w aft cs cs' :
  isLower k = false ->
  Matches ic ml r bef w aft cs cs' -> reaches k r = true -> reachesPast k w.
Proof.
  intros Hk.
  induction 1 as [| c x| | | |a b bef w1 w2 aft cs cs1 cs2 M1 IH1 _ IH2
                  |a b ? ? ? ? ? _ IH|a b ? ? ? ? ? _ IH| |i a ? ? ? ? ? _ IH];
    cbn [reaches]; intros Hr; try discriminate.
  - apply andb_true_iff in Hr. destruct Hr as [Hr Hn].
    apply andb_true_iff in Hr. destruct Hr as [Ht Hl].
    apply negb_true_iff in Hl, Hn.
    rewrite (sameChar_nonletter ic x c Hl H). exists [], c, [].
    repeat split; auto. intros ->. now rewrite N.eqb_refl in Hn.
  - apply orb_true_iff in Hr. destruct Hr as [Hr|Hr].
    + destruct (IH1 Hr) as (u & c & v & -> & Hu & Hc & Hn).
      exists u, c, (v ++ w2). rewrite <- List.app_assoc. repeat split; auto.
    + apply andb_true_iff in Hr. destruct Hr as [Hl Hr].
      destruct (IH2 Hr) as (u & c & v & -> & Hu & Hc & Hn).
      exists (w1 ++ u), c, v. rewrite <- List.app_assoc. repeat split; auto.
      rewrite List.existsb_app, Hu, (lacks_sound k _ _ _ _ _ _ _ _ Hk M1 Hl).
      reflexivity.
  - apply andb_true_iff in Hr. tauto.
  - apply andb_true_iff in Hr. tauto.
  - auto.
Qed.

Lemma blocked_shape k ic ml :
  isLower k = false ->
  forall r bef w aft cs cs',
    Matches ic ml r bef w aft cs cs' -> blocked k r = true ->
    opensWith w \/ reachesPast k w.
Proof.
  intros Hk.
  induction r as [|c|p| | |a IHa b IHb|a IHa b IHb|g lo hi p|i a IHa];
    intros bef w aft cs cs' M Hb; cbn [blocked] in Hb;
      try (apply orb_true_iff in Hb; destruct Hb as [Hb|Hb];
           [left; exact (opens_sound _ _ _ _ _ _ _ _ M Hb)
           |right; exact (reaches_sound k _ _ _ _ _ _ _ _ Hk M Hb)]).
  - apply andb_true_iff in Hb. destruct Hb as [Ha Hb].
    inversion M; subst; eauto.
  - inversion M; subst; eauto.
Qed.

(** Plain text that ends at a [k]: a match of a blocked pattern cannot
    start in it. *)
Lemma no_match_into_mark k w aft q rest :
  reachesPast k w ->
  w ++ aft = q ++ k :: rest -> List.existsb isTrigger q = false -> False.
Proof.
  intros (u & c & v & -> & Hu & Hc & Hn). revert q.
  induction u as [|x u IH]; intros q E Hq.
  - destruct q as [|z q]; cbn [List.app] in E; injection E as E1 E2.
    + now apply Hn.
    + subst z. simpl in Hq. now rewrite Hc in Hq.
  - simpl in Hu. apply orb_false_elim in Hu. destruct Hu as [Hx Hu].
    destruct q as [|z q]; cbn [List.app] in E; injection E as E1 E2.
    + subst x. now rewrite N.eqb_refl in Hx.
    + simpl in Hq. apply orb_false_elim in Hq. destruct Hq as [_ Hq].
      exact (IH Hu q E2 Hq).
Qed.

Lemma blocked_sound k ic ml r bef w aft cs cs' y p rest :
  isLower k = false ->
  Matches ic ml r bef w aft cs cs' -> blocked k r = true ->
  w ++ aft = (y :: p) ++ k :: rest ->
  List.existsb isTrigger (y :: p) = false -> False.
Proof.
  intros Hk M Hb E Hq.
  destruct (blocked_shape k ic ml Hk _ _ _ _ _ _ M Hb) as [(c & v & -> & Hc)|R].
  - cbn [List.app] in E. injection E as E1 E2. subst c.
    simpl in Hq. now rewrite Hc in Hq.
  - exact (no_match_into_mark k w aft (y :: p) rest R E Hq).
Qed.

Lemma anchored_sound ic r bef w aft cs cs' :
  Matches ic false r bef w aft cs cs' -> anchored r = true -> bef = [].
Proof.
  revert bef w aft cs cs'.
  induction r as [|c|p| | |a IHa b IHb|a IHa b IHb|g lo hi p|i a IHa];
    intros bef w aft cs cs' M Ha; cbn [anchored] in Ha; try discriminate.
  - destruct a; try discriminate. inversion M; subst.
    match goal with H : Matches _ _ Bol _ _ _ _ _ |- _ => inversion H; subst end.
    match goal with H : atLineStart false ?b = true |- _ =>
                    destruct b; [reflexivity|discriminate H] end.
  - apply andb_true_iff in Ha. destruct Ha as [H1 H2].
    inversion M; subst; eauto.
  - inversion M; subst; eauto.
Qed.

Lemma execAt_anchored R x bef aft :
  anchored (re R) = true -> multiline R = false -> execAt R (x :: bef) aft = None.
Proof.
  intros Ha Hm. destruct (execAt R (x :: bef) aft) as [m|] eqn:E; [|reflexivity].
  apply execAt_sound in E. destruct E as (w & aft' & _ & [M _] & _).
  rewrite Hm in M. now apply anchored_sound in M.
Qed.

Lemma execFrom_anchored_all R :
  anchored (re R) = true -> multiline R = false ->
  forall aft x bef, execFrom R (x :: bef) aft = None.
Proof.
  intros Ha Hm. induction aft as [|y aft IH]; intros x bef; cbn [execFrom];
    rewrite (execAt_anchored R x bef _ Ha Hm); [reflexivity|apply IH].
Qed.

Lemma exec_at_start R text :
  anchored (re R) = true -> multiline R = false ->
  exec R text = execAt R [] text.
Proof.
  intros Ha Hm. unfold exec. destruct text as [|x text]; cbn [execFrom];
    destruct (execAt R [] _); try reflexivity.
  now apply execFrom_anchored_all.
Qed.

Lemma execAt_blocked R k bef y p rest :
  isLower k = false -> blocked k (re R) = true ->
  List.existsb isTrigger (y :: p) = false ->
  execAt R bef (y :: p ++ k :: rest) = None.
Proof.
  intros Hk Hb Hq.
  destruct (execAt R bef _) as [m|] eqn:E; [|reflexivity]. exfalso.
  apply execAt_sound in E. destruct E as (w & aft' & E & [M _] & _).
  exact (blocked_sound k _ _ _ _ _ _ _ _ y p rest Hk M Hb (eq_sym E) Hq).
Qed.

Lemma firstMatch_before_mark rules k y p rest :
  isLower k = false ->
  List.forallb (fun rule => misses k (r_regex rule)) rules = true ->
  List.existsb isTrigger (y :: p) = false ->
  firstMatch rules (y :: p ++ k :: rest) = None.
Proof.
  intros Hk Hr Hq. induction rules as [|r rs IH]; [reflexivity|].
  cbn [List.forallb] in Hr. apply andb_true_iff in Hr. destruct Hr as [H1 H2].
  unfold misses in H1. apply andb_true_iff in H1. destruct H1 as [H1 Hb].
  apply andb_true_iff in H1. destruct H1 as [Ha Hm]. apply negb_true_iff in Hm.
  cbn [firstMatch]. rewrite (exec_at_start _ _ Ha Hm).
  rewrite (execAt_blocked _ k [] y p rest Hk Hb Hq). now apply IH.
Qed.

Lemma execFrom_to_mark R k rest m :
  isLower k = false -> blocked k (re R) = true ->
  forall p bef,
    List.existsb isTrigger p = false ->
    execAt R (List.rev p ++ bef) (k :: rest) = Some m ->
    execFrom R bef (p ++ k :: rest) = Some m.
Proof.
  intros Hk Hb. induction p as [|y p IH]; intros bef Hq E.
  - cbn [List.app List.rev] in *. cbn [execFrom]. now rewrite E.
  - cbn [List.app execFrom].
    rewrite (execAt_blocked R k bef y p rest Hk Hb Hq).
    apply IH.
    + simpl in Hq. now apply orb_false_elim in Hq.
    + cbn [List.rev] in E. now rewrite <- List.app_assoc in E.
Qed.

Lemma nextToken_at_mark k bef rest :
  k = 42%N \/ k = 95%N ->
  exists m, execAt nextTokenRegex bef (k :: rest) = Some m.
Proof.
  intros [-> | ->]; destruct rest as [|z rest];
    try (eexists; reflexivity).
  - destruct (z =? 42)%N eqn:E.
    + apply N.eqb_eq in E. subst z. eexists. reflexivity.
    + unfold execAt, nextTokenRegex. cbn [re ignoreCase multiline].
      open_lits. cbn [run sameChar]. rewrite E. eexists. reflexivity.
  - destruct (z =? 95)%N eqn:E.
    + apply N.eqb_eq in E. subst z. eexists. reflexivity.
    + unfold execAt, nextTokenRegex. cbn [re ignoreCase multiline].
      open_lits. cbn [run sameChar]. rewrite E. eexists. reflexivity.
Qed.

Lemma search_to_mark k y p rest :
  k = 42%N \/ k = 95%N ->
  List.existsb isTrigger (y :: p) = false ->
  search nextTokenRegex (y :: p ++ k :: rest) = Some (List.length (y :: p)).
Proof.
  intros Hk Hq.
  destruct (nextToken_at_mark k (List.rev (y :: p) ++ []) rest Hk) as [m E].
  assert (Hl : isLower k = false) by (destruct Hk as [-> | ->]; reflexivity).
  unfold search, exec.
  pose proof (execFrom_to_mark nextTokenRegex k rest m Hl
                ltac:(destruct Hk as [-> | ->]; reflexivity) (y :: p) [] Hq E) as F.
  cbn [List.app] in F. rewrite F. cbn [option_map]. f_equal.
  apply execAt_sound in E. destruct E as (_ & _ & _ & _ & ->).
  now rewrite List.app_nil_r, List.length_rev.
Qed.

Lemma inlineStep_before_mark pi k y p rest segments :
  k = 42%N \/ k = 95%N ->
  List.existsb isTrigger (y :: p) = false ->
  inlineStep pi (y :: p ++ k :: rest) segments
  = Some (k :: rest, pushText segments (y :: p)).
Proof.
  intros Hk Hq. unfold inlineStep.
  rewrite (firstMatch_before_mark (inlineRules pi) k y p rest
             ltac:(destruct Hk as [-> | ->]; reflexivity)
             ltac:(destruct Hk as [-> | ->]; reflexivity) Hq).
  rewrite (search_to_mark k y p rest Hk Hq).
  cbv zeta. replace (Nat.ltb 0 (List.length (y :: p))) with true by reflexivity.
  change (y :: p ++ k :: rest) with ((y :: p) ++ k :: rest).
  rewrite List.firstn_app, List.firstn_all, Nat.sub_diag. cbn [List.firstn].
  rewrite List.app_nil_r, List.skipn_app, List.skipn_all, Nat.sub_diag.
  reflexivity.
Qed.

(** *** The formatter at the head of the text *)

Ltac closed_tests :=
  repeat match goal with
         | |- context [(?a =? ?b)%N] =>
           let v := eval vm_compute in (a =? b)%N in
           lazymatch v with
           | true => change (a =? b)%N with true
           | false => change (a =? b)%N with false
           end
         end;
  cbv iota.

Ltac lazy_hit Hn Hs c :=
  unfold execAt, lazyPlus; open_lits;
  cbn [re ignoreCase multiline run atLineStart sameChar];
  closed_tests;
  erewrite many_lazy_first;
  [ reflexivity
  | let d1 := fresh "d1" in
    let x := fresh "x" in
    let d2 := fresh "d2" in
    intros d1 x d2 ->;
    rewrite (not_trigger x c);
    [reflexivity|apply (existsb_in _ _ _ Hs); apply List.in_elt|reflexivity]
  | match goal with |- _ <= List.length ?s =>
                    destruct s; [congruence|simpl; lia] end
  | rewrite ?N.eqb_refl; reflexivity ].

Ltac hit_result Hn s post :=
  cbn [matched]; rewrite (firstn_consumed s); split;
  [ match goal with
    | |- List.firstn _ ?text = ?w =>
      replace text with (w ++ post)
        by (cbn [List.app]; rewrite <- List.app_assoc; reflexivity);
      apply firstn_consumed
    end
  | unfold grpOr, grp; cbn [group setCap Nat.eqb];
    destruct s; [congruence|reflexivity] ].

Lemma bold_star s post :
  s <> [] -> List.existsb isTrigger s = false ->
  exists m,
    execAt (mkRegex ((Bol ;; lit "**" ;; Grp 1 (lazyPlus any) ;; lit "**") <|>
                     (Bol ;; lit "__" ;; Grp 2 (lazyPlus any) ;; lit "__"))
                    false false)
           [] (42 :: 42 :: s ++ 42 :: 42 :: post)%N = Some m /\
    matched m = (42 :: 42 :: s ++ [42; 42])%N /\ grpOr m 1 2 = s.
Proof.
  intros Hn Hs. eexists. split; [lazy_hit Hn Hs 42%N|hit_result Hn s post].
Qed.

Lemma bold_underscore s post :
  s <> [] -> List.existsb isTrigger s = false ->
  exists m,
    execAt (mkRegex ((Bol ;; lit "**" ;; Grp 1 (lazyPlus any) ;; lit "**") <|>
                     (Bol ;; lit "__" ;; Grp 2 (lazyPlus any) ;; lit "__"))
                    false false)
           [] (95 :: 95 :: s ++ 95 :: 95 :: post)%N = Some m /\
    matched m = (95 :: 95 :: s ++ [95; 95])%N /\ grpOr m 1 2 = s.
Proof.
  intros Hn Hs. eexists. split; [lazy_hit Hn Hs 95%N|hit_result Hn s post].
Qed.

Lemma italic_star s post :
  s <> [] -> List.existsb isTrigger s = false ->
  exists m,
    execAt (mkRegex ((Bol ;; lit "*" ;; Grp 1 (lazyPlus any) ;; lit "*") <|>
                     (Bol ;; lit "_" ;; Grp 2 (lazyPlus any) ;; lit "_"))
                    false false)
           [] (42 :: s ++ 42 :: post)%N = Some m /\
    matched m = (42 :: s ++ [42])%N /\ grpOr m 1 2 = s.
Proof.
  intros Hn Hs. eexists. split; [lazy_hit Hn Hs 42%N|hit_result Hn s post].
Qed.

Lemma italic_underscore s post :
  s <> [] -> List.existsb isTrigger s = false ->
  exists m,
    execAt (mkRegex ((Bol ;; lit "*" ;; Grp 1 (lazyPlus any) ;; lit "*") <|>
                     (Bol ;; lit "_" ;; Grp 2 (lazyPlus any) ;; lit "_"))
                    false false)
           [] (95 :: s ++ 95 :: post)%N = Some m /\
    matched m = (95 :: s ++ [95])%N /\ grpOr m 1 2 = s.
Proof.
  intros Hn Hs. eexists. split; [lazy_hit Hn Hs 95%N|hit_result Hn s post].
Qed.

Lemma firstMatch_nth rules text rule m :
  forall k,
    List.nth_error rules k = Some rule ->
    List.Forall (fun r => exec (r_regex r) text = None) (List.firstn k rules) ->
    exec (r_regex rule) text = Some m ->
    firstMatch rules text = Some (rule, m).
Proof.
  induction rules as [|r rules IH]; intros [|k] Hk Hf Hm; try discriminate.
  - injection Hk as ->. cbn [firstMatch]. now rewrite Hm.
  - cbn [List.firstn] in Hf. inversion Hf as [|? ? Hr Hf']; subst.
    cbn [firstMatch]. rewrite Hr. now apply (IH k).
Qed.

(** An earlier rule misses the text at its first or second character. *)
Ltac rule_miss Hx :=
  cbn [r_regex l_regex List.app]; rewrite exec_at_start by reflexivity;
  first
    [ reflexivity
    | unfold execAt; open_lits;
      cbn [re ignoreCase multiline run atLineStart sameChar];
      closed_tests;
      rewrite ?(not_trigger _ 42 Hx eq_refl), ?(not_trigger _ 95 Hx eq_refl),
        ?(not_trigger _ 126 Hx eq_refl), ?(not_trigger _ 35 Hx eq_refl),
        ?(not_trigger _ 62 Hx eq_refl), ?(not_trigger _ 45 Hx eq_refl);
      reflexivity ].

Ltac all_miss Hx :=
  repeat (apply List.Forall_cons; [rule_miss Hx|]); apply List.Forall_nil.

Ltac step_at_mark pi s post Hm Hg Hpi E k Hx :=
  unfold inlineStep;
  match goal with
  | |- context [firstMatch (inlineRules pi) ?text] =>
    let F := fresh "F" in
    eassert (F : firstMatch (inlineRules pi) text = Some (_, _));
    [ eapply (firstMatch_nth (inlineRules pi) text _ _ k);
      [ reflexivity
      | cbn [List.firstn inlineRules]; all_miss Hx
      | cbn [r_regex]; rewrite exec_at_start by reflexivity; exact E ]
    | rewrite F; cbn [r_process]; rewrite Hg; unfold recurse; rewrite Hpi;
      cbn [option_map]; rewrite Hm;
      match goal with
      | |- Some (List.skipn (List.length ?w) _, _) = _ =>
        replace text with (w ++ post)
          by (cbn [List.app]; rewrite <- List.app_assoc; reflexivity);
        rewrite List.skipn_app, List.skipn_all, Nat.sub_diag; reflexivity
      end ]
  end.

Lemma inlineStep_at_mark pi mark ty s post segments :
  List.In (mark, ty) inlineMarks ->
  s <> [] -> List.existsb isTrigger s = false ->
  pi s = Some [textSegment s] ->
  inlineStep pi (mark ++ s ++ mark ++ post) segments
  = Some (post, segments ++ [wrapped ty s]).
Proof.
  intros Hin Hn Hs Hpi.
  assert (Hx : match s with x :: _ => isTrigger x = false | [] => True end).
  { destruct s as [|x s']; [exact I|]. simpl in Hs. now apply orb_false_elim in Hs. }
  unfold inlineMarks in Hin. cbn [List.In] in Hin.
  destruct Hin as [[= <- <-]|[[= <- <-]|[[= <- <-]|[[= <- <-]|[]]]]].
  - destruct (bold_star s post Hn Hs) as (m & E & Hm & Hg).
    change (js "**" ++ s ++ js "**" ++ post) with (42 :: 42 :: s ++ 42 :: 42 :: post)%N.
    destruct s as [|x s']; [congruence|].
    step_at_mark pi (x :: s') post Hm Hg Hpi E 9 Hx.
  - destruct (bold_underscore s post Hn Hs) as (m & E & Hm & Hg).
    change (js "__" ++ s ++ js "__" ++ post) with (95 :: 95 :: s ++ 95 :: 95 :: post)%N.
    destruct s as [|x s']; [congruence|].
    step_at_mark pi (x :: s') post Hm Hg Hpi E 9 Hx.
  - destruct (italic_star s post Hn Hs) as (m & E & Hm & Hg).
    change (js "*" ++ s ++ js "*" ++ post) with (42 :: s ++ 42 :: post)%N.
    destruct s as [|x s']; [congruence|].
    step_at_mark pi (x :: s') post Hm Hg Hpi E 10 Hx.
  - destruct (italic_underscore s post Hn Hs) as (m & E & Hm & Hg).
    change (js "_" ++ s ++ js "_" ++ post) with (95 :: s ++ 95 :: post)%N.
    destruct s as [|x s']; [congruence|].
    step_at_mark pi (x :: s') post Hm Hg Hpi E 10 Hx.
Qed.

(** *** The whole line *)

Lemma inlineLoop_plain fuel c s segments :
  2 <= fuel -> List.existsb isTrigger (c :: s) = false ->
  inlineLoop fuel (c :: s) segments = Some (pushText segments (c :: s)).
Proof.
  intros Hf Hs. destruct fuel as [|[|fuel]]; [lia|lia|].
  cbn [inlineLoop]. now rewrite (inlineStep_plain _ c s segments Hs).
Qed.

Lemma mark_head mark ty :
  List.In (mark, ty) inlineMarks ->
  exists k rest, mark = k :: rest /\ (k = 42%N \/ k = 95%N) /\
                 (ty = Tbold \/ ty = Titalic).
Proof.
  unfold inlineMarks. cbn [List.In].
  intros [[= <- <-]|[[= <- <-]|[[= <- <-]|[[= <- <-]|[]]]]];
    eexists; eexists; (split; [reflexivity|]); auto.
Qed.

Lemma pushText_after ty s pre post :
  ty = Tbold \/ ty = Titalic ->
  match post with
  | [] => [textSegment pre; wrapped ty s]
  | _ :: _ => pushText [textSegment pre; wrapped ty s] post
  end = textSegment pre :: wrapped ty s :: textOf post.
Proof. intros [-> | ->]; now destruct post. Qed.

Lemma inlineLoop_formatter fuel mark ty y p s post :
  List.In (mark, ty) inlineMarks ->
  List.existsb isTrigger (y :: p) = false ->
  s <> [] -> List.existsb isTrigger s = false ->
  List.existsb isTrigger post = false ->
  2 <= fuel ->
  inlineLoop (S (S fuel)) (y :: p ++ mark ++ s ++ mark ++ post) []
  = Some (textSegment (y :: p) :: wrapped ty s :: textOf post).
Proof.
  intros Hin Hq Hn Hs Hp Hf.
  destruct (mark_head mark ty Hin) as (k & rest & -> & Hk & Hty).
  cbn [inlineLoop].
  change (y :: p ++ (k :: rest) ++ s ++ (k :: rest) ++ post)
    with (y :: p ++ k :: (rest ++ s ++ (k :: rest) ++ post)).
  rewrite (inlineStep_before_mark _ k y p _ [] Hk Hq).
  cbn [pushText inlineLoop].
  change (k :: rest ++ s ++ (k :: rest) ++ post)
    with ((k :: rest) ++ s ++ (k :: rest) ++ post).
  rewrite (inlineStep_at_mark _ (k :: rest) ty s post [textSegment (y :: p)]
                              Hin Hn Hs).
  - cbn [List.app]. rewrite <- (pushText_after ty s (y :: p) post Hty).
    destruct post as [|c post]; [destruct fuel; [lia|reflexivity]|].
    now apply inlineLoop_plain.
  - destruct s as [|c s]; [congruence|].
    now rewrite (inlineLoop_plain fuel c s [] Hf Hs).
Qed.

Lemma parseInline_formatter mark ty y p s post :
  List.In (mark, ty) inlineMarks ->
  List.existsb isTrigger (y :: p) = false ->
  s <> [] -> List.existsb isTrigger s = false ->
  List.existsb isTrigger post = false ->
  parseInline (y :: p ++ mark ++ s ++ mark ++ post)
  = Some (textSegment (y :: p) :: wrapped ty s :: textOf post).
Proof.
  intros Hin Hq Hn Hs Hp.
  destruct (mark_head mark ty Hin) as (k & rest & Hmark & _ & _).
  unfold parseInline, parseInline_fuel.
  assert (L : exists fuel, 2 <= fuel /\
                           S (List.length (y :: p ++ mark ++ s ++ mark ++ post))
                           = S (S fuel)).
  { cbn [List.length]. rewrite !List.length_app, Hmark. cbn [List.length].
    destruct s as [|c s]; [congruence|]. cbn [List.length].
    eexists. split; [|reflexivity]. lia. }
  destruct L as (fuel & Hf & ->).
  now apply inlineLoop_formatter.
Qed.

Lemma dropSpace_last l y :
  isSpace y = false -> exists u, dropSpace (l ++ [y]) = u ++ [y].
Proof.
  intros Hy. induction l as [|c l IH]; cbn [List.app dropSpace].
  - rewrite Hy. now exists [].
  - destruct (isSpace c); [exact IH|]. now exists (c :: l).
Qed.

Lemma trim_head y rest :
  isSpace y = false -> exists z, trim (y :: rest) = y :: z.
Proof.
  intros Hy. unfold trim. cbn [dropSpace]. rewrite Hy. cbn [List.rev].
  destruct (dropSpace_last (List.rev rest) y Hy) as (u & ->).
  rewrite List.rev_app_distr. now exists (List.rev u).
Qed.

Lemma firstLone_plain_head y z :
  isTrigger y = false ->
  firstLone (loneFormatterRules parseInline) (y :: z) = None.
Proof.
  intros Hy.
  assert (H : List.Forall (fun r => exec (l_regex r) (y :: z) = None)
                          (loneFormatterRules parseInline)).
  { unfold loneFormatterRules.
    all_miss Hy. }
  induction H as [|r rs Hr _ IH]; cbn [firstLone]; [reflexivity|]. now rewrite Hr.
Qed.

Lemma lineStart_plain_head y z :
  isTrigger y = false ->
  firstMatch (lineStartRules parseInline) (y :: z) = None.
Proof.
  intros Hy.
  assert (H : List.Forall (fun r => exec (r_regex r) (y :: z) = None)
                          (lineStartRules parseInline)).
  { unfold lineStartRules.
    repeat (apply List.Forall_cons;
            [cbn [r_regex]; rewrite exec_anchored; unfold execAt; open_lits;
             cbn [re ignoreCase multiline run many atLineStart sameChar];
             unfold oneOf; change (js "#") with [35%N];
             cbn [List.existsb];
             rewrite ?(not_trigger _ 35 Hy eq_refl), ?(not_trigger _ 62 Hy eq_refl),
               ?(not_trigger _ 45 Hy eq_refl); reflexivity|]).
    apply List.Forall_nil. }
  induction H as [|r rs Hr _ IH]; cbn [firstMatch]; [reflexivity|]. now rewrite Hr.
Qed.

(** X16. In a line that starts with plain text, a bold or italic mark
    around plain text gives a formatter segment between the texts around
    it: [pre **s** post] parses to the ['text'] segment [pre], a ['bold']
    segment holding the ['text'] segment [s], and the ['text'] segment
    [post] when there is one; likewise for [__s__] (bold), [*s*] and [_s_]
    (italic).  The marks are gone and the texts are kept as they are. *)
Theorem inline_formatter_roundtrip (mark : jsstring) (ty : SegType)
        (y : N) (p s post : jsstring) :
  List.In (mark, ty) inlineMarks ->
  isSpace y = false -> plainText (y :: p) = true ->
  s <> [] -> plainText s = true -> plainText post = true ->
  parseComment (y :: p ++ mark ++ s ++ mark ++ post)
  = Ok (textSegment (y :: p) :: wrapped ty s :: textOf post).
Proof.
  intros Hin Hy Hq Hn Hs Hp.
  apply plainText_existsb in Hq, Hs, Hp.
  pose proof (parseInline_formatter mark ty y p s post Hin Hq Hn Hs Hp) as PI.
  destruct (mark_head mark ty Hin) as (k & rest & Hmark & Hk & _).
  set (text := p ++ mark ++ s ++ mark ++ post) in *.
  assert (Hyt : isTrigger y = false).
  { simpl in Hq. now apply orb_false_elim in Hq. }
  assert (Hfree : forall t : N -> bool,
             (forall x, t x = true -> isTrigger x = true) ->
             List.existsb t mark = false ->
             List.existsb t (y :: text) = false).
  { intros t Ht Hm. subst text.
    change (y :: p ++ mark ++ s ++ mark ++ post)
      with ((y :: p) ++ mark ++ s ++ mark ++ post).
    rewrite !List.existsb_app, Hm.
    now rewrite (existsb_within t _ Ht Hq), (existsb_within t _ Ht Hs),
      (existsb_within t _ Ht Hp). }
  assert (Hmarks : forall t : N -> bool,
             t 42%N = false -> t 95%N = false -> List.existsb t mark = false).
  { intros t H42 H95. unfold inlineMarks in Hin. cbn [List.In] in Hin.
    destruct Hin as [[= <- <-]|[[= <- <-]|[[= <- <-]|[[= <- <-]|[]]]]];
      cbn; now rewrite ?H42, ?H95. }
  unfold parseComment. cbn [List.length parseComment_fuel].
  assert (Hc : cleaned (y :: text) = Ok (y :: text)).
  { unfold cleaned.
    rewrite (replace_no_match brRegex (fun x => (x =? 60)%N) _ _ eq_refl
               (Hfree _ (fun x => eqb_trigger 60 x eq_refl)
                      (Hmarks _ eq_refl eq_refl))).
    rewrite decode_numeric_only.
    rewrite (pieces_no_match entityRegex (fun x => (x =? hash)%N) eq_refl _ []
               (Hfree _ (fun x => eqb_trigger hash x eq_refl)
                      (Hmarks _ eq_refl eq_refl))).
    apply replaceEntities_chars. }
  rewrite Hc. cbn [bind].
  rewrite (splitBlocks_none _ y text
             (execFrom_none multilineRegex (oneOf "`~") [] _ eq_refl
                (Hfree _ (fun x => oneOf_trigger "`~" x eq_refl)
                       (Hmarks _ eq_refl eq_refl)))).
  cbn [bind renderBlocks renderBlock].
  rewrite (split_no_newline _ (Hfree _ (fun x => eqb_trigger newline x eq_refl)
                                     (Hmarks _ eq_refl eq_refl))).
  cbn [parseLines parseLine].
  destruct (trim_head y text Hy) as (z & ->).
  rewrite (firstLone_plain_head y z Hyt), (lineStart_plain_head y text Hyt), PI.
  cbn [ofOption bind]. now rewrite !List.app_nil_r.
Qed.

Lemma inline_formatter_roundtrip_witness :
  parseComment (js "it was " ++ js "__" ++ js "very" ++ js "__" ++ js " good")
  = Ok [textSegment (js "it was "); wrapped Tbold (js "very");
        textSegment (js " good")].
Proof.
  apply (inline_formatter_roundtrip (js "__") Tbold 105 (js "t was ") (js "very")
                                    (js " good"));
    [right; left; reflexivity|reflexivity|reflexivity|discriminate
    |reflexivity|reflexivity].
Defined.

End InlineFacts.

(** ** Headings and quotes *)

Module LineStartFacts.
Import Regex RegexFacts ExecFacts Parser ParserFacts PlainFacts CodeBlockFacts.
Import Decode DecodeFacts Lone LoneFacts Lines LinesFacts Inline InlineFacts.
Import LineStart.
Local Open Scope regex_scope.

(** A greedy repetition with an upper bound takes the whole run when the
    run fits the bound and what follows the run fits. *)
Lemma many_greedy_bounded (A : Type) p (k : list N -> list N -> option A) a :
  forall d lo hi bef rest,
    List.Forall (fun x => p x = true) d ->
    lo <= List.length d ->
    (forall h, hi = Some h -> List.length d <= h) ->
    k (List.rev d ++ bef) rest = Some a ->
    match rest with x :: _ => p x = false | [] => True end ->
    many true lo hi p k bef (d ++ rest) = Some a.
Proof.
  induction d as [|x d IH]; intros lo hi bef rest Hd Hlo Hhi Hk Hr.
  - destruct lo; [|simpl in Hlo; lia]. simpl in *.
    destruct rest as [|y rest]; simpl; [exact Hk|]. now rewrite Hr.
  - inversion Hd as [|? ? Hx Hd']; subst.
    assert (Hc : canTake hi = true).
    { destruct hi as [[|h]|]; try reflexivity.
      specialize (Hhi 0 eq_refl). simpl in Hhi. lia. }
    cbn [List.app many]. rewrite Hx, Hc. cbn [andb].
    assert (E : many true (pred lo) (option_map pred hi) p k (x :: bef) (d ++ rest)
                = Some a).
    { apply IH; [exact Hd'|simpl in Hlo; lia| | |exact Hr].
      - intros h Hh. destruct hi as [h0|]; [|discriminate].
        injection Hh as <-. specialize (Hhi h0 eq_refl). simpl in Hhi. lia.
      - simpl in Hk. now rewrite <- List.app_assoc in Hk. }
    destruct lo; [|exact E]. simpl in E. now rewrite E.
Qed.

Lemma space_not_trigger w c :
  isSpace w = true -> isSpace c = false -> (w =? c)%N = false.
Proof.
  intros Hw Hc. destruct (w =? c)%N eqn:E; [|reflexivity].
  apply N.eqb_eq in E. congruence.
Qed.

Lemma spaces_are_space ws : spaces ws = true -> List.Forall (fun x => isSpace x = true) ws.
Proof.
  unfold spaces. rewrite List.forallb_forall. intros H.
  apply List.Forall_forall. intros x Hx. specialize (H x Hx).
  now apply andb_true_iff in H.
Qed.

(** White space inside a line holds none of the characters [t] that are
    no white space. *)
Lemma spaces_free (t : N -> bool) ws :
  spaces ws = true ->
  (forall x, t x = true -> isSpace x = false \/ x = newline) ->
  List.existsb t ws = false.
Proof.
  unfold spaces. rewrite List.forallb_forall. intros H Ht.
  destruct (List.existsb t ws) eqn:E; [|reflexivity].
  apply List.existsb_exists in E. destruct E as (x & Hx & Tx).
  specialize (H x Hx). apply andb_true_iff in H. destruct H as [H1 H2].
  apply negb_true_iff in H2.
  destruct (Ht x Tx) as [Hs| ->]; [congruence|now rewrite N.eqb_refl in H2].
Qed.

Lemma hashes_free (t : N -> bool) n : t 35%N = false -> List.existsb t (hashes n) = false.
Proof.
  intros H. unfold hashes. induction n as [|n IH]; simpl; [reflexivity|].
  now rewrite H, IH.
Qed.

Lemma restOfLine_parts s :
  restOfLine s = true ->
  List.existsb isTrigger s = false /\
  List.Forall (fun x => dot x = true) s /\
  match s with c :: _ => isSpace c = false | [] => True end.
Proof.
  unfold restOfLine. intros H. apply andb_true_iff in H. destruct H as [H H3].
  apply andb_true_iff in H. destruct H as [H1 H2].
  split; [now apply plainText_existsb|]. split.
  - apply List.Forall_forall. rewrite List.forallb_forall in H2. exact H2.
  - destruct s; [exact I|now apply negb_true_iff in H3].
Qed.

Lemma parseInline_rest s :
  List.existsb isTrigger s = false -> parseInline s = Some (textOf s).
Proof.
  intros Hs. destruct s as [|c s]; [reflexivity|]. now apply parseInline_plain.
Qed.

(** The heading pattern on [n] hashes, white space and the rest. *)
Lemma heading_exec n ws s :
  1 <= n <= 5 -> ws <> [] -> spaces ws = true -> restOfLine s = true ->
  exists m,
    execAt (mkRegex (Bol ;; Grp 1 (Many true 1 (Some 5%nat) (oneOf "#")) ;;
                     plus isSpace ;; Grp 2 (star dot)) false false)
           [] (hashes n ++ ws ++ s) = Some m /\
    grp m 1 = hashes n /\ grp m 2 = s.
Proof.
  intros Hn Hw Hb Hs.
  destruct (restOfLine_parts s Hs) as (_ & Hdot & Hhead).
  eexists. split.
  - unfold execAt, plus, star.
    cbn [re ignoreCase multiline run atLineStart].
    apply many_greedy_bounded.
    + unfold hashes. apply List.Forall_forall. intros x Hx.
      apply List.repeat_spec in Hx. now subst.
    + unfold hashes. rewrite List.repeat_length. lia.
    + intros h [= <-]. unfold hashes. rewrite List.repeat_length. lia.
    + apply many_greedy_all.
      * now apply spaces_are_space.
      * destruct ws; [congruence|simpl; lia].
      * rewrite <- (List.app_nil_r s) at 1. apply many_greedy_all.
        -- exact Hdot.
        -- lia.
        -- reflexivity.
        -- exact I.
      * destruct s as [|c s]; [exact I|exact Hhead].
    + destruct ws as [|w ws]; [congruence|]. cbn [List.app].
      unfold spaces in Hb. cbn [List.forallb] in Hb.
      apply andb_true_iff in Hb. destruct Hb as [Hb _].
      apply andb_true_iff in Hb. destruct Hb as [Hb _].
      unfold oneOf. change (js "#") with [35%N]. cbn [List.existsb].
      now rewrite (space_not_trigger w 35 Hb eq_refl).
  - unfold grp. cbn [group setCap Nat.eqb]. split.
    + apply firstn_consumed.
    + cbn [List.length]. rewrite Nat.sub_0_r. apply List.firstn_all.
Qed.

Lemma firstLone_hash z :
  firstLone (loneFormatterRules parseInline) (35%N :: z) = None.
Proof.
  assert (H : List.Forall (fun r => exec (l_regex r) (35%N :: z) = None)
                          (loneFormatterRules parseInline)).
  { unfold loneFormatterRules.
    repeat (apply List.Forall_cons;
            [cbn [l_regex]; rewrite exec_at_start by reflexivity; reflexivity|]).
    apply List.Forall_nil. }
  induction H as [|r rs Hr _ IH]; cbn [firstLone]; [reflexivity|]. now rewrite Hr.
Qed.

(** The way of a one-line text through [parseComment] when a line-start
    rule matches it and no lone formatter does. *)
Lemma line_start_line text rule m p :
  text <> [] ->
  cleaned text = Ok text ->
  execFrom multilineRegex [] text = None ->
  List.existsb (fun x => (x =? newline)%N) text = false ->
  firstLone (loneFormatterRules parseInline) (trim text) = None ->
  firstMatch (lineStartRules parseInline) text = Some (rule, m) ->
  r_process rule m = Some p ->
  parseComment text = Ok [build rule p].
Proof.
  intros Hn Hc Hb Hl Hf Hr Hp. destruct text as [|c text]; [congruence|].
  unfold parseComment. cbn [List.length parseComment_fuel].
  rewrite Hc. cbn [bind]. rewrite (splitBlocks_none _ c text Hb).
  cbn [bind renderBlocks renderBlock]. rewrite (split_no_newline _ Hl).
  cbn [parseLines parseLine]. rewrite Hf, Hr, Hp. reflexivity.
Qed.

(** X17. A line of one to five [#], white space and a rest without
    trigger characters parses to one ['heading'] segment whose level is
    the number of [#] and which holds the rest as one ['text'] segment
    (nothing, when the rest is empty). *)
Theorem heading_line (n : nat) (ws s : jsstring) :
  1 <= n <= 5 -> ws <> [] -> spaces ws = true -> restOfLine s = true ->
  parseComment (hashes n ++ ws ++ s)
  = Ok [mkSegment Theading (Segs (textOf s)) None (Some n) None].
Proof.
  intros Hn Hw Hb Hs.
  destruct (heading_exec n ws s Hn Hw Hb Hs) as (m & E & G1 & G2).
  destruct (restOfLine_parts s Hs) as (Ht & _ & _).
  assert (Hfree : forall t : N -> bool,
             t 35%N = false ->
             (forall x, t x = true -> isTrigger x = true) ->
             (forall x, t x = true -> isSpace x = false \/ x = newline) ->
             List.existsb t (hashes n ++ ws ++ s) = false).
  { intros t H35 Htr Hsp.
    now rewrite !List.existsb_app, (hashes_free t n H35), (spaces_free t ws Hb Hsp),
      (existsb_within t s Htr Ht). }
  assert (Hhead : exists z, hashes n ++ ws ++ s = 35%N :: z).
  { destruct n as [|n]; [lia|]. now eexists. }
  assert (Hsecond : forall z, hashes n ++ ws ++ s = 35%N :: z ->
                              match z with
                              | c :: _ => (c =? 60)%N = false
                              | [] => True
                              end).
  { intros z Ez. destruct n as [|[|n]]; [lia| |].
    - destruct ws as [|w ws]; [congruence|]. injection Ez as <-.
      unfold spaces in Hb. cbn [List.forallb] in Hb.
      apply andb_true_iff in Hb. destruct Hb as [Hb _].
      apply andb_true_iff in Hb. destruct Hb as [Hb _].
      exact (space_not_trigger w 60 Hb eq_refl).
    - injection Ez as <-. reflexivity. }
  pose proof (line_start_line (hashes n ++ ws ++ s)) as L.
  destruct Hhead as (z & Ez). specialize (Hsecond z Ez).
  eassert (F : firstMatch (lineStartRules parseInline) (hashes n ++ ws ++ s)
               = Some (_, m)).
  { eapply (firstMatch_nth _ _ _ _ 1).
    - reflexivity.
    - cbn [List.firstn lineStartRules]. apply List.Forall_cons; [|apply List.Forall_nil].
      cbn [r_regex]. rewrite exec_at_start by reflexivity. rewrite Ez.
      unfold execAt. open_lits.
      cbn [re ignoreCase multiline run atLineStart sameChar]. closed_tests.
      destruct z as [|c z]; [reflexivity|]. now rewrite Hsecond.
    - cbn [r_regex]. rewrite exec_at_start by reflexivity. exact E. }
  assert (Hne : hashes n ++ ws ++ s <> []) by (rewrite Ez; discriminate).
  assert (Hc : cleaned (hashes n ++ ws ++ s) = Ok (hashes n ++ ws ++ s)).
  { unfold cleaned.
    rewrite (replace_no_match brRegex (fun x => (x =? 60)%N) _ _ eq_refl
               (Hfree _ eq_refl (fun x => eqb_trigger 60 x eq_refl)
                      ltac:(intros x Hx; left; apply N.eqb_eq in Hx; now subst))).
    rewrite decode_numeric_only.
    rewrite (pieces_no_match entityRegex (fun x => (x =? amp)%N) eq_refl _ []
               (Hfree _ eq_refl (fun x => eqb_trigger amp x eq_refl)
                      ltac:(intros x Hx; left; apply N.eqb_eq in Hx; now subst))).
    apply replaceEntities_chars. }
  assert (Hbk : execFrom multilineRegex [] (hashes n ++ ws ++ s) = None).
  { apply (execFrom_none multilineRegex (oneOf "`~") [] _ eq_refl).
    apply Hfree; [reflexivity|intros x; apply (oneOf_trigger "`~" x eq_refl)|].
    intros x Hx. left. unfold oneOf in Hx. change (js "`~") with [96; 126]%N in Hx.
    cbn [List.existsb] in Hx. rewrite orb_false_r in Hx.
    apply orb_true_iff in Hx.
    destruct Hx as [Hx|Hx]; apply N.eqb_eq in Hx; now subst. }
  assert (Hnl : List.existsb (fun x => (x =? newline)%N) (hashes n ++ ws ++ s)
                = false).
  { apply Hfree; [reflexivity|intros x; apply (eqb_trigger newline x eq_refl)|].
    intros x Hx. right. now apply N.eqb_eq in Hx. }
  assert (Hfl : firstLone (loneFormatterRules parseInline)
                          (trim (hashes n ++ ws ++ s)) = None).
  { rewrite Ez. destruct (trim_head 35 z eq_refl) as (z' & ->).
    apply firstLone_hash. }
  match type of F with
  | _ = Some (?rule, _) =>
    rewrite (L rule m (mkProcessed None (Segs (textOf s)) None (Some n) None)
               Hne Hc Hbk Hnl Hfl F); [reflexivity|]
  end.
  cbn [r_process]. rewrite G1, G2. unfold recurse.
  rewrite (parseInline_rest s Ht). cbn [option_map].
  unfold hashes. now rewrite List.repeat_length.
Qed.

Lemma heading_line_witness :
  parseComment (hashes 3 ++ js "  " ++ js "Chapter one")
  = Ok [mkSegment Theading (Segs (textOf (js "Chapter one"))) None (Some 3) None].
Proof.
  apply heading_line; [lia|discriminate|reflexivity|reflexivity].
Defined.

Lemma firstLone_no_mark c z :
  (c =? 42)%N = false -> (c =? 95)%N = false -> (c =? 126)%N = false ->
  firstLone (loneFormatterRules parseInline) (c :: z) = None.
Proof.
  intros H1 H2 H3.
  assert (H : List.Forall (fun r => exec (l_regex r) (c :: z) = None)
                          (loneFormatterRules parseInline)).
  { unfold loneFormatterRules.
    repeat (apply List.Forall_cons;
            [cbn [l_regex]; rewrite exec_at_start by reflexivity;
             unfold execAt; open_lits;
             cbn [re ignoreCase multiline run atLineStart sameChar];
             now rewrite ?H1, ?H2, ?H3|]).
    apply List.Forall_nil. }
  induction H as [|r rs Hr _ IH]; cbn [firstLone]; [reflexivity|]. now rewrite Hr.
Qed.

Ltac closed_head_misses :=
  cbn [List.firstn lineStartRules];
  repeat (apply List.Forall_cons;
          [cbn [r_regex]; rewrite exec_at_start by reflexivity; reflexivity|]);
  apply List.Forall_nil.

(** X18. A line of [>], at most one white-space character and a rest
    without trigger characters parses to one ['blockquote'] segment that
    holds the rest as one ['text'] segment; a line of [---] and white
    space parses to one ['hr'] segment. *)
Theorem quote_and_rule_lines (sp s ws : jsstring) :
  List.length sp <= 1 -> spaces sp = true -> restOfLine s = true ->
  spaces ws = true ->
  parseComment (62%N :: sp ++ s)
  = Ok [mkSegment Tblockquote (Segs (textOf s)) None None None] /\
  parseComment (js "---" ++ ws) = Ok [mkSegment Thr (Str []) None None None].
Proof.
  intros Hl Hb Hs Hw.
  destruct (restOfLine_parts s Hs) as (Ht & Hdot & Hhead).
  split.
  - assert (Hfree : forall t : N -> bool,
               t 62%N = false ->
               (forall x, t x = true -> isTrigger x = true) ->
               (forall x, t x = true -> isSpace x = false \/ x = newline) ->
               List.existsb t (62%N :: sp ++ s) = false).
    { intros t H62 Htr Hsp. cbn [List.existsb]. rewrite H62.
      now rewrite !List.existsb_app, (spaces_free t sp Hb Hsp),
        (existsb_within t s Htr Ht). }
    eassert (E : execAt (mkRegex (Bol ;; lit ">" ;; opt isSpace ;; Grp 1 (star dot))
                                 false false) [] (62%N :: sp ++ s) = Some _).
    { unfold execAt, opt, star. open_lits.
      cbn [re ignoreCase multiline run atLineStart sameChar]. closed_tests.
      apply many_greedy_bounded.
      - now apply spaces_are_space.
      - lia.
      - now intros h [= <-].
      - rewrite <- (List.app_nil_r s) at 1. apply many_greedy_all;
          [exact Hdot|lia|reflexivity|exact I].
      - destruct s as [|c s]; [exact I|exact Hhead]. }
    eassert (F : firstMatch (lineStartRules parseInline) (62%N :: sp ++ s)
                 = Some (_, _)).
    { eapply (firstMatch_nth _ _ _ _ 2);
        [reflexivity|closed_head_misses
        |cbn [r_regex]; rewrite exec_at_start by reflexivity; exact E]. }
    match type of F with
    | _ = Some (?rule, ?m) =>
      rewrite (line_start_line _ rule m (contentOnly (Segs (textOf s))));
        [reflexivity|discriminate| | | | |exact F|]
    end.
    + unfold cleaned.
      rewrite (replace_no_match brRegex (fun x => (x =? 60)%N) _ _ eq_refl
                 (Hfree _ eq_refl (fun x => eqb_trigger 60 x eq_refl)
                        ltac:(intros x Hx; left; apply N.eqb_eq in Hx; now subst))).
      rewrite decode_numeric_only.
      rewrite (pieces_no_match entityRegex (fun x => (x =? hash)%N) eq_refl _ []
                 (Hfree _ eq_refl (fun x => eqb_trigger hash x eq_refl)
                        ltac:(intros x Hx; left; apply N.eqb_eq in Hx; now subst))).
      apply replaceEntities_chars.
    + apply (execFrom_none multilineRegex (oneOf "`~") [] _ eq_refl).
      apply Hfree; [reflexivity|intros x; apply (oneOf_trigger "`~" x eq_refl)|].
      intros x Hx. left. unfold oneOf in Hx. change (js "`~") with [96; 126]%N in Hx.
      cbn [List.existsb] in Hx. rewrite orb_false_r in Hx.
      apply orb_true_iff in Hx.
      destruct Hx as [Hx|Hx]; apply N.eqb_eq in Hx; now subst.
    + apply Hfree; [reflexivity|intros x; apply (eqb_trigger newline x eq_refl)|].
      intros x Hx. right. now apply N.eqb_eq in Hx.
    + destruct (trim_head 62 (sp ++ s) eq_refl) as (z' & ->).
      now apply firstLone_no_mark.
    + cbn [r_process]. unfold recurse, grp. cbn [group setCap Nat.eqb List.length].
      rewrite Nat.sub_0_r, List.firstn_all, (parseInline_rest s Ht). reflexivity.
  - assert (Hfree : forall t : N -> bool,
               t 45%N = false ->
               (forall x, t x = true -> isSpace x = false \/ x = newline) ->
               List.existsb t (js "---" ++ ws) = false).
    { intros t H45 Hsp. rewrite List.existsb_app, (spaces_free t ws Hw Hsp).
      cbn. now rewrite H45. }
    eassert (E : execAt (mkRegex (Bol ;; lit "---" ;; star isSpace ;; Eol)
                                 false false) [] (js "---" ++ ws) = Some _).
    { unfold execAt, star. open_lits.
      change (js "---" ++ ws) with (45 :: 45 :: 45 :: ws)%N.
      cbn [re ignoreCase multiline run atLineStart sameChar]. closed_tests.
      rewrite <- (List.app_nil_r ws) at 1. apply many_greedy_all;
        [now apply spaces_are_space|lia|reflexivity|exact I]. }
    eassert (F : firstMatch (lineStartRules parseInline) (js "---" ++ ws)
                 = Some (_, _)).
    { change (js "---" ++ ws) with (45 :: 45 :: 45 :: ws)%N in *.
      eapply (firstMatch_nth _ _ _ _ 3);
        [reflexivity|closed_head_misses
        |cbn [r_regex]; rewrite exec_at_start by reflexivity; exact E]. }
    match type of F with
    | _ = Some (?rule, ?m) =>
      rewrite (line_start_line _ rule m (contentOnly (Str [])));
        [reflexivity|discriminate| | | | |exact F|reflexivity]
    end.
    + unfold cleaned.
      rewrite (replace_no_match brRegex (fun x => (x =? 60)%N) _ _ eq_refl
                 (Hfree (fun x => (x =? 60)%N) eq_refl
                        ltac:(intros x Hx; left; apply N.eqb_eq in Hx; now subst))).
      rewrite decode_numeric_only.
      rewrite (pieces_no_match entityRegex (fun x => (x =? hash)%N) eq_refl _ []
                 (Hfree (fun x => (x =? hash)%N) eq_refl
                        ltac:(intros x Hx; left; apply N.eqb_eq in Hx; now subst))).
      apply replaceEntities_chars.
    + apply (execFrom_none multilineRegex (oneOf "`~") [] _ eq_refl).
      apply Hfree; [reflexivity|].
      intros x Hx. left. unfold oneOf in Hx. change (js "`~") with [96; 126]%N in Hx.
      cbn [List.existsb] in Hx. rewrite orb_false_r in Hx.
      apply orb_true_iff in Hx.
      destruct Hx as [Hx|Hx]; apply N.eqb_eq in Hx; now subst.
    + apply Hfree; [reflexivity|].
      intros x Hx. right. now apply N.eqb_eq in Hx.
    + change (js "---" ++ ws) with (45 :: 45 :: 45 :: ws)%N.
      destruct (trim_head 45 (45 :: 45 :: ws)%N eq_refl) as (z' & ->).
      now apply firstLone_no_mark.
Qed.

Lemma quote_and_rule_lines_witness :
  parseComment (62%N :: js " " ++ js "so they say")
  = Ok [mkSegment Tblockquote (Segs (textOf (js "so they say"))) None None None] /\
  parseComment (js "---" ++ js "  ") = Ok [mkSegment Thr (Str []) None None None].
Proof.
  apply quote_and_rule_lines; [simpl; lia|reflexivity|reflexivity|reflexivity].
Defined.

End LineStartFacts.

(** ** Center and spoiler blocks *)

Module BlocksFacts.
Import Regex RegexFacts ExecFacts Parser ParserFacts PlainFacts CodeBlockFacts.
Import Decode DecodeFacts Lone LoneFacts Lines LinesFacts Inline InlineFacts.
Import Blocks.
Local Open Scope regex_scope.

Lemma parseComment_fuel_plain fuel c s :
  List.existsb isTrigger (c :: s) = false ->
  parseComment_fuel (S fuel) (c :: s) = Ok [textSegment (c :: s)].
Proof.
  intros Ht. cbn [parseComment_fuel].
  rewrite (cleaned_plain (c :: s) Ht). cbn [bind].
  rewrite (splitBlocks_plain _ c s Ht). cbn [bind renderBlocks renderBlock].
  rewrite (split_one_line (c :: s) Ht). cbn [parseLines parseLine].
  rewrite (firstLone_none (loneFormatterRules parseInline) (trim (c :: s)) eq_refl
                          (existsb_trim isTrigger (c :: s) Ht)).
  rewrite (lineStart_none (c :: s) Ht).
  rewrite (parseInline_plain c s Ht). reflexivity.
Qed.

(** The center block on [~~~s~~~]. *)
Lemma center_exec s :
  s <> [] -> List.existsb isTrigger s = false ->
  exists m,
    execAt multilineRegex [] (js "~~~" ++ s ++ js "~~~") = Some m /\
    index m = 0 /\ matched m = js "~~~" ++ s ++ js "~~~" /\
    group m 2 = None /\ group m 4 = Some s.
Proof.
  intros Hn Hs. eexists. split.
  - unfold execAt, multilineRegex, lazyStar. open_lits.
    change (js "~~~" ++ s ++ js "~~~") with (126 :: 126 :: 126 :: s ++ js "~~~")%N.
    change (js "~~~") with [126; 126; 126]%N.
    cbn [re ignoreCase multiline run atLineStart sameChar]. closed_tests.
    erewrite many_lazy_first; [reflexivity| | |].
    + intros d1 x d2 ->.
      rewrite (not_trigger x 126); [reflexivity| |reflexivity].
      apply (existsb_in _ _ _ Hs). apply List.in_elt.
    + lia.
    + closed_tests. reflexivity.
  - cbn [index matched group]. split; [reflexivity|]. split.
    + change (List.length (@nil N)) with 0. rewrite Nat.sub_0_r.
      apply List.firstn_all.
    + split; [reflexivity|]. unfold setCap. cbn [Nat.eqb]. f_equal.
      apply firstn_consumed.
Qed.

(** The spoiler block on [~!s!~]. *)
Lemma spoiler_exec s :
  s <> [] -> List.existsb isTrigger s = false ->
  exists m,
    execAt multilineRegex [] (js "~!" ++ s ++ js "!~") = Some m /\
    index m = 0 /\ matched m = js "~!" ++ s ++ js "!~" /\
    group m 2 = None /\ group m 4 = None /\ group m 6 = Some s.
Proof.
  intros Hn Hs. eexists. split.
  - unfold execAt, multilineRegex, lazyStar. open_lits.
    change (js "~!" ++ s ++ js "!~") with (126 :: 33 :: s ++ js "!~")%N.
    change (js "!~") with [33; 126]%N.
    cbn [re ignoreCase multiline run atLineStart sameChar]. closed_tests.
    erewrite many_lazy_first; [reflexivity| | |].
    + intros d1 x d2 ->.
      destruct (x =? 33)%N; [|reflexivity].
      destruct d2 as [|y d2]; cbn [List.app]; [reflexivity|].
      rewrite (not_trigger y 126); [reflexivity| |reflexivity].
      apply (existsb_in _ _ _ Hs). apply List.in_or_app. right. right.
      now left.
    + lia.
    + closed_tests. reflexivity.
  - cbn [index matched group]. split; [reflexivity|]. split.
    + change (List.length (@nil N)) with 0. rewrite Nat.sub_0_r.
      apply List.firstn_all.
    + split; [reflexivity|]. split; [reflexivity|].
      unfold setCap. cbn [Nat.eqb]. f_equal. apply firstn_consumed.
Qed.

(** After a block that ends the text the loop finds nothing more. *)
Lemma execG_at_end text :
  atLineStart true (List.rev text) = false ->
  execG multilineRegex text (List.length text) = None.
Proof.
  intros H. unfold execG. rewrite Nat.ltb_irrefl, List.firstn_all, List.skipn_all.
  cbn [execFrom]. unfold execAt, multilineRegex.
  cbn [re ignoreCase multiline run]. now rewrite H.
Qed.

(** The loop on a text that is one block from its first to its last
    character. *)
Lemma splitLoop_whole rec text m fuel :
  2 <= fuel ->
  execAt multilineRegex [] text = Some m ->
  index m = 0 -> matched m = text ->
  atLineStart true (List.rev text) = false ->
  splitLoop rec fuel text 0 0 []
  = (blocks <- match group m 2, group m 4, group m 6 with
               | Some c, _, _ => Ok [CodeBlock c]
               | None, Some c, _ => Ok [CenterBlock c]
               | None, None, Some c => segs <- rec c ; Ok [SpoilerBlock segs]
               | None, None, None => Ok []
               end ;
     Ok (blocks, List.length text)).
Proof.
  intros Hf E Hi Hm Hend. destruct fuel as [|[|fuel]]; [lia|lia|].
  cbn [splitLoop].
  assert (G : execG multilineRegex text 0 = Some m).
  { unfold execG. cbn [Nat.ltb Nat.leb List.firstn List.skipn List.rev].
    destruct text; cbn [execFrom]; now rewrite E. }
  rewrite G, Hi, Hm. cbn [Nat.ltb Nat.leb Nat.add List.app].
  destruct (group m 2) as [c2|]; [cbn [bind]; now rewrite (execG_at_end text Hend)|].
  destruct (group m 4) as [c4|]; [cbn [bind]; now rewrite (execG_at_end text Hend)|].
  destruct (group m 6) as [c6|]; [|cbn [bind]; now rewrite (execG_at_end text Hend)].
  destruct (rec c6) as [segs| |]; cbn [bind]; try reflexivity.
  now rewrite (execG_at_end text Hend).
Qed.

Lemma cleaned_between (open close s : jsstring) :
  List.forallb (fun x => oneOf "~!" x) (open ++ close) = true ->
  List.existsb isTrigger s = false ->
  cleaned (open ++ s ++ close) = Ok (open ++ s ++ close).
Proof.
  intros Hm Hs. unfold cleaned.
  assert (M : forall t : N -> bool,
             t 126%N = false -> t 33%N = false ->
             (forall x, t x = true -> isTrigger x = true) ->
             List.existsb t (open ++ s ++ close) = false).
  { intros t H1 H2 Ht. rewrite List.forallb_app in Hm.
    apply andb_true_iff in Hm. destruct Hm as [Ho Hc].
    assert (F : forall l, List.forallb (fun x => oneOf "~!" x) l = true ->
                          List.existsb t l = false).
    { intros l Hl. destruct (List.existsb t l) eqn:E; [|reflexivity].
      apply List.existsb_exists in E. destruct E as (x & Hx & Tx).
      rewrite List.forallb_forall in Hl. specialize (Hl x Hx).
      unfold oneOf in Hl. change (js "~!") with [126; 33]%N in Hl.
      cbn [List.existsb] in Hl. rewrite orb_false_r in Hl.
      apply orb_true_iff in Hl.
      destruct Hl as [Hl|Hl]; apply N.eqb_eq in Hl; subst x; congruence. }
    now rewrite !List.existsb_app, (F open Ho), (F close Hc),
      (existsb_within t s Ht Hs). }
  rewrite (replace_no_match brRegex (fun x => (x =? 60)%N) _ _ eq_refl
             (M _ eq_refl eq_refl (fun x => eqb_trigger 60 x eq_refl))).
  rewrite decode_numeric_only.
  rewrite (pieces_no_match entityRegex (fun x => (x =? hash)%N) eq_refl _ []
             (M _ eq_refl eq_refl (fun x => eqb_trigger hash x eq_refl))).
  apply replaceEntities_chars.
Qed.

(** X19. A comment that is one center block [~~~s~~~] or one spoiler
    block [~!s!~] around a non-empty text [s] without trigger characters
    parses to one ['center'] or one ['spoiler'] segment that holds what
    [parseComment] makes of [s]: the ['text'] segment [s]. *)
Theorem block_roundtrip (s : jsstring) :
  s <> [] -> plainText s = true ->
  parseComment (js "~~~" ++ s ++ js "~~~") = Ok [centered [textSegment s]] /\
  parseComment (js "~!" ++ s ++ js "!~") = Ok [spoiler [textSegment s]].
Proof.
  intros Hn Hp. apply plainText_existsb in Hp. rename Hp into Hs.
  assert (Hrec : forall fuel, 1 <= fuel ->
                              parseComment_fuel fuel s = Ok [textSegment s]).
  { intros [|fuel] Hf; [lia|]. destruct s as [|c s]; [congruence|].
    now apply parseComment_fuel_plain. }
  split.
  - destruct (center_exec s Hn Hs) as (m & E & Hi & Hm & G2 & G4).
    assert (L : 2 <= List.length (js "~~~" ++ s ++ js "~~~")).
    { rewrite !List.length_app. change (List.length (js "~~~")) with 3. lia. }
    unfold parseComment. cbn [parseComment_fuel].
    rewrite (cleaned_between (js "~~~") (js "~~~") s eq_refl Hs). cbn [bind].
    unfold splitBlocks.
    rewrite (splitLoop_whole _ _ m (S (List.length (js "~~~" ++ s ++ js "~~~")))
                             ltac:(lia) E Hi Hm).
    + rewrite G2, G4. cbn [bind]. rewrite Nat.ltb_irrefl.
      cbn [renderBlocks renderBlock]. rewrite Hrec by lia. reflexivity.
    + rewrite !List.rev_app_distr. reflexivity.
  - destruct (spoiler_exec s Hn Hs) as (m & E & Hi & Hm & G2 & G4 & G6).
    assert (L : 2 <= List.length (js "~!" ++ s ++ js "!~")).
    { rewrite !List.length_app. change (List.length (js "~!")) with 2. lia. }
    unfold parseComment. cbn [parseComment_fuel].
    rewrite (cleaned_between (js "~!") (js "!~") s eq_refl Hs). cbn [bind].
    unfold splitBlocks.
    rewrite (splitLoop_whole _ _ m (S (List.length (js "~!" ++ s ++ js "!~")))
                             ltac:(lia) E Hi Hm).
    + rewrite G2, G4, G6, Hrec by lia. cbn [bind]. rewrite Nat.ltb_irrefl.
      reflexivity.
    + rewrite !List.rev_app_distr. reflexivity.
Qed.

Lemma block_roundtrip_witness :
  parseComment (js "~~~" ++ js "The End" ++ js "~~~")
  = Ok [centered [textSegment (js "The End")]] /\
  parseComment (js "~!" ++ js "The End" ++ js "!~")
  = Ok [spoiler [textSegment (js "The End")]].
Proof. apply block_roundtrip; [discriminate|reflexivity]. Defined.

End BlocksFacts.

(** ** Episode numbers *)

Module EpisodeFacts.
Import Regex RegexFacts ExecFacts Parser ParserFacts PlainFacts CodeBlockFacts.
Import Decode DecodeFacts Lone LoneFacts Inline InlineFacts LineStart LineStartFacts.
Import Episode.
Local Open Scope regex_scope.

Lemma run_chars ic ml (A : Type) :
  forall word w bef aft cs0 (k : list N -> list N -> caps -> option A),
    List.Forall2 (fun x c => sameChar ic x c = true) w word ->
    run ic ml (chars word) bef (w ++ aft) cs0 k = k (List.rev w ++ bef) aft cs0.
Proof.
  induction word as [|c word IH]; intros w bef aft cs0 k H; inversion H; subst.
  - reflexivity.
  - match goal with
      Hx : sameChar ic ?x c = true, Hr : List.Forall2 _ ?l word |- _ =>
      rename x into x0; rename l into w0; rename Hx into Hx0; rename Hr into Hr0
    end.
    cbn [chars]. destruct word as [|c2 word].
    + inversion Hr0; subst. cbn [run List.app List.rev]. now rewrite Hx0.
    + cbn [run List.app]. rewrite Hx0.
      rewrite (IH w0 (x0 :: bef) aft cs0 k Hr0).
      cbn [List.rev]. now rewrite <- List.app_assoc.
Qed.

Lemma not_e x :
  ((x =? 101)%N || (x =? 69)%N) = false -> sameChar true x 69 = false.
Proof.
  intros H. apply orb_false_elim in H. destruct H as [H1 H2].
  apply N.eqb_neq in H1, H2. unfold sameChar, canon.
  change (isLower 69) with false. cbv iota. apply N.eqb_neq.
  destruct (isLower x) eqn:L; [|exact H2].
  unfold isLower, within in L. apply andb_true_iff in L. destruct L as [L1 L2].
  apply N.leb_le in L1, L2. lia.
Qed.

Lemma episode_not_here bef x aft :
  ((x =? 101)%N || (x =? 69)%N) = false ->
  execAt episodeRegex bef (x :: aft) = None.
Proof.
  intros H. unfold execAt, episodeRegex. open_lits.
  cbn [re ignoreCase multiline run]. now rewrite (not_e x H).
Qed.

Lemma episode_skips pre :
  noE pre = true ->
  forall bef rest, execFrom episodeRegex bef (pre ++ rest)
                   = execFrom episodeRegex (List.rev pre ++ bef) rest.
Proof.
  unfold noE. intros H. apply negb_true_iff in H.
  induction pre as [|x pre IH]; intros bef rest; [reflexivity|].
  simpl in H. apply orb_false_elim in H. destruct H as [Hx Hp].
  cbn [List.app execFrom]. rewrite (episode_not_here bef x _ Hx), (IH Hp).
  cbn [List.rev]. now rewrite <- List.app_assoc.
Qed.

Lemma digit_no_space x : isDigit x = true -> isSpace x = false.
Proof.
  unfold isDigit, within. intros H. apply andb_true_iff in H.
  destruct H as [H1 H2]. apply N.leb_le in H1, H2.
  unfold isSpace, within.
  repeat match goal with
         | |- (_ || _) = false => apply orb_false_intro
         | |- (_ && _) = false => apply andb_false_iff
         end;
    try (apply N.eqb_neq; lia);
    try (left; apply N.leb_gt; lia); try (right; apply N.leb_gt; lia).
Qed.

(** The tail of the pattern, [\s*(\d+)], on white space and digits. *)
Lemma number_tail bef ws d post (A : Type)
      (k : list N -> list N -> caps -> option A) cs a :
  List.Forall (fun x => isSpace x = true) ws ->
  d <> [] -> List.Forall (fun x => isDigit x = true) d ->
  match post with c :: _ => isDigit c = false | [] => True end ->
  k (List.rev d ++ List.rev ws ++ bef) post (setCap 1 d cs) = Some a ->
  run true false (star isSpace ;; Grp 1 (plus isDigit)) bef (ws ++ d ++ post) cs k
  = Some a.
Proof.
  intros Hw Hn Hd Hp K. unfold star, plus. cbn [run].
  apply many_greedy_all; [exact Hw|lia| |].
  - apply many_greedy_all; [exact Hd|destruct d; [congruence|simpl; lia]| |exact Hp].
    now rewrite firstn_consumed.
  - destruct d as [|x d]; [congruence|]. inversion Hd; subst.
    now apply digit_no_space.
Qed.

Lemma forallb_Forall (p : N -> bool) l :
  List.forallb p l = true -> List.Forall (fun x => p x = true) l.
Proof.
  rewrite List.forallb_forall. intros H. now apply List.Forall_forall.
Qed.

Lemma space_not_i x : isSpace x = true -> sameChar true x 105 = false.
Proof.
  intros H. destruct (sameChar true x 105) eqn:E; [|reflexivity].
  unfold sameChar, canon in E. change (isLower 105) with true in E. cbv iota in E.
  apply N.eqb_eq in E. change (105 - 32)%N with 73%N in E.
  destruct (isLower x) eqn:L.
  - assert (x = 105%N).
    { unfold isLower, within in L. apply andb_true_iff in L. destruct L as [L1 L2].
      apply N.leb_le in L1, L2. lia. }
    subst x. discriminate H.
  - subst x. discriminate H.
Qed.

Lemma digit_not_i x : isDigit x = true -> sameChar true x 105 = false.
Proof.
  intros H. destruct (sameChar true x 105) eqn:E; [|reflexivity].
  unfold sameChar, canon in E. change (isLower 105) with true in E. cbv iota in E.
  apply N.eqb_eq in E. change (105 - 32)%N with 73%N in E.
  destruct (isLower x) eqn:L.
  - assert (x = 105%N).
    { unfold isLower, within in L. apply andb_true_iff in L. destruct L as [L1 L2].
      apply N.leb_le in L1, L2. lia. }
    subst x. discriminate H.
  - subst x. discriminate H.
Qed.

Lemma digit_not_dot x : isDigit x = true -> oneOf "." x = false.
Proof.
  intros H. unfold oneOf. change (js ".") with [46%N]. cbn [List.existsb].
  rewrite orb_false_r. apply N.eqb_neq. intros ->. discriminate H.
Qed.

Lemma space_not_dot x : isSpace x = true -> oneOf "." x = false.
Proof.
  intros H. unfold oneOf. change (js ".") with [46%N]. cbn [List.existsb].
  rewrite orb_false_r. apply N.eqb_neq. intros ->. discriminate H.
Qed.

(** The pattern at the word. *)
Lemma episode_here bef w ws d post :
  episodeWord w ->
  List.forallb isSpace ws = true ->
  d <> [] -> List.forallb isDigit d = true -> endsNumber post = true ->
  exists m, execAt episodeRegex bef (w ++ ws ++ d ++ post) = Some m /\
            grp m 1 = d.
Proof.
  intros Hw Hs Hn Hd Hp.
  apply forallb_Forall in Hs, Hd.
  assert (Hp' : match post with c :: _ => isDigit c = false | [] => True end).
  { destruct post; [exact I|]. now apply negb_true_iff in Hp. }
  assert (Hnext : match ws ++ d ++ post with
                  | x :: _ => sameChar true x 105 = false /\ oneOf "." x = false
                  | [] => True
                  end).
  { destruct ws as [|x ws].
    - destruct d as [|x d]; [congruence|]. inversion Hd; subst.
      cbn [List.app]. split; [now apply digit_not_i|now apply digit_not_dot].
    - inversion Hs; subst. cbn [List.app].
      split; [now apply space_not_i|now apply space_not_dot]. }
  unfold execAt, episodeRegex, lit. cbn [re ignoreCase multiline].
  set (T := (star isSpace ;; Grp 1 (plus isDigit))%re).
  cbn [run].
  destruct Hw as [Hw|[Hw|Hw]].
  - eexists. rewrite (run_chars true false _ _ w _ _ _ _ Hw). subst T.
    erewrite number_tail; eauto. split; reflexivity.
  - (* [Ep]: the first alternative misses at its third character *)
    inversion Hw as [|x0 c0 w0 r0 H0 Hw0]; subst.
    inversion Hw0 as [|x1 c1 w1 r1 H1 Hw1]; subst.
    inversion Hw1; subst.
    change (js "Episode") with [69; 112; 105; 115; 111; 100; 101]%N.
    change (js "Ep") with [69; 112]%N.
    cbn [chars run List.app]. rewrite H0, H1.
    destruct (ws ++ d ++ post) as [|x rest] eqn:E.
    { destruct ws, d; try congruence; discriminate. }
    destruct Hnext as [Hi Hdot]. rewrite Hi.
    unfold opt. cbn [run many]. rewrite Hdot. cbn [andb].
    rewrite <- E. subst T. eexists. erewrite number_tail; eauto.
    split; reflexivity.
  - (* [Ep.] *)
    inversion Hw as [|x0 c0 w0 r0 H0 Hw0]; subst.
    inversion Hw0 as [|x1 c1 w1 r1 H1 Hw1]; subst.
    inversion Hw1 as [|x2 c2 w2 r2 H2 Hw2]; subst.
    inversion Hw2; subst.
    change (js "Episode") with [69; 112; 105; 115; 111; 100; 101]%N.
    change (js "Ep") with [69; 112]%N.
    assert (x2 = 46%N) by (apply (sameChar_nonletter true); [reflexivity|exact H2]).
    subst x2.
    cbn [chars run List.app]. rewrite H0, H1.
    change (sameChar true 46 105) with false. cbv iota.
    unfold opt. cbn [run many]. change (oneOf "." 46) with true.
    cbn [andb canTake option_map pred].
    destruct (ws ++ d ++ post) as [|x rest] eqn:E.
    { destruct ws, d; try congruence; discriminate. }
    cbn [many canTake]. rewrite andb_false_r.
    rewrite <- E. subst T. eexists. erewrite number_tail; eauto.
    split; reflexivity.
Qed.

Lemma execFrom_here R bef aft m :
  execAt R bef aft = Some m -> execFrom R bef aft = Some m.
Proof. intros E. destruct aft; cbn [execFrom]; now rewrite E. Qed.

(** Every match of the pattern holds a digit. *)
Lemma episode_none title :
  noDigit title = true -> exec episodeRegex title = None.
Proof.
  unfold noDigit. intros H. apply negb_true_iff in H.
  destruct (exec episodeRegex title) as [m|] eqn:E; [|reflexivity].
  apply execFrom_sound in E. destruct E as (pre & w & post & -> & [M _] & _).
  unfold episodeRegex, plus in M. cbn [re ignoreCase multiline] in M.
  inv_matches.
  all: match goal with
       | Hd : List.Forall (fun x => isDigit x = true) ?w4,
         Hl : 1 <= List.length ?w4 |- _ =>
         destruct w4 as [|x w4]; [simpl in Hl; lia|];
         inversion Hd as [|? ? Hx _]; subst;
         rewrite !List.existsb_app in H; cbn [List.existsb] in H;
         rewrite Hx in H; rewrite ?orb_true_r in H; cbn [orb] in H;
         rewrite ?orb_true_r in H; discriminate H
       end.
Qed.

(** X20. The episode number read off a title.  When no [e] or [E] stands
    before it, the word [Episode], [Ep] or [Ep.] in any case, followed by
    any white space and a run of digits, gives the number that all the
    digits of the run spell, and the thread just saved counts as an
    episode thread.  A title without a digit has the number 0 and does
    not count as one. *)
Theorem episode_number_read (pre w ws d post plain : jsstring) :
  noE pre = true -> episodeWord w -> List.forallb isSpace ws = true ->
  d <> [] -> List.forallb isDigit d = true -> endsNumber post = true ->
  noDigit plain = true ->
  (episodeNumber (pre ++ w ++ ws ++ d ++ post) = parseInt d /\
   savedIsEpisode (pre ++ w ++ ws ++ d ++ post) = true) /\
  (episodeNumber plain = 0%N /\ savedIsEpisode plain = false).
Proof.
  intros Hpre Hw Hs Hn Hd Hp Hplain. split.
  - destruct (episode_here (List.rev pre ++ []) w ws d post Hw Hs Hn Hd Hp)
      as (m & E & G).
    unfold episodeNumber, savedIsEpisode, exec.
    rewrite (episode_skips pre Hpre), (execFrom_here _ _ _ _ E), G. now split.
  - unfold episodeNumber, savedIsEpisode.
    now rewrite (episode_none plain Hplain).
Qed.

Lemma episode_number_read_witness :
  (episodeNumber (js "My show - " ++ js "EPISODE" ++ js "  " ++ js "012"
                     ++ js " discussion") = 12%N /\
   savedIsEpisode (js "My show - " ++ js "EPISODE" ++ js "  " ++ js "012"
                      ++ js " discussion") = true) /\
  (episodeNumber (js "Final thoughts") = 0%N /\
   savedIsEpisode (js "Final thoughts") = false).
Proof.
  apply (episode_number_read (js "My show - ") (js "EPISODE") (js "  ") (js "012")
                             (js " discussion") (js "Final thoughts"));
    [reflexivity|left; repeat constructor|reflexivity|discriminate
    |reflexivity|reflexivity|reflexivity].
Defined.

End EpisodeFacts.

(** ** Mentions and links *)

Module TokensFacts.
Import Regex RegexFacts ExecFacts Parser ParserFacts PlainFacts CodeBlockFacts.
Import Decode DecodeFacts Lone LoneFacts Lines LinesFacts Inline InlineFacts.
Import LineStart LineStartFacts Tokens.
Import EpisodeFacts.
Local Open Scope regex_scope.

(** The step of the loop over plain text in front of a token that starts
    with [k]. *)
Lemma inlineStep_before pi k y p rest segments :
  isLower k = false ->
  List.forallb (fun rule => misses k (r_regex rule)) (inlineRules pi) = true ->
  blocked k (re nextTokenRegex) = true ->
  (forall bef, exists m, execAt nextTokenRegex bef (k :: rest) = Some m) ->
  List.existsb isTrigger (y :: p) = false ->
  inlineStep pi (y :: p ++ k :: rest) segments
  = Some (k :: rest, pushText segments (y :: p)).
Proof.
  intros Hk Hr Hb Hm Hq. unfold inlineStep.
  rewrite (firstMatch_before_mark (inlineRules pi) k y p rest Hk Hr Hq).
  destruct (Hm (List.rev (y :: p) ++ [])) as [m E].
  pose proof (execFrom_to_mark nextTokenRegex k rest m Hk Hb (y :: p) [] Hq E) as F.
  cbn [List.app] in F. unfold search, exec. rewrite F. cbn [option_map].
  apply execAt_sound in E. destruct E as (_ & _ & _ & _ & ->).
  rewrite List.app_nil_r, List.length_rev.
  cbv zeta. replace (Nat.ltb 0 (List.length (y :: p))) with true by reflexivity.
  change (y :: p ++ k :: rest) with ((y :: p) ++ k :: rest).
  rewrite List.firstn_app, List.firstn_all, Nat.sub_diag. cbn [List.firstn].
  rewrite List.app_nil_r, List.skipn_app, List.skipn_all, Nat.sub_diag.
  reflexivity.
Qed.

(** *** The way of one line through [parseComment] *)

Lemma calm_free (t : N -> bool) s :
  calm s = true ->
  (forall x, t x = true -> oneOf "<#`~" x = true \/ x = newline) ->
  List.existsb t s = false.
Proof.
  unfold calm. rewrite List.forallb_forall. intros H Ht.
  destruct (List.existsb t s) eqn:E; [|reflexivity].
  apply List.existsb_exists in E. destruct E as (x & Hx & Tx).
  specialize (H x Hx). apply andb_true_iff in H. destruct H as [H1 H2].
  apply negb_true_iff in H1, H2.
  destruct (Ht x Tx) as [Ho| ->]; [congruence|now rewrite N.eqb_refl in H2].
Qed.

Lemma lineStart_other c z :
  (c =? 35)%N = false -> (c =? 62)%N = false -> (c =? 45)%N = false ->
  firstMatch (lineStartRules parseInline) (c :: z) = None.
Proof.
  intros H1 H2 H3.
  assert (H : List.Forall (fun r => exec (r_regex r) (c :: z) = None)
                          (lineStartRules parseInline)).
  { unfold lineStartRules.
    repeat (apply List.Forall_cons;
            [cbn [r_regex]; rewrite exec_at_start by reflexivity;
             unfold execAt; open_lits;
             cbn [re ignoreCase multiline run many atLineStart sameChar];
             unfold oneOf; change (js "#") with [35%N]; cbn [List.existsb];
             now rewrite ?H1, ?H2, ?H3|]).
    apply List.Forall_nil. }
  induction H as [|r rs Hr _ IH]; cbn [firstMatch]; [reflexivity|]. now rewrite Hr.
Qed.

Lemma inlineHead_parts c :
  inlineHead c = true ->
  isSpace c = false /\
  ((c =? 42)%N = false /\ (c =? 95)%N = false /\ (c =? 126)%N = false) /\
  ((c =? 35)%N = false /\ (c =? 62)%N = false /\ (c =? 45)%N = false).
Proof.
  unfold inlineHead. intros H. apply andb_true_iff in H. destruct H as [H1 H2].
  apply negb_true_iff in H1, H2. unfold oneOf in H2.
  change (js "*_~#>-") with [42; 95; 126; 35; 62; 45]%N in H2.
  cbn [List.existsb] in H2.
  repeat (apply orb_false_elim in H2; destruct H2 as [? H2]).
  repeat split; assumption.
Qed.

Lemma one_line c text segs :
  calm (c :: text) = true -> inlineHead c = true ->
  parseInline (c :: text) = Some segs ->
  parseComment (c :: text) = Ok segs.
Proof.
  intros Hc Hh Hp.
  destruct (inlineHead_parts c Hh) as (Hs & (A1 & A2 & A3) & (B1 & B2 & B3)).
  unfold parseComment. cbn [List.length parseComment_fuel].
  assert (Hcl : cleaned (c :: text) = Ok (c :: text)).
  { unfold cleaned.
    rewrite (replace_no_match brRegex (fun x => (x =? 60)%N) _ _ eq_refl).
    - rewrite decode_numeric_only.
      rewrite (pieces_no_match entityRegex (fun x => (x =? hash)%N) eq_refl _ []).
      + apply replaceEntities_chars.
      + apply (calm_free _ _ Hc). intros x Hx. left.
        apply N.eqb_eq in Hx. now subst.
    - apply (calm_free _ _ Hc). intros x Hx. left.
      apply N.eqb_eq in Hx. now subst. }
  rewrite Hcl. cbn [bind].
  rewrite (splitBlocks_none _ c text).
  - cbn [bind renderBlocks renderBlock]. rewrite (split_no_newline (c :: text)).
    + cbn [parseLines parseLine].
      destruct (trim_head c text Hs) as (z & ->).
      rewrite (firstLone_no_mark c z A1 A2 A3), (lineStart_other c text B1 B2 B3), Hp.
      cbn [ofOption bind]. now rewrite !List.app_nil_r.
    + apply (calm_free _ _ Hc). intros x Hx. right. now apply N.eqb_eq in Hx.
  - apply (execFrom_none multilineRegex (oneOf "`~") [] _ eq_refl).
    apply (calm_free _ _ Hc). intros x Hx. left.
    unfold oneOf in *. change (js "`~") with [96; 126]%N in Hx.
    change (js "<#`~") with [60; 35; 96; 126]%N.
    cbn [List.existsb] in *. rewrite orb_false_r in Hx.
    apply orb_true_iff in Hx. destruct Hx as [Hx|Hx]; rewrite Hx;
      now rewrite ?orb_true_r.
Qed.

(** *** A token between plain texts *)

Lemma pushText_fresh segments seg plain :
  type seg <> Ttext -> plain <> [] ->
  pushText (segments ++ [seg]) plain = segments ++ [seg; textSegment plain].
Proof.
  intros Ht Hp. induction segments as [|s0 segments IH].
  - cbn [List.app pushText]. destruct (type seg); try reflexivity. congruence.
  - cbn [List.app].
    assert (E : exists s1 r, segments ++ [seg] = s1 :: r).
    { destruct segments; now eexists; eexists. }
    destruct E as (s1 & r & E).
    transitivity (s0 :: pushText (segments ++ [seg]) plain).
    + rewrite E. reflexivity.
    + now rewrite IH.
Qed.

Lemma inlineLoop_rest fuel post segments seg :
  2 <= fuel -> type seg <> Ttext -> List.existsb isTrigger post = false ->
  inlineLoop fuel post (segments ++ [seg])
  = Some (segments ++ seg :: textOf post).
Proof.
  intros Hf Ht Hp. destruct post as [|c post].
  - destruct fuel; [lia|]. reflexivity.
  - rewrite (inlineLoop_plain fuel c post _ Hf Hp).
    now rewrite (pushText_fresh segments seg (c :: post) Ht).
Qed.

Lemma inlineLoop_step fuel c text segments :
  inlineLoop (S fuel) (c :: text) segments
  = match inlineStep (fun line => match line with
                                  | [] => Some []
                                  | _ :: _ => inlineLoop fuel line []
                                  end) (c :: text) segments with
    | None => None
    | Some (text', segments') => inlineLoop fuel text' segments'
    end.
Proof. reflexivity. Qed.

Lemma parseInline_token k tok seg pre post :
  (forall pi segments,
      inlineStep pi ((k :: tok) ++ post) segments = Some (post, segments ++ [seg])) ->
  (forall pi y p segments,
      List.existsb isTrigger (y :: p) = false ->
      inlineStep pi (y :: p ++ (k :: tok) ++ post) segments
      = Some ((k :: tok) ++ post, pushText segments (y :: p))) ->
  tok <> [] -> type seg <> Ttext ->
  List.existsb isTrigger pre = false -> List.existsb isTrigger post = false ->
  parseInline (pre ++ (k :: tok) ++ post) = Some (textOf pre ++ seg :: textOf post).
Proof.
  intros Hstep Hbefore Hn Ht Hpre Hpost.
  unfold parseInline, parseInline_fuel.
  assert (Ltok : 1 <= List.length tok) by (destruct tok; [congruence|simpl; lia]).
  destruct pre as [|y p].
  - change ([] ++ (k :: tok) ++ post) with ((k :: tok) ++ post).
    change (textOf [] ++ seg :: textOf post) with (seg :: textOf post).
    remember (List.length ((k :: tok) ++ post)) as n eqn:En.
    rewrite List.length_app in En. cbn [List.length] in En.
    cbn [List.app] in *. rewrite inlineLoop_step, Hstep.
    apply (inlineLoop_rest _ post [] seg); [lia|exact Ht|exact Hpost].
  - change ((y :: p) ++ (k :: tok) ++ post) with (y :: p ++ (k :: tok) ++ post).
    change (textOf (y :: p) ++ seg :: textOf post)
      with ([textSegment (y :: p)] ++ seg :: textOf post).
    cbn [List.length].
    remember (List.length (p ++ (k :: tok) ++ post)) as n eqn:En.
    rewrite !List.length_app in En. cbn [List.length] in En.
    cbn [List.app] in Hstep, Hbefore |- *.
    rewrite inlineLoop_step, (Hbefore _ y p [] Hpre).
    cbn [pushText].
    destruct n as [|n]; [lia|]. rewrite inlineLoop_step, Hstep.
    destruct post as [|c post].
    + destruct n as [|n]; [simpl in En; lia|]. reflexivity.
    + apply (inlineLoop_rest _ (c :: post) [textSegment (y :: p)] seg);
        [simpl in En; lia|exact Ht|exact Hpost].
Qed.

Lemma front_parts pre :
  front pre = true ->
  List.existsb isTrigger pre = false /\
  match pre with c :: _ => isSpace c = false | [] => True end.
Proof.
  unfold front. intros H. apply andb_true_iff in H. destruct H as [H1 H2].
  split; [now apply plainText_existsb|].
  destruct pre; [exact I|now apply negb_true_iff in H2].
Qed.

Lemma plain_calm s : List.existsb isTrigger s = false -> calm s = true.
Proof.
  intros H. unfold calm. apply List.forallb_forall. intros x Hx.
  pose proof (existsb_in _ _ _ H Hx) as T.
  apply andb_true_iff. split; apply negb_true_iff.
  - destruct (oneOf "<#`~" x) eqn:E; [|reflexivity].
    now rewrite (oneOf_trigger "<#`~" x eq_refl E) in T.
  - destruct (x =? newline)%N eqn:E; [|reflexivity].
    now rewrite (eqb_trigger newline x eq_refl E) in T.
Qed.

Lemma plain_head c :
  isTrigger c = false -> isSpace c = false -> inlineHead c = true.
Proof.
  intros Ht Hs. unfold inlineHead. rewrite Hs. cbn [negb andb].
  apply negb_true_iff. destruct (oneOf "*_~#>-" c) eqn:E; [|reflexivity].
  now rewrite (oneOf_trigger "*_~#>-" c eq_refl E) in Ht.
Qed.

Lemma calm_app a b : calm (a ++ b) = calm a && calm b.
Proof. unfold calm. apply List.forallb_app. Qed.

(** *** Mentions *)

Lemma endsName_head post :
  endsName post = true ->
  match post with c :: _ => wordOrDash c = false | [] => True end.
Proof. destruct post; [easy|]. intros H. now apply negb_true_iff in H. Qed.

Lemma mention_exec u post :
  u <> [] -> List.forallb wordOrDash u = true -> endsName post = true ->
  exists m,
    execAt (mkRegex (Bol ;; lit "@" ;; Grp 1 (plus wordOrDash)) false false)
           [] (64%N :: u ++ post) = Some m /\
    matched m = 64%N :: u /\ grp m 1 = u.
Proof.
  intros Hn Hu Hp. apply forallb_Forall in Hu. apply endsName_head in Hp.
  eexists. split.
  - unfold execAt, plus. open_lits.
    cbn [re ignoreCase multiline run atLineStart sameChar]. closed_tests.
    apply many_greedy_all; [exact Hu|destruct u; [congruence|simpl; lia]| |exact Hp].
    reflexivity.
  - cbn [matched group]. unfold grp, setCap. cbn [Nat.eqb].
    rewrite (firstn_consumed u post). split; [|reflexivity].
    change (64%N :: u ++ post) with ((64%N :: u) ++ post).
    apply firstn_consumed.
Qed.

Lemma nextToken_at_mention bef u post :
  u <> [] -> List.forallb wordOrDash u = true -> endsName post = true ->
  exists m, execAt nextTokenRegex bef (64%N :: u ++ post) = Some m.
Proof.
  intros Hn Hu Hp. apply forallb_Forall in Hu. apply endsName_head in Hp.
  eexists. unfold execAt, nextTokenRegex, plus. open_lits.
  cbn [re ignoreCase multiline run sameChar]. closed_tests.
  erewrite many_greedy_all;
    [reflexivity|exact Hu|destruct u; [congruence|simpl; lia]| |exact Hp].
  reflexivity.
Qed.

Lemma inlineStep_mention pi u post segments :
  u <> [] -> List.forallb wordOrDash u = true -> endsName post = true ->
  inlineStep pi ((64%N :: u) ++ post) segments
  = Some (post, segments ++ [userLink u]).
Proof.
  intros Hn Hu Hp. destruct (mention_exec u post Hn Hu Hp) as (m & E & Hm & Hg).
  unfold inlineStep. cbn [List.app inlineRules firstMatch r_regex].
  rewrite exec_at_start by reflexivity. rewrite E. cbn [r_process].
  rewrite Hm, Hg.
  change (64%N :: u ++ post) with ((64%N :: u) ++ post).
  now rewrite List.skipn_app, List.skipn_all, Nat.sub_diag.
Qed.

Lemma wordOrDash_calm u : List.forallb wordOrDash u = true -> calm u = true.
Proof.
  unfold calm. rewrite !List.forallb_forall. intros H x Hx. specialize (H x Hx).
  apply andb_true_iff. split; apply negb_true_iff.
  - destruct (oneOf "<#`~" x) eqn:E; [|reflexivity].
    unfold oneOf in E. change (js "<#`~") with [60; 35; 96; 126]%N in E.
    cbn [List.existsb] in E. rewrite orb_false_r in E.
    repeat (apply orb_true_iff in E; destruct E as [E|E]);
      apply N.eqb_eq in E; subst x; discriminate H.
  - destruct (x =? newline)%N eqn:E; [|reflexivity].
    apply N.eqb_eq in E. subst x. discriminate H.
Qed.

(** X21. A mention between plain texts: in a one-line comment
    [pre @name post], where the name is a run of word characters and
    dashes that ends where [post] starts, [parseComment] gives the ['text']
    segment [pre] (when there is one), a ['user-link'] segment whose
    username is the whole name and whose content is [@] and the name, and
    the ['text'] segment [post] (when there is one).  Underscores and
    dashes inside the name belong to it: they start no formatter. *)
Theorem mention_roundtrip (pre u post : jsstring) :
  front pre = true ->
  u <> [] -> List.forallb wordOrDash u = true ->
  endsName post = true -> plainText post = true ->
  parseComment (pre ++ (64%N :: u) ++ post)
  = Ok (textOf pre ++ userLink u :: textOf post).
Proof.
  intros Hf Hn Hu He Hp.
  destruct (front_parts pre Hf) as [Hpre Hhead].
  apply plainText_existsb in Hp.
  assert (PI : parseInline (pre ++ (64%N :: u) ++ post)
               = Some (textOf pre ++ userLink u :: textOf post)).
  { apply parseInline_token; try assumption; try discriminate.
    - intros pi segments. now apply inlineStep_mention.
    - intros pi y p segments Hq.
      apply (inlineStep_before pi 64 y p (u ++ post) segments);
        [reflexivity|reflexivity|reflexivity| |exact Hq].
      intros bef. now apply nextToken_at_mention. }
  assert (Hcalm : calm (pre ++ (64%N :: u) ++ post) = true).
  { rewrite !calm_app, (plain_calm pre Hpre), (plain_calm post Hp).
    change (64%N :: u) with ([64%N] ++ u).
    now rewrite calm_app, (wordOrDash_calm u Hu). }
  destruct pre as [|y p].
  - cbn [List.app] in *. now apply one_line.
  - cbn [List.app] in *. apply one_line; [exact Hcalm| |exact PI].
    apply plain_head; [|exact Hhead].
    simpl in Hpre. now apply orb_false_elim in Hpre.
Qed.

Lemma mention_roundtrip_witness :
  parseComment (js "thanks " ++ (64%N :: js "some_user-2") ++ js "!")
  = Ok [textSegment (js "thanks "); userLink (js "some_user-2");
        textSegment (js "!")].
Proof.
  apply (mention_roundtrip (js "thanks ") (js "some_user-2") (js "!"));
    [reflexivity|discriminate|reflexivity|reflexivity|reflexivity].
Defined.

(** *** Links with a label *)

Lemma link_text label url post :
  (91%N :: label ++ 93%N :: 40%N :: url ++ [41%N]) ++ post
  = 91%N :: label ++ 93%N :: 40%N :: url ++ 41%N :: post.
Proof.
  cbn [List.app]. rewrite <- List.app_assoc. cbn [List.app].
  now rewrite <- List.app_assoc.
Qed.

Lemma closes_label : noneOf "]" 93 = false.
Proof. reflexivity. Qed.

Lemma closes_url : noneOf ")" 41 = false.
Proof. reflexivity. Qed.

Lemma link_exec label url post :
  label <> [] -> List.forallb (noneOf "]") label = true ->
  url <> [] -> List.forallb (noneOf ")") url = true ->
  exists m,
    execAt (mkRegex (Bol ;; lit "[" ;; Grp 1 (plus (noneOf "]")) ;; lit "](" ;;
                     Grp 2 (plus (noneOf ")")) ;; lit ")") false false)
           [] ((91%N :: label ++ 93%N :: 40%N :: url ++ [41%N]) ++ post) = Some m /\
    matched m = 91%N :: label ++ 93%N :: 40%N :: url ++ [41%N] /\
    grp m 1 = label /\ grp m 2 = url.
Proof.
  intros Hl Hlabel Hu Hurl. apply forallb_Forall in Hlabel, Hurl.
  rewrite link_text. eexists. split.
  - unfold execAt, plus. open_lits.
    cbn [re ignoreCase multiline run atLineStart sameChar]. closed_tests.
    apply many_greedy_all;
      [exact Hlabel|destruct label; [congruence|simpl; lia]| |exact closes_label].
    cbn [run sameChar]. closed_tests.
    apply many_greedy_all;
      [exact Hurl|destruct url; [congruence|simpl; lia]| |exact closes_url].
    cbn [run sameChar]. closed_tests. reflexivity.
  - cbn [matched group]. unfold grp, setCap. cbn [Nat.eqb].
    rewrite (firstn_consumed label), (firstn_consumed url).
    split; [|split; reflexivity].
    rewrite <- link_text. apply firstn_consumed.
Qed.

Lemma nextToken_at_link bef rest :
  exists m, execAt nextTokenRegex bef (91%N :: rest) = Some m.
Proof.
  eexists. unfold execAt, nextTokenRegex. open_lits.
  cbn [re ignoreCase multiline run sameChar]. closed_tests. reflexivity.
Qed.

Lemma inlineStep_link pi label url post segments :
  label <> [] -> List.forallb (noneOf "]") label = true ->
  url <> [] -> List.forallb (noneOf ")") url = true ->
  inlineStep pi ((91%N :: label ++ 93%N :: 40%N :: url ++ [41%N]) ++ post) segments
  = Some (post, segments ++ [labelledLink label url]).
Proof.
  intros Hl Hlabel Hu Hurl.
  destruct (link_exec label url post Hl Hlabel Hu Hurl) as (m & E & Hm & H1 & H2).
  rewrite link_text in E |- *. unfold inlineStep.
  eassert (F : firstMatch (inlineRules pi)
                 (91%N :: label ++ 93%N :: 40%N :: url ++ 41%N :: post)
               = Some (_, m)).
  { cbn [inlineRules firstMatch r_regex].
    do 8 (rewrite exec_at_start by reflexivity;
          match goal with
          | |- context [execAt ?R [] ?t] =>
            replace (execAt R [] t) with (@None MatchResult)
              by (unfold execAt; open_lits;
                  cbn [re ignoreCase multiline run atLineStart sameChar];
                  closed_tests; reflexivity)
          end).
    rewrite exec_at_start by reflexivity. rewrite E. reflexivity. }
  rewrite F. cbn [r_process r_type]. rewrite Hm, H1, H2, <- (link_text label url post).
  now rewrite List.skipn_app, List.skipn_all, Nat.sub_diag.
Qed.

(** X22. A link with a label between plain texts: in a one-line comment
    [pre [label](url) post], where the label holds no [\]], the address no
    [)], and neither holds [<], [#], a backtick, [~] or a newline,
    [parseComment] gives the ['text'] segment [pre] (when there is one), a
    ['link'] segment whose content is the label and whose url is the
    address, both taken as they are written, and the ['text'] segment
    [post] (when there is one).  The label is not parsed again: stars and
    underscores inside it stay in the content. *)
Theorem labelled_link_roundtrip (pre label url post : jsstring) :
  front pre = true ->
  label <> [] -> List.forallb (noneOf "]") label = true -> calm label = true ->
  url <> [] -> List.forallb (noneOf ")") url = true -> calm url = true ->
  plainText post = true ->
  parseComment (pre ++ (91%N :: label ++ 93%N :: 40%N :: url ++ [41%N]) ++ post)
  = Ok (textOf pre ++ labelledLink label url :: textOf post).
Proof.
  intros Hf Hl Hlabel Cl Hu Hurl Cu Hp.
  destruct (front_parts pre Hf) as [Hpre Hhead].
  apply plainText_existsb in Hp.
  assert (PI : parseInline
                 (pre ++ (91%N :: label ++ 93%N :: 40%N :: url ++ [41%N]) ++ post)
               = Some (textOf pre ++ labelledLink label url :: textOf post)).
  { apply parseInline_token; try assumption; try discriminate.
    - intros pi segments. now apply inlineStep_link.
    - intros pi y p segments Hq.
      apply (inlineStep_before pi 91 y p _ segments);
        [reflexivity|reflexivity|reflexivity| |exact Hq].
      intros bef. apply nextToken_at_link.
    - destruct label; [congruence|discriminate]. }
  assert (Hcalm : calm (pre ++ (91%N :: label ++ 93%N :: 40%N :: url ++ [41%N])
                            ++ post) = true).
  { rewrite !calm_app, (plain_calm pre Hpre), (plain_calm post Hp).
    change (91%N :: label ++ 93%N :: 40%N :: url ++ [41%N])
      with ([91%N] ++ label ++ [93%N; 40%N] ++ url ++ [41%N]).
    now rewrite !calm_app, Cl, Cu. }
  destruct pre as [|y p].
  - cbn [List.app] in *. now apply one_line.
  - cbn [List.app] in *. apply one_line; [exact Hcalm| |exact PI].
    apply plain_head; [|exact Hhead].
    simpl in Hpre. now apply orb_false_elim in Hpre.
Qed.

Lemma labelled_link_roundtrip_witness :
  parseComment (js "see " ++
                (91%N :: js "the *first* post" ++ 93%N :: 40%N ::
                        js "https://anilist.co/forum/thread/1" ++ [41%N]) ++
                js " for more")
  = Ok [textSegment (js "see ");
        labelledLink (js "the *first* post")
                     (js "https://anilist.co/forum/thread/1");
        textSegment (js " for more")].
Proof.
  apply (labelled_link_roundtrip (js "see ") (js "the *first* post")
           (js "https://anilist.co/forum/thread/1") (js " for more"));
    solve [reflexivity | discriminate].
Defined.

(** *** Videos at the head of a line *)

Ltac open_js :=
  repeat match goal with
         | |- context [js ?s] =>
           let v := eval vm_compute in (js s) in change (js s) with v
         end.

Lemma parseInline_head tok seg post :
  (forall pi segments,
      inlineStep pi (tok ++ post) segments = Some (post, segments ++ [seg])) ->
  2 <= List.length tok -> type seg <> Ttext ->
  List.existsb isTrigger post = false ->
  parseInline (tok ++ post) = Some (seg :: textOf post).
Proof.
  intros Hstep Hn Ht Hpost. unfold parseInline, parseInline_fuel.
  remember (List.length (tok ++ post)) as n eqn:En.
  rewrite List.length_app in En.
  destruct tok as [|k tok]; [simpl in Hn; lia|].
  cbn [List.length] in En, Hn. cbn [List.app] in Hstep |- *.
  rewrite inlineLoop_step, Hstep.
  apply (inlineLoop_rest _ post [] seg); [lia|exact Ht|exact Hpost].
Qed.

Lemma firstn_upto (w aft t : list N) :
  t = w ++ aft -> List.firstn (List.length t - List.length aft) t = w.
Proof. intros ->. apply firstn_consumed. Qed.

Ltac named_exec Hn Hid :=
  apply forallb_Forall in Hid;
  rewrite <- !List.app_assoc; open_js; cbn [List.app];
  eexists; split;
  [ unfold execAt, plus; open_lits;
    cbn [re ignoreCase multiline run atLineStart sameChar]; closed_tests;
    apply many_greedy_all;
    [exact Hid
    |match goal with |- _ <= List.length ?d =>
       destruct d; [congruence|simpl; lia] end
    |cbn [run sameChar]; closed_tests; reflexivity
    |exact closes_url]
  | cbn [matched group]; unfold grp, setCap; cbn [Nat.eqb];
    match goal with |- context [List.firstn _ (?d ++ ?r)] =>
      rewrite (firstn_consumed d r) end;
    split; [|reflexivity];
    apply firstn_upto; cbn [List.app]; now rewrite <- List.app_assoc ].

Lemma youtube_exec id post :
  id <> [] -> List.forallb (noneOf ")") id = true ->
  exists m,
    execAt (mkRegex (Bol ;; lit "youtube(" ;; Grp 1 (plus (noneOf ")")) ;; lit ")")
                    false false)
           [] ((js "youtube(" ++ id ++ [41%N]) ++ post) = Some m /\
    matched m = js "youtube(" ++ id ++ [41%N] /\ grp m 1 = id.
Proof.
  intros Hn Hid. named_exec Hn Hid.
Qed.

Lemma video_exec id post :
  id <> [] -> List.forallb (noneOf ")") id = true ->
  exists m,
    execAt (mkRegex (Bol ;; lit "video(" ;; Grp 1 (plus (noneOf ")")) ;; lit ")")
                    false false)
           [] ((js "video(" ++ id ++ [41%N]) ++ post) = Some m /\
    matched m = js "video(" ++ id ++ [41%N] /\ grp m 1 = id.
Proof.
  intros Hn Hid. named_exec Hn Hid.
Qed.

(** The rules in front of the one that matches miss the text. *)
Ltac earlier_miss :=
  cbn [inlineRules firstMatch r_regex];
  repeat (rewrite exec_at_start by reflexivity;
        match goal with
        | |- context [execAt ?R [] ?t] =>
          replace (execAt R [] t) with (@None MatchResult)
            by (unfold execAt; open_lits; open_js;
                cbn [List.app re ignoreCase multiline run atLineStart sameChar];
                closed_tests; reflexivity)
        end);
  rewrite exec_at_start by reflexivity.

Lemma inlineStep_youtube pi id post segments :
  id <> [] -> List.forallb (noneOf ")") id = true ->
  inlineStep pi ((js "youtube(" ++ id ++ [41%N]) ++ post) segments
  = Some (post, segments ++ [labelledLink (js "youtube.com/watch?v=" ++ id)
                               (js "https://www.youtube.com/watch?v=" ++ id)]).
Proof.
  intros Hn Hid.
  destruct (youtube_exec id post Hn Hid) as (m & E & Hm & Hg).
  unfold inlineStep.
  eassert (F : firstMatch (inlineRules pi) ((js "youtube(" ++ id ++ [41%N]) ++ post)
               = Some (_, m)).
  { earlier_miss. rewrite E. reflexivity. }
  rewrite F. cbn [r_process r_type]. rewrite Hm, Hg.
  now rewrite List.skipn_app, List.skipn_all, Nat.sub_diag.
Qed.

Lemma inlineStep_video pi id post segments :
  id <> [] -> List.forallb (noneOf ")") id = true ->
  inlineStep pi ((js "video(" ++ id ++ [41%N]) ++ post) segments
  = Some (post, segments ++ [labelledLink id id]).
Proof.
  intros Hn Hid.
  destruct (video_exec id post Hn Hid) as (m & E & Hm & Hg).
  unfold inlineStep.
  eassert (F : firstMatch (inlineRules pi) ((js "video(" ++ id ++ [41%N]) ++ post)
               = Some (_, m)).
  { earlier_miss. rewrite E. reflexivity. }
  rewrite F. cbn [r_process r_type]. rewrite Hm, Hg.
  now rewrite List.skipn_app, List.skipn_all, Nat.sub_diag.
Qed.

(** X23. A video at the head of a line: for a one-line comment
    [youtube(id)post] or [video(id)post], where [id] is not empty and holds
    no [)], [<], [#], backtick, [~] or newline, [parseComment] gives a
    segment of type ['link'] (the type the rule's [process] returns, not the
    rule's own ['youtube'] or ['video']) and the ['text'] segment [post]
    (when there is one).  For [youtube] the content is
    [youtube.com/watch?v=id] and the url [https://www.youtube.com/watch?v=id];
    for [video] content and url are both [id]. *)
Theorem video_tokens_become_links (id post : jsstring) :
  id <> [] -> List.forallb (noneOf ")") id = true -> calm id = true ->
  plainText post = true ->
  parseComment ((js "youtube(" ++ id ++ [41%N]) ++ post)
  = Ok (labelledLink (js "youtube.com/watch?v=" ++ id)
                     (js "https://www.youtube.com/watch?v=" ++ id)
        :: textOf post) /\
  parseComment ((js "video(" ++ id ++ [41%N]) ++ post)
  = Ok (labelledLink id id :: textOf post).
Proof.
  intros Hn Hid Cid Hp. apply plainText_existsb in Hp.
  assert (L : forall name : jsstring, 1 <= List.length name ->
                2 <= List.length (name ++ id ++ [41%N])).
  { intros name H. rewrite !List.length_app. simpl. lia. }
  split.
  - assert (PI : parseInline ((js "youtube(" ++ id ++ [41%N]) ++ post)
                 = Some (labelledLink (js "youtube.com/watch?v=" ++ id)
                           (js "https://www.youtube.com/watch?v=" ++ id)
                         :: textOf post)).
    { apply parseInline_head; [|apply L; simpl; lia|discriminate|exact Hp].
      intros pi segments. now apply inlineStep_youtube. }
    revert PI. open_js. cbn [List.app]. intros PI.
    apply one_line; [|reflexivity|exact PI].
    change (calm ([121; 111; 117; 116; 117; 98; 101; 40]%N ++ (id ++ [41%N]) ++ post)
            = true).
    now rewrite !calm_app, Cid, (plain_calm post Hp).
  - assert (PI : parseInline ((js "video(" ++ id ++ [41%N]) ++ post)
                 = Some (labelledLink id id :: textOf post)).
    { apply parseInline_head; [|apply L; simpl; lia|discriminate|exact Hp].
      intros pi segments. now apply inlineStep_video. }
    revert PI. open_js. cbn [List.app]. intros PI.
    apply one_line; [|reflexivity|exact PI].
    change (calm ([118; 105; 100; 101; 111; 40]%N ++ (id ++ [41%N]) ++ post)
            = true).
    now rewrite !calm_app, Cid, (plain_calm post Hp).
Qed.

Lemma video_tokens_become_links_witness :
  parseComment ((js "youtube(" ++ js "dQw4w9WgXcQ" ++ [41%N]) ++ js " watch")
  = Ok [labelledLink (js "youtube.com/watch?v=dQw4w9WgXcQ")
                     (js "https://www.youtube.com/watch?v=dQw4w9WgXcQ");
        textSegment (js " watch")] /\
  parseComment ((js "video(" ++ js "dQw4w9WgXcQ" ++ [41%N]) ++ js " watch")
  = Ok [labelledLink (js "dQw4w9WgXcQ") (js "dQw4w9WgXcQ");
        textSegment (js " watch")].
Proof.
  apply (video_tokens_become_links (js "dQw4w9WgXcQ") (js " watch"));
    solve [reflexivity | discriminate].
Defined.


(** *** Addresses at the head of a line *)

Lemma scheme_text secure rest post :
  (scheme secure ++ rest) ++ post
  = 104%N :: 116%N :: 116%N :: 112%N ::
    (if secure then [115%N] else []) ++ 58%N :: 47%N :: 47%N :: rest ++ post.
Proof.
  unfold scheme. open_js. rewrite <- !List.app_assoc. reflexivity.
Qed.

Lemma url_exec secure rest post :
  rest <> [] -> List.forallb urlChar rest = true -> endsUrl post = true ->
  exists m,
    execAt (mkRegex (Bol ;; Grp 1 (lit "http" ;; opt (oneOf "s") ;; lit "://" ;;
                                   plus urlChar)) false false)
           [] ((scheme secure ++ rest) ++ post) = Some m /\
    matched m = scheme secure ++ rest /\ grp m 1 = scheme secure ++ rest.
Proof.
  intros Hn Hr Hp. apply forallb_Forall in Hr.
  assert (Hp' : match post with c :: _ => urlChar c = false | [] => True end).
  { destruct post; [exact I|]. now apply negb_true_iff in Hp. }
  pose proof (scheme_text secure rest post) as T.
  rewrite T. eexists. split.
  - unfold execAt, plus, opt. open_lits.
    cbn [re ignoreCase multiline run atLineStart sameChar]. closed_tests.
    apply many_greedy_bounded.
    + destruct secure; repeat constructor.
    + lia.
    + intros h [= <-]. destruct secure; simpl; lia.
    + cbn [run sameChar]. closed_tests.
      apply many_greedy_all;
        [exact Hr|destruct rest; [congruence|simpl; lia]| |exact Hp'].
      reflexivity.
    + reflexivity.
  - cbn [matched group]. unfold grp, setCap. cbn [Nat.eqb].
    rewrite <- T. split; now apply firstn_upto.
Qed.

Lemma inlineStep_url pi secure rest post segments :
  rest <> [] -> List.forallb urlChar rest = true -> endsUrl post = true ->
  inlineStep pi ((scheme secure ++ rest) ++ post) segments
  = Some (post, segments ++ [labelledLink (scheme secure ++ rest)
                                          (scheme secure ++ rest)]).
Proof.
  intros Hn Hr Hp.
  destruct (url_exec secure rest post Hn Hr Hp) as (m & E & Hm & Hg).
  unfold inlineStep.
  eassert (F : firstMatch (inlineRules pi) ((scheme secure ++ rest) ++ post)
               = Some (_, m)).
  { rewrite scheme_text in E |- *. earlier_miss. rewrite E. reflexivity. }
  rewrite F. cbn [r_process r_type]. rewrite Hm, Hg.
  now rewrite List.skipn_app, List.skipn_all, Nat.sub_diag.
Qed.

(** X24. A bare address at the head of a line: for a one-line comment
    [http://rest post] or [https://rest post], where [rest] is a run of
    address characters (no white space, angle bracket, quote, brace, bar,
    backslash, caret, backtick or square bracket) that ends where [post]
    starts and holds no [#] or [~], [parseComment] gives a
    ['link'] segment whose content and url are both the whole address, and
    the ['text'] segment [post] (when there is one). *)
Theorem bare_address_is_link (secure : bool) (rest post : jsstring) :
  rest <> [] -> List.forallb urlChar rest = true -> calm rest = true ->
  endsUrl post = true -> plainText post = true ->
  parseComment ((scheme secure ++ rest) ++ post)
  = Ok (labelledLink (scheme secure ++ rest) (scheme secure ++ rest)
        :: textOf post).
Proof.
  intros Hn Hr Cr He Hp. apply plainText_existsb in Hp.
  assert (PI : parseInline ((scheme secure ++ rest) ++ post)
               = Some (labelledLink (scheme secure ++ rest) (scheme secure ++ rest)
                       :: textOf post)).
  { apply parseInline_head; [| |discriminate|exact Hp].
    - intros pi segments. now apply inlineStep_url.
    - rewrite List.length_app. unfold scheme. rewrite List.length_app.
      change (List.length (js "http")) with 4. lia. }
  revert PI. rewrite scheme_text. intros PI.
  apply one_line; [|reflexivity|exact PI].
  change (calm ([104; 116; 116; 112]%N ++ (if secure then [115%N] else []) ++
                [58; 47; 47]%N ++ rest ++ post) = true).
  rewrite !calm_app, Cr, (plain_calm post Hp). now destruct secure.
Qed.

Lemma bare_address_is_link_witness :
  parseComment ((scheme true ++ js "anilist.co/anime/1/?x=1") ++ js " is the page")
  = Ok [labelledLink (js "https://anilist.co/anime/1/?x=1")
                     (js "https://anilist.co/anime/1/?x=1");
        textSegment (js " is the page")].
Proof.
  apply (bare_address_is_link true (js "anilist.co/anime/1/?x=1")
           (js " is the page"));
    solve [reflexivity | discriminate].
Defined.


(** *** Images at the head of a line *)

(** A lazy repetition over a class stops at the first place where what
    follows fits. *)
Lemma many_lazy_stop (A : Type) p (k : list N -> list N -> option A) a :
  forall d lo bef rest,
    List.Forall (fun x => p x = true) d ->
    (forall d1 x d2, d = d1 ++ x :: d2 ->
                     k (List.rev d1 ++ bef) (x :: d2 ++ rest) = None) ->
    lo <= List.length d ->
    k (List.rev d ++ bef) rest = Some a ->
    many false lo None p k bef (d ++ rest) = Some a.
Proof.
  induction d as [|x d IH]; intros lo bef rest Hd Hk Hlo Ha.
  - destruct lo; [|simpl in Hlo; lia]. cbn [List.app List.rev] in *.
    destruct rest; cbn [many]; now rewrite Ha.
  - inversion Hd as [|? ? Hx Hd']; subst.
    assert (E : many false (pred lo) None p k (x :: bef) (d ++ rest) = Some a).
    { apply IH.
      - exact Hd'.
      - intros d1 y d2 ->. specialize (Hk (x :: d1) y d2 eq_refl).
        cbn [List.rev] in Hk. now rewrite <- List.app_assoc in Hk.
      - simpl in Hlo. lia.
      - cbn [List.rev] in Ha. now rewrite <- List.app_assoc in Ha. }
    cbn [List.app many]. rewrite Hx. cbn [andb canTake option_map].
    destruct lo; [|exact E].
    pose proof (Hk [] x d eq_refl) as H0. cbn [List.rev List.app] in H0.
    rewrite H0. exact E.
Qed.

Lemma image_text size url post :
  (js "img" ++ size ++ 40%N :: url ++ [41%N]) ++ post
  = 105%N :: 109%N :: 103%N :: size ++ 40%N :: url ++ 41%N :: post.
Proof.
  open_js. rewrite <- !List.app_assoc. cbn [List.app].
  now rewrite <- !List.app_assoc.
Qed.

Lemma image_exec size url post :
  List.forallb isDigit size = true ->
  List.forallb dot url = true -> List.forallb (noneOf ")") url = true ->
  exists m,
    execAt (mkRegex (Bol ;; lit "img" ;; Grp 1 (star isDigit) ;; lit "(" ;;
                     Grp 2 (lazyStar dot) ;; lit ")") false false)
           [] ((js "img" ++ size ++ 40%N :: url ++ [41%N]) ++ post) = Some m /\
    matched m = js "img" ++ size ++ 40%N :: url ++ [41%N] /\ grp m 2 = url.
Proof.
  intros Hs Hd Hu.
  pose proof (image_text size url post) as T.
  apply forallb_Forall in Hs, Hd. rewrite T. eexists. split.
  - unfold execAt, star, lazyStar. open_lits.
    cbn [re ignoreCase multiline run atLineStart sameChar]. closed_tests.
    apply many_greedy_all; [exact Hs|lia| |reflexivity].
    cbn [run sameChar]. closed_tests.
    apply many_lazy_stop; [exact Hd| |lia|].
    + intros d1 x d2 ->. cbn [run sameChar].
      rewrite List.forallb_app in Hu. apply andb_true_iff in Hu.
      destruct Hu as [_ Hu]. cbn [List.forallb] in Hu.
      apply andb_true_iff in Hu. destruct Hu as [Hx _].
      unfold noneOf, oneOf in Hx. change (js ")") with [41%N] in Hx.
      cbn [List.existsb] in Hx. rewrite orb_false_r in Hx.
      apply negb_true_iff in Hx. now rewrite Hx.
    + cbn [run sameChar]. closed_tests. reflexivity.
  - cbn [matched group]. unfold grp, setCap. cbn [Nat.eqb].
    rewrite (firstn_consumed url). split; [|reflexivity].
    rewrite <- T. now apply firstn_upto.
Qed.

Lemma inlineStep_image pi size url post segments :
  List.forallb isDigit size = true ->
  List.forallb dot url = true -> List.forallb (noneOf ")") url = true ->
  inlineStep pi ((js "img" ++ size ++ 40%N :: url ++ [41%N]) ++ post) segments
  = Some (post, segments ++ [imageOf url]).
Proof.
  intros Hs Hd Hu.
  destruct (image_exec size url post Hs Hd Hu) as (m & E & Hm & Hg).
  unfold inlineStep.
  eassert (F : firstMatch (inlineRules pi)
                 ((js "img" ++ size ++ 40%N :: url ++ [41%N]) ++ post)
               = Some (_, m)).
  { rewrite image_text in E |- *. earlier_miss. rewrite E. reflexivity. }
  rewrite F. cbn [r_process r_type]. rewrite Hm, Hg.
  now rewrite List.skipn_app, List.skipn_all, Nat.sub_diag.
Qed.

Lemma digits_calm size : List.forallb isDigit size = true -> calm size = true.
Proof.
  unfold calm. rewrite !List.forallb_forall. intros H x Hx. specialize (H x Hx).
  unfold isDigit, within in H. apply andb_true_iff in H. destruct H as [L U].
  apply N.leb_le in L, U.
  apply andb_true_iff. split; apply negb_true_iff.
  - unfold oneOf. change (js "<#`~") with [60; 35; 96; 126]%N.
    cbn [List.existsb]. rewrite orb_false_r.
    repeat (apply orb_false_intro); apply N.eqb_neq; lia.
  - apply N.eqb_neq. unfold newline. lia.
Qed.

(** X25. An image at the head of a line: for a one-line comment
    [img<size>(url)post], where [size] is a run of digits (possibly none)
    and [url] holds no [)], line terminator, [<], [#], backtick or [~],
    [parseComment] gives an ['image'] segment whose content is [url], and
    the ['text'] segment [post] (when there is one).  The size is read and
    dropped, and an empty [url] gives an image with empty content. *)
Theorem image_token (size url post : jsstring) :
  List.forallb isDigit size = true ->
  List.forallb dot url = true -> List.forallb (noneOf ")") url = true ->
  calm url = true -> plainText post = true ->
  parseComment ((js "img" ++ size ++ 40%N :: url ++ [41%N]) ++ post)
  = Ok (imageOf url :: textOf post).
Proof.
  intros Hs Hd Hu Cu Hp. apply plainText_existsb in Hp.
  assert (PI : parseInline ((js "img" ++ size ++ 40%N :: url ++ [41%N]) ++ post)
               = Some (imageOf url :: textOf post)).
  { apply parseInline_head; [| |discriminate|exact Hp].
    - intros pi segments. now apply inlineStep_image.
    - rewrite List.length_app. change (List.length (js "img")) with 3. lia. }
  revert PI. rewrite image_text. intros PI.
  apply one_line; [|reflexivity|exact PI].
  change (calm ([105; 109; 103]%N ++ size ++ [40%N] ++ url ++ [41%N] ++ post)
          = true).
  now rewrite !calm_app, (digits_calm size Hs), Cu, (plain_calm post Hp).
Qed.

Lemma image_token_witness :
  parseComment ((js "img" ++ js "220" ++ 40%N :: js "https://example.org/a.png"
                    ++ [41%N]) ++ js " cover")
  = Ok [imageOf (js "https://example.org/a.png"); textSegment (js " cover")].
Proof.
  apply (image_token (js "220") (js "https://example.org/a.png") (js " cover"));
    reflexivity.
Defined.

End TokensFacts.

(** ** Code blocks taken as they stand *)

Module VerbatimFacts.
Import Regex RegexFacts ExecFacts Parser ParserFacts PlainFacts CodeBlockFacts.
Import Render RenderFacts Lone LoneFacts Inline InlineFacts.
Import Tokens TokensFacts Verbatim.
Local Open Scope regex_scope.

(** *** No code block comes from a line *)













(** *** Where the blocks of a split come from *)





(** *** Every code block, at any depth *)







(** *** A fenced block of the text *)












End VerbatimFacts.
